(** * Dungeon escape: the map and state engine of [logic.cpp]

    A shallow embedding of the functions of [src/logic.cpp] ([loadLevel],
    [getDirection], [createMap], [deleteMap], [resizeMap], [doPlayerMove],
    [doMonsterAttack]) and the properties of the specification that
    concern them.

    Conventions of the embedding.
    - A [char** map] is a list of rows, each row a list of characters; the
      dimensions [maxRow] and [maxCol] travel separately, as in the source.
    - [int] values are integers of [Z].  Signed overflow is undefined in
      C++; the model computes [2 * maxRow], [2 * maxCol] and the candidate
      coordinates in [Z] and so describes the runs in which they fit an
      [int].  The treasure count is not tied to the size of a map, so
      for it the bound is modelled: [player.treasure++] has the
      wrap-around of the 32-bit machine, [INT_MAX] going to [INT_MIN].
      The extraction of an [int] from a stream clamps to the [int] range,
      as the library does.
    - A C++ function that writes through references returns the new values
      next to its result.
    - A function that allocates or touches the map lives in the monad
      [exec]: it returns, or throws
      [std::bad_array_new_length] (a negative array size given to [new]),
      or touches storage outside an allocation (undefined behaviour).
    - The header [logic.h] is not part of the sources at hand: its tile and
      key constants are the fields of the class [LogicHeader], and every
      theorem names the distinctness facts it needs. *)

From Stdlib Require Import ZArith Lia Ascii String.
From stdpp Require Import base decidable list strings.

Local Open Scope Z_scope.

(** ** The execution monad *)

Inductive exec (A : Type) : Type :=
| Ret (a : A)
| Throw
| Undef.
Arguments Ret {A} a.
Arguments Throw {A}.
Arguments Undef {A}.

Definition exec_bind {A B : Type} (f : A → exec B) (m : exec A) : exec B :=
  match m with
  | Ret a => f a
  | Throw => Throw
  | Undef => Undef
  end.

#[global] Instance exec_eq_dec {A : Type} `{EqDecision A} : EqDecision (exec A).
Proof. solve_decision. Defined.

#[global] Instance exec_ret : MRet exec := @Ret.
#[global] Instance exec_mbind : MBind exec := @exec_bind.

(** ** Loops

    [iter n i step body s] runs [body] at [i], [i + step], ... for at most
    [n] rounds; a body answers [Next] to go on and [Break] to leave the
    loop, as the [break] statement does. *)

Inductive ctl (S : Type) : Type :=
| Next (s : S)
| Break (s : S).
Arguments Next {S} s.
Arguments Break {S} s.

Fixpoint iter {S : Type} (n : nat) (i step : Z)
    (body : Z → S → exec (ctl S)) (s : S) : exec S :=
  match n with
  | O => Ret s
  | Datatypes.S n' =>
      c ← body i s;
      match c with
      | Next s' => iter n' (i + step) step body s'
      | Break s' => Ret s'
      end
  end.

(** A loop body without [break]. *)
Definition plain {S : Type} (body : Z → S → exec S) : Z → S → exec (ctl S) :=
  λ i s, s' ← body i s; Ret (Next s').

(** [for (int i = lo; i < hi; i++)] where the body may [break]. *)
Definition for_up_break {S : Type} (lo hi : Z)
    (body : Z → S → exec (ctl S)) (s : S) : exec S :=
  iter (Z.to_nat (hi - lo)) lo 1 body s.

(** [for (int i = hi; i >= 0; --i)] where the body may [break]. *)
Definition for_down_break {S : Type} (hi : Z)
    (body : Z → S → exec (ctl S)) (s : S) : exec S :=
  iter (Z.to_nat (hi + 1)) hi (-1) body s.

(** [for (int i = lo; i < hi; i++)] with a body that never breaks. *)
Definition for_up {S : Type} (lo hi : Z) (body : Z → S → exec S) (s : S) : exec S :=
  for_up_break lo hi (plain body) s.

(** ** Storage *)

(** The object behind a [char**]: the rows, each with its cells. *)
Abbreviation grid := (list (list ascii)).

(** [new T[n]]: throws for a negative [n]; the elements start out as [init],
    which stands for the indeterminate content of fresh storage. *)
Definition new_array {A : Type} (n : Z) (init : A) : exec (list A) :=
  if decide (n < 0) then Throw else Ret (replicate (Z.to_nat n) init).

(** [map[i] = r]. *)
Definition set_row (m : grid) (i : Z) (r : list ascii) : exec grid :=
  if decide (0 ≤ i ∧ (Z.to_nat i < length m)%nat)
  then Ret (<[Z.to_nat i := r]> m)
  else Undef.

(** Reading [map[i][j]]. *)
Definition load (m : grid) (i j : Z) : exec ascii :=
  if decide (0 ≤ i ∧ 0 ≤ j) then
    match m !! Z.to_nat i with
    | Some r =>
        match r !! Z.to_nat j with
        | Some c => Ret c
        | None => Undef
        end
    | None => Undef
    end
  else Undef.

(** [map[i][j] = c]. *)
Definition store (m : grid) (i j : Z) (c : ascii) : exec grid :=
  if decide (0 ≤ i ∧ 0 ≤ j) then
    match m !! Z.to_nat i with
    | Some r =>
        if decide (Z.to_nat j < length r)%nat
        then Ret (<[Z.to_nat i := <[Z.to_nat j := c]> r]> m)
        else Undef
    | None => Undef
    end
  else Undef.

(** The allocation behind [m] has [rows] rows of [cols] cells each. *)
Definition shaped (m : grid) (rows cols : Z) : Prop :=
  Z.of_nat (length m) = rows ∧ Forall (λ r, Z.of_nat (length r) = cols) m.

#[global] Instance shaped_dec (m : grid) (rows cols : Z) : Decision (shaped m rows cols).
Proof. unfold shaped. apply _. Defined.

(** A cell lies inside a [rows] by [cols] grid. *)
Definition inside (rows cols i j : Z) : Prop := 0 ≤ i < rows ∧ 0 ≤ j < cols.

(** ** The header *)

(** The constants [logic.cpp] takes from [logic.h]. *)
Class LogicHeader : Type := {
  TILE_OPEN : ascii;
  TILE_PLAYER : ascii;
  TILE_TREASURE : ascii;
  TILE_AMULET : ascii;
  TILE_MONSTER : ascii;
  TILE_PILLAR : ascii;
  TILE_DOOR : ascii;
  TILE_EXIT : ascii;
  MOVE_UP : ascii;
  MOVE_DOWN : ascii;
  MOVE_LEFT : ascii;
  MOVE_RIGHT : ascii
}.

(** The [STATUS_*] results of [doPlayerMove].  The header gives each an
    [int] value; the code only returns and compares them by name. *)
Inductive Status : Type :=
| STATUS_STAY
| STATUS_MOVE
| STATUS_TREASURE
| STATUS_AMULET
| STATUS_LEAVE
| STATUS_ESCAPE.

(** [struct Player]: the fields [logic.cpp] reads and writes. *)
Record Player : Type := mkPlayer {
  row : Z;
  col : Z;
  treasure : Z
}.

(** ** Input streams

    An [ifstream] over the bytes of a file: the unread characters and the
    fail bit.  The two extraction operators the loader uses follow the
    formatted input of the standard library in the classic locale: each
    starts with the sentry, which fails on a stream that has failed already
    and on one that holds nothing but white space, and then the operand
    keeps the value it had. *)

Record ifstream : Type := mkStream {
  unread : list ascii;
  failbit : bool
}.

Definition INT_MAX : Z := 2147483647.
Definition INT_MIN : Z := -2147483648.

(** The [int] a 32-bit two's-complement machine keeps of the integer [z]. *)
Definition wrap (z : Z) : Z := (z - INT_MIN) mod 4294967296 + INT_MIN.

Definition isspace (c : ascii) : bool :=
  let n := nat_of_ascii c in
  bool_decide (n = 32 ∨ 9 ≤ n ≤ 13)%nat.

Definition isdigit (c : ascii) : bool :=
  let n := nat_of_ascii c in
  bool_decide (48 ≤ n ≤ 57)%nat.

Fixpoint skipws (l : list ascii) : list ascii :=
  match l with
  | [] => []
  | c :: l' => if isspace c then skipws l' else l
  end.

(** The decimal digits at the front of [l], accumulated onto [acc]. *)
Fixpoint digits (acc : Z) (l : list ascii) : Z * list ascii :=
  match l with
  | [] => (acc, [])
  | c :: l' =>
      if isdigit c
      then digits (10 * acc + (Z.of_nat (nat_of_ascii c) - 48)) l'
      else (acc, l)
  end.

(** [ifs >> n] for an [int n] holding [old].  When the sentry fails, on a
    failed stream or at the end of the input, [n] keeps [old]; once a
    character is there, a conversion that finds no digit stores 0. *)
Definition get_int (ifs : ifstream) (old : Z) : Z * ifstream :=
  if failbit ifs then (old, ifs) else
  match skipws (unread ifs) with
  | [] => (old, mkStream [] true)
  | c0 :: l0 =>
      let '(negative, l1) :=
        if decide (c0 = "-"%char) then (true, l0)
        else if decide (c0 = "+"%char) then (false, l0)
        else (false, c0 :: l0) in
      match l1 with
      | c :: _ =>
          if isdigit c then
            let '(v, rest) := digits 0 l1 in
            let v := if negative then - v else v in
            if decide (INT_MAX < v) then (INT_MAX, mkStream rest true)
            else if decide (v < INT_MIN) then (INT_MIN, mkStream rest true)
            else (v, mkStream rest false)
          else (0, mkStream l1 true)
      | [] => (0, mkStream [] true)
      end
  end.

(** [ifs >> c] for a [char c] holding [old], kept when the sentry fails. *)
Definition get_char (ifs : ifstream) (old : ascii) : ascii * ifstream :=
  if failbit ifs then (old, ifs) else
  match skipws (unread ifs) with
  | [] => (old, mkStream [] true)
  | c :: rest => (c, mkStream rest false)
  end.

(** The files that can be opened, by name. *)
Definition filesystem : Type := string → option (list ascii).

(** ** The operations of [logic.cpp] *)

Section Program.
Context `{LogicHeader}.

(** What fresh [char] storage holds before the first write. *)
Variable junk : ascii.

(** [createMap]: allocate the row table, allocate each row, fill with
    [TILE_OPEN].  The result is the returned pointer; [None] is [nullptr]. *)
Definition createMap (maxRow maxCol : Z) : exec (option grid) :=
  diffMap ← new_array maxRow ([] : list ascii);
  diffMap ← for_up 0 maxRow (λ i diffMap,
      r ← new_array maxCol junk;
      set_row diffMap i r) diffMap;
  diffMap ← for_up 0 maxRow (λ i,
      for_up 0 maxCol (λ j diffMap, store diffMap i j TILE_OPEN)) diffMap;
  Ret (Some diffMap).

(** [deleteMap]: release each of the first [maxRow] rows, then the table. *)
Definition deleteMap (map : grid) (maxRow : Z) : exec unit :=
  for_up 0 maxRow (λ j _,
      if decide (0 ≤ j ∧ (Z.to_nat j < length map)%nat) then Ret tt else Undef) tt.

(** [loadLevel]: the result carries the returned pointer and the new values
    of [maxRow], [maxCol] and [player]. *)
Definition loadLevel (fs : filesystem) (fileName : string)
    (maxRow maxCol : Z) (player : Player) : exec (option grid * Z * Z * Player) :=
  match fs fileName with
  | None => Ret (None, maxRow, maxCol, player)
  | Some content =>
      let ifs := mkStream content false in
      let '(maxRow, ifs) := get_int ifs maxRow in
      let '(maxCol, ifs) := get_int ifs maxCol in
      let '(prow, ifs) := get_int ifs (row player) in
      let '(pcol, ifs) := get_int ifs (col player) in
      let player := mkPlayer prow pcol (treasure player) in
      diffMap ← createMap maxRow maxCol;
      match diffMap with
      | None => Ret (None, maxRow, maxCol, player)
      | Some diffMap =>
          '(ifs, diffMap) ← for_up 0 maxRow (λ i,
              for_up 0 maxCol (λ j '(ifs, diffMap),
                  old ← load diffMap i j;
                  let '(c, ifs) := get_char ifs old in
                  diffMap ← store diffMap i j c;
                  diffMap ←
                    (if decide (i = row player ∧ j = col player)
                     then store diffMap i j TILE_PLAYER
                     else Ret diffMap);
                  Ret (ifs, diffMap))) (ifs, diffMap);
          Ret (Some diffMap, maxRow, maxCol, player)
      end
  end.

(** [getDirection]: the new values of [nextRow] and [nextCol]. *)
Definition getDirection (input : ascii) (nextRow nextCol : Z) : Z * Z :=
  if decide (input = MOVE_RIGHT) then (nextRow, nextCol + 1)
  else if decide (input = MOVE_LEFT) then (nextRow, nextCol - 1)
  else if decide (input = MOVE_UP) then (nextRow - 1, nextCol)
  else if decide (input = MOVE_DOWN) then (nextRow + 1, nextCol)
  else (nextRow, nextCol).

(** [resizeMap]: the result carries the returned pointer's grid and the new
    values of [maxRow] and [maxCol].  The player is looked for, and put
    back, as the literal ['o']. *)
Definition resizeMap (map : grid) (maxRow maxCol : Z) : exec (grid * Z * Z) :=
  let tempRow := 2 * maxRow in
  let tempCol := 2 * maxCol in
  resize ← new_array tempRow ([] : list ascii);
  resize ← for_up 0 tempRow (λ i resize,
      temp ← new_array tempCol junk;
      set_row resize i temp) resize;
  '(curRow, curCol) ← for_up 0 maxRow (λ i,
      for_up 0 maxCol (λ j cur,
          c ← load map i j;
          if decide (c = "o"%char) then Ret (i, j) else Ret cur)) (0, 0);
  map ← store map curRow curCol TILE_OPEN;
  resize ← for_up 0 tempRow (λ i,
      for_up 0 tempCol (λ j resize,
          c ← load map (Z.rem i maxRow) (Z.rem j maxCol);
          store resize i j c)) resize;
  resize ← store resize curRow curCol "o"%char;
  _ ← deleteMap map maxRow;
  Ret (resize, tempRow, tempCol).

(** The relocation every successful move ends with. *)
Definition relocate (map : grid) (player : Player) (nextRow nextCol : Z)
    (treasure' : Z) (status : Status) : exec (grid * Player * Status) :=
  map ← store map (row player) (col player) TILE_OPEN;
  map ← store map nextRow nextCol TILE_PLAYER;
  Ret (map, mkPlayer nextRow nextCol treasure', status).

(** [doPlayerMove]: the result carries the map, the player and the status. *)
Definition doPlayerMove (map : grid) (maxRow maxCol : Z) (player : Player)
    (nextRow nextCol : Z) : exec (grid * Player * Status) :=
  if decide (nextRow < 0 ∨ nextRow >= maxRow) then Ret (map, player, STATUS_STAY)
  else if decide (nextCol < 0 ∨ nextCol >= maxCol) then Ret (map, player, STATUS_STAY)
  else
    c ← load map nextRow nextCol;
    if decide (c = TILE_PILLAR ∨ c = TILE_MONSTER) then
      Ret (map, player, STATUS_STAY)
    else if decide (c = TILE_TREASURE) then
      relocate map player nextRow nextCol (wrap (treasure player + 1)) STATUS_TREASURE
    else if decide (c = TILE_AMULET) then
      relocate map player nextRow nextCol (treasure player) STATUS_AMULET
    else if decide (c = TILE_DOOR) then
      relocate map player nextRow nextCol (treasure player) STATUS_LEAVE
    else if decide (c = TILE_EXIT) then
      if decide (treasure player >= 1) then
        relocate map player nextRow nextCol (treasure player) STATUS_ESCAPE
      else Ret (map, player, STATUS_STAY)
    else
      relocate map player nextRow nextCol (treasure player) STATUS_MOVE.

(** The body shared by the four scanning loops of [doMonsterAttack]: the
    scanned cell is [here], its neighbour on the player's side [toward]. *)
Definition monster_step (here toward : Z * Z) (map : grid) : exec (ctl grid) :=
  c ← load map here.1 here.2;
  if decide (c = TILE_PILLAR) then Ret (Break map)
  else if decide (c = TILE_MONSTER) then
    stay ← load map toward.1 toward.2;
    let stay := if decide (stay = TILE_PLAYER) then TILE_OPEN else stay in
    m ← load map here.1 here.2;
    map ← store map toward.1 toward.2 m;
    map ← store map here.1 here.2 stay;
    Ret (Next map)
  else Ret (Next map).

(** [doMonsterAttack]: the map after the four scans and the returned flag. *)
Definition doMonsterAttack (map : grid) (maxRow maxCol : Z) (player : Player)
    : exec (grid * bool) :=
  map ← for_down_break (col player - 1)
      (λ i, monster_step (row player, i) (row player, i + 1)) map;
  map ← for_up_break (col player + 1) maxCol
      (λ i, monster_step (row player, i) (row player, i - 1)) map;
  map ← for_down_break (row player - 1)
      (λ i, monster_step (i, col player) (i + 1, col player)) map;
  map ← for_up_break (row player + 1) maxRow
      (λ i, monster_step (i, col player) (i - 1, col player)) map;
  c ← load map (row player) (col player);
  if decide (c = TILE_MONSTER) then Ret (map, true) else Ret (map, false).

End Program.

(** Modelled from the spec: the characters of [logic.h], which is not among
    the sources.  The tiles follow the table of the level file format; the
    player marker is ['o'], the literal [resizeMap] compares with, and the
    keys are those of a keyboard's [w a s d].  The general theorems do not
    depend on this choice; the examples run on it. *)
#[global] Instance reference_header : LogicHeader := {|
  TILE_OPEN := "-";
  TILE_PLAYER := "o";
  TILE_TREASURE := "T";
  TILE_AMULET := "A";
  TILE_MONSTER := "M";
  TILE_PILLAR := "#";
  TILE_DOOR := "D";
  TILE_EXIT := "E";
  MOVE_UP := "w";
  MOVE_DOWN := "s";
  MOVE_LEFT := "a";
  MOVE_RIGHT := "d"
|}.

(** ** Notions the statements use *)

(** The cell at a pair of coordinates. *)
Definition peek (m : grid) (p : Z * Z) : exec ascii := load m p.1 p.2.

(** The four rays of [doMonsterAttack], in the order the source scans them:
    decreasing column, increasing column, decreasing row, increasing row. *)
Inductive Ray : Type :=
| ColumnDown
| ColumnUp
| RowDown
| RowUp.

#[global] Instance Ray_eq_dec : EqDecision Ray.
Proof. solve_decision. Defined.

(** The cell at distance [d] from the player on a ray. *)
Definition ray_cell (player : Player) (r : Ray) (d : Z) : Z * Z :=
  match r with
  | ColumnDown => (row player, col player - d)
  | ColumnUp => (row player, col player + d)
  | RowDown => (row player - d, col player)
  | RowUp => (row player + d, col player)
  end.

(** The distance of the last cell of a ray. *)
Definition ray_length (maxRow maxCol : Z) (player : Player) (r : Ray) : Z :=
  match r with
  | ColumnDown => col player
  | ColumnUp => maxCol - 1 - col player
  | RowDown => row player
  | RowUp => maxRow - 1 - row player
  end.

(** The rays [doMonsterAttack] has scanned when it comes to the ray [r]. *)
Definition scanned_before (r : Ray) : list Ray :=
  match r with
  | ColumnDown => []
  | ColumnUp => [ColumnDown]
  | RowDown => [ColumnDown; ColumnUp]
  | RowUp => [ColumnDown; ColumnUp; RowDown]
  end.

(** The four numbers at the head of a level file, [rows cols playerRow
    playerCol], and the stream behind them; [None] when the extraction of
    one of them fails. *)
Definition declared (content : list ascii) : option (Z * Z * Z * Z * ifstream) :=
  let '(rows, s) := get_int (mkStream content false) 0 in
  let '(cols, s) := get_int s 0 in
  let '(prow, s) := get_int s 0 in
  let '(pcol, s) := get_int s 0 in
  if failbit s then None else Some (rows, cols, prow, pcol, s).

(** The tile tokens of a text: its characters that are not white space. *)
Definition tokens (l : list ascii) : list ascii :=
  filter (λ c, isspace c = false) l.

(** The tokens a stream can still deliver. *)
Definition pending (s : ifstream) : list ascii :=
  if failbit s then [] else tokens (unread s).

(** The token of the cell [(i, j)] of a level with [cols] columns, and
    [fill] when the tokens run out before it. *)
Definition token_at (toks : list ascii) (cols i j : Z) (fill : ascii) : ascii :=
  default fill (toks !! Z.to_nat (i * cols + j)).

Section Notions.
Context `{LogicHeader}.

(** The only cell that holds [TILE_PLAYER] is [(r, c)]. *)
Definition sole_player (m : grid) (r c : Z) : Prop :=
  ∀ i j, load m i j = Ret TILE_PLAYER ↔ i = r ∧ j = c.

(** One scanning loop, by distance from the player: the cells [pos 1] to
    [pos n], each with its neighbour on the player's side. *)
Definition scan (pos : Z → Z * Z) (n : nat) (map : grid) : exec grid :=
  iter n 1 1 (λ d, monster_step (pos d) (pos (d - 1))) map.

(** The scan of one ray of [doMonsterAttack]. *)
Definition scan_ray (maxRow maxCol : Z) (player : Player) (r : Ray)
    (map : grid) : exec grid :=
  scan (ray_cell player r) (Z.to_nat (ray_length maxRow maxCol player r)) map.

(** Several scans in a row. *)
Fixpoint scan_rays (maxRow maxCol : Z) (player : Player) (rs : list Ray)
    (map : grid) : exec grid :=
  match rs with
  | [] => Ret map
  | r :: rs' =>
      map ← scan_ray maxRow maxCol player r map;
      scan_rays maxRow maxCol player rs' map
  end.

(** What holds of the map [m] of a scan that started from [m0] once the
    cells [pos 1] to [pos k] are behind it. *)
Definition scan_inv (pos : Z → Z * Z) (rows cols : Z) (m0 : grid)
    (k : Z) (m : grid) : Prop :=
  shaped m rows cols ∧
  (∀ i j, (∀ d, 0 ≤ d ≤ k → (i, j) ≠ pos d) → load m i j = load m0 i j) ∧
  (∀ d, 1 ≤ d ≤ k → peek m0 (pos d) ≠ Ret TILE_PILLAR) ∧
  (∀ d, 1 ≤ d ≤ k → peek m0 (pos d) = Ret TILE_MONSTER →
        peek m (pos (d - 1)) = Ret TILE_MONSTER) ∧
  (∀ e, 0 ≤ e ≤ k → e = 0 ∨ peek m0 (pos e) ≠ Ret TILE_MONSTER →
        (e < k → peek m0 (pos (e + 1)) ≠ Ret TILE_MONSTER) →
        peek m (pos e) = peek m0 (pos e)) ∧
  (∀ d c, 1 ≤ d ≤ k → peek m0 (pos d) = Ret TILE_MONSTER →
        d = 1 ∨ peek m0 (pos (d - 1)) ≠ Ret TILE_MONSTER →
        (d < k → peek m0 (pos (d + 1)) ≠ Ret TILE_MONSTER) →
        peek m0 (pos (d - 1)) = Ret c →
        peek m (pos d) = Ret (if decide (c = TILE_PLAYER) then TILE_OPEN else c)) ∧
  (TILE_MONSTER ≠ TILE_PLAYER → TILE_OPEN ≠ TILE_PLAYER →
   ∀ i j, load m i j = Ret TILE_PLAYER → load m0 i j = Ret TILE_PLAYER).

(** What holds of the map a scan of [n] cells ends with: it stopped after
    [k] cells, at the end of the ray or in front of a pillar. *)
Definition scan_post (pos : Z → Z * Z) (rows cols : Z) (n : Z) (m0 m : grid) : Prop :=
  ∃ k, 0 ≤ k ≤ n ∧ scan_inv pos rows cols m0 k m ∧
       (k = n ∨ peek m0 (pos (k + 1)) = Ret TILE_PILLAR).

(** What holds, once the cells [pos 1] to [pos k] are behind the scan, of
    the cell a line of monsters has left: when the cells [j + 1] to [d]
    held monsters, the cell [j] in front of them is the player's cell or
    held no monster, and no monster stood behind the line, the cell [d]
    holds what the cell [j] held, [TILE_OPEN] in place of the player
    marker. *)
Definition line_inv (pos : Z → Z * Z) (m0 : grid) (k : Z) (m : grid) : Prop :=
  ∀ d j c, 1 ≤ d ≤ k → 0 ≤ j < d →
    (∀ e, j < e ≤ d → peek m0 (pos e) = Ret TILE_MONSTER) →
    j = 0 ∨ peek m0 (pos j) ≠ Ret TILE_MONSTER →
    (d < k → peek m0 (pos (d + 1)) ≠ Ret TILE_MONSTER) →
    peek m0 (pos j) = Ret c →
    peek m (pos d) = Ret (if decide (c = TILE_PLAYER) then TILE_OPEN else c).

(** The four rays in scanning order. *)
Definition all_rays : list Ray := [ColumnDown; ColumnUp; RowDown; RowUp].

(** A monster stands on the player's cell when the scan of the ray [r]
    starts: it stood there before the call, or it came from the nearest
    cell of a ray scanned before [r]. *)
Definition taken (map : grid) (player : Player) (r : Ray) : Prop :=
  load map (row player) (col player) = Ret TILE_MONSTER ∨
  Exists (λ r', peek map (ray_cell player r' 1) = Ret TILE_MONSTER) (scanned_before r).

#[global] Instance taken_dec (map : grid) (player : Player) (r : Ray) :
  Decision (taken map player r).
Proof. unfold taken. apply _. Defined.

(** The check that ends [doMonsterAttack]. *)
Definition captured (map : grid) (player : Player) : exec (grid * bool) :=
  c ← load map (row player) (col player);
  if decide (c = TILE_MONSTER) then Ret (map, true) else Ret (map, false).

(** What the scan of the ray [r] made of the map [m]. *)
Definition ray_scanned (maxRow maxCol : Z) (player : Player) (r : Ray)
    (m m' : grid) : Prop :=
  let cell := ray_cell player r in
  shaped m' maxRow maxCol ∧
  (∀ i j, (∀ d, 0 ≤ d → (i, j) ≠ cell d) → load m' i j = load m i j) ∧
  (peek m' (cell 0) = peek m (cell 0) ∨ peek m' (cell 0) = Ret TILE_MONSTER) ∧
  (∀ d, 1 ≤ d → peek m (cell d) = Ret TILE_MONSTER →
        (∀ e, 1 ≤ e < d → peek m (cell e) ≠ Ret TILE_PILLAR) →
        peek m' (cell (d - 1)) = Ret TILE_MONSTER) ∧
  (∀ p d, 1 ≤ p ≤ d → peek m (cell p) = Ret TILE_PILLAR →
        peek m' (cell d) = peek m (cell d)) ∧
  (∀ e, 0 ≤ e → e = 0 ∨ peek m (cell e) ≠ Ret TILE_MONSTER →
        peek m (cell (e + 1)) ≠ Ret TILE_MONSTER →
        peek m' (cell e) = peek m (cell e)) ∧
  (∀ d c, 1 ≤ d → peek m (cell d) = Ret TILE_MONSTER →
        (∀ e, 1 ≤ e < d → peek m (cell e) ≠ Ret TILE_PILLAR) →
        d = 1 ∨ peek m (cell (d - 1)) ≠ Ret TILE_MONSTER →
        peek m (cell (d + 1)) ≠ Ret TILE_MONSTER →
        peek m (cell (d - 1)) = Ret c →
        peek m' (cell d) = Ret (if decide (c = TILE_PLAYER) then TILE_OPEN else c)) ∧
  (TILE_MONSTER ≠ TILE_PLAYER → TILE_OPEN ≠ TILE_PLAYER →
   ∀ i j, load m' i j = Ret TILE_PLAYER → load m i j = Ret TILE_PLAYER).

(** [n] calls of [doMonsterAttack] in a row, the player standing still:
    the map after the last one. *)
Fixpoint attacks (n : nat) (map : grid) (maxRow maxCol : Z) (player : Player)
    : exec grid :=
  match n with
  | O => Ret map
  | Datatypes.S n' =>
      '(map, _) ← doMonsterAttack map maxRow maxCol player;
      attacks n' map maxRow maxCol player
  end.

End Notions.

(** The 3 by 3 level of the specification's first scenario, and a file
    system that holds it under every name. *)
Definition level_3x3 : list ascii :=
  list_ascii_of_string "3 3 1 1 
 - - - 
 - P - 
 - - T".

Definition only_file (content : list ascii) : filesystem := λ _, Some content.

(** * Properties *)

(** ** The monad and the loops *)

Lemma bind_Ret {A B : Type} (a : A) (f : A → exec B) : (Ret a ≫= f) = f a.
Proof. reflexivity. Qed.

Lemma bind_inv {A B : Type} (m : exec A) (f : A → exec B) (b : B) :
  (m ≫= f) = Ret b → ∃ a, m = Ret a ∧ f a = Ret b.
Proof. destruct m as [a| |]; cbn; [eauto | discriminate | discriminate]. Qed.

(** The rule of a loop: [P k] holds before round [k], and [Q] holds once
    the loop is left, by [break] or after the last round. *)
Lemma iter_rule {S : Type} (P : nat → S → Prop) (Q : S → Prop)
    (n : nat) (i step : Z) (body : Z → S → exec (ctl S)) (s0 : S) :
  P O s0 →
  (∀ k s, (k < n)%nat → P k s →
     ∃ c, body (i + Z.of_nat k * step) s = Ret c ∧
          match c with Next s' => P (Datatypes.S k) s' | Break s' => Q s' end) →
  (∀ s, P n s → Q s) →
  ∃ s', iter n i step body s0 = Ret s' ∧ Q s'.
Proof.
  revert P i s0. induction n as [|n IH]; intros P i s0 H0 Hstep Hend.
  - exists s0. split; [reflexivity | auto].
  - destruct (Hstep O s0 ltac:(lia) H0) as (c & Hc & Hpost).
    replace (i + Z.of_nat 0 * step) with i in Hc by lia.
    cbn [iter]. rewrite Hc, bind_Ret. destruct c as [s1|s1].
    + apply (IH (λ k, P (Datatypes.S k))); [exact Hpost | | exact Hend].
      intros k s Hk HP. destruct (Hstep (Datatypes.S k) s ltac:(lia) HP) as (c' & Hc' & Hp').
      exists c'. split; [|exact Hp'].
      rewrite <- Hc'. f_equal. lia.
    + exists s1. split; [reflexivity | exact Hpost].
Qed.

(** The rule of a counting loop without [break]. *)
Lemma for_up_rule {S : Type} (P : Z → S → Prop)
    (lo hi : Z) (body : Z → S → exec S) (s0 : S) :
  lo ≤ hi → P lo s0 →
  (∀ i s, lo ≤ i < hi → P i s → ∃ s', body i s = Ret s' ∧ P (i + 1) s') →
  ∃ s', for_up lo hi body s0 = Ret s' ∧ P hi s'.
Proof.
  intros Hle H0 Hstep. unfold for_up, for_up_break.
  apply (iter_rule (λ k s, P (lo + Z.of_nat k) s)).
  - replace (lo + Z.of_nat 0) with lo by lia. exact H0.
  - intros k s Hk HP.
    destruct (Hstep (lo + Z.of_nat k) s ltac:(lia) HP) as (s' & Hs' & HP').
    exists (Next s'). split.
    + unfold plain. replace (lo + Z.of_nat k * 1) with (lo + Z.of_nat k) by lia.
      rewrite Hs'. reflexivity.
    + replace (lo + Z.of_nat (Datatypes.S k)) with (lo + Z.of_nat k + 1) by lia. exact HP'.
  - intros s HP. replace hi with (lo + Z.of_nat (Z.to_nat (hi - lo))) by lia. exact HP.
Qed.

(** ** Cells *)

Lemma load_inside (m : grid) (rows cols i j : Z) :
  shaped m rows cols → inside rows cols i j → ∃ c, load m i j = Ret c.
Proof.
  intros [Hlen Hrows] [Hi Hj]. rewrite Forall_forall in Hrows. unfold load.
  rewrite decide_True by lia.
  destruct (lookup_lt_is_Some_2 m (Z.to_nat i) ltac:(lia)) as [r Hr].
  rewrite Hr. specialize (Hrows r (list_elem_of_lookup_2 _ _ _ Hr)).
  destruct (lookup_lt_is_Some_2 r (Z.to_nat j) ltac:(lia)) as [c Hc].
  rewrite Hc. eauto.
Qed.

Lemma load_Ret_inside (m : grid) (rows cols i j : Z) (c : ascii) :
  shaped m rows cols → load m i j = Ret c → inside rows cols i j.
Proof.
  intros [Hlen Hrows]. rewrite Forall_forall in Hrows. unfold load, inside.
  destruct (decide _) as [Hnn|]; [|discriminate].
  destruct (m !! Z.to_nat i) as [r|] eqn:Hr; [|discriminate].
  destruct (r !! Z.to_nat j) as [c'|] eqn:Hc; [|discriminate].
  intros _. apply lookup_lt_Some in Hc.
  specialize (Hrows r (list_elem_of_lookup_2 _ _ _ Hr)).
  apply lookup_lt_Some in Hr. lia.
Qed.

Lemma store_inside (m : grid) (rows cols i j : Z) (c : ascii) :
  shaped m rows cols → inside rows cols i j → ∃ m', store m i j c = Ret m'.
Proof.
  intros [Hlen Hrows] [Hi Hj]. rewrite Forall_forall in Hrows. unfold store.
  rewrite decide_True by lia.
  destruct (lookup_lt_is_Some_2 m (Z.to_nat i) ltac:(lia)) as [r Hr].
  rewrite Hr. specialize (Hrows r (list_elem_of_lookup_2 _ _ _ Hr)).
  rewrite decide_True by lia. eauto.
Qed.

Lemma store_shaped (m m' : grid) (rows cols i j : Z) (c : ascii) :
  shaped m rows cols → store m i j c = Ret m' → shaped m' rows cols.
Proof.
  intros [Hlen Hrows]. rewrite Forall_forall in Hrows. unfold store.
  destruct (decide _) as [Hnn|]; [|discriminate].
  destruct (m !! Z.to_nat i) as [r|] eqn:Hr; [|discriminate].
  destruct (decide _) as [Hj|]; [|discriminate].
  intros [= <-]. split.
  - rewrite length_insert. exact Hlen.
  - apply Forall_forall. intros r' Hin. apply list_elem_of_lookup in Hin as [k Hk].
    destruct (decide (k = Z.to_nat i)) as [->|Hne].
    + rewrite list_lookup_insert_eq in Hk by (eapply lookup_lt_Some; eauto).
      injection Hk as <-. rewrite length_insert.
      apply Hrows. eapply list_elem_of_lookup_2; eauto.
    + rewrite list_lookup_insert_ne in Hk by congruence.
      apply Hrows. eapply list_elem_of_lookup_2; eauto.
Qed.

(** Reading after a write. *)
Lemma load_store (m m' : grid) (i j i' j' : Z) (c : ascii) :
  store m i j c = Ret m' →
  load m' i' j' = if decide (i' = i ∧ j' = j) then Ret c else load m i' j'.
Proof.
  unfold store.
  destruct (decide _) as [Hnn|]; [|discriminate].
  destruct (m !! Z.to_nat i) as [r|] eqn:Hr; [|discriminate].
  destruct (decide _) as [Hj|]; [|discriminate].
  intros [= <-]. unfold load.
  destruct (decide (0 ≤ i' ∧ 0 ≤ j')) as [Hnn'|Hneg].
  - destruct (decide (Z.to_nat i' = Z.to_nat i)) as [Hi|Hi].
    + rewrite Hi, list_lookup_insert_eq by (eapply lookup_lt_Some; eauto).
      rewrite Hr.
      destruct (decide (Z.to_nat j' = Z.to_nat j)) as [Hjj|Hjj].
      * rewrite Hjj, list_lookup_insert_eq by exact Hj.
        rewrite decide_True by lia. reflexivity.
      * rewrite list_lookup_insert_ne by congruence.
        rewrite decide_False by lia. reflexivity.
    + rewrite list_lookup_insert_ne by congruence.
      rewrite decide_False by lia. reflexivity.
  - rewrite decide_False by lia. reflexivity.
Qed.

Lemma load_store_eq (m m' : grid) (i j : Z) (c : ascii) :
  store m i j c = Ret m' → load m' i j = Ret c.
Proof. intros Hs. rewrite (load_store _ _ _ _ _ _ _ Hs), decide_True by auto. reflexivity. Qed.

Lemma load_store_ne (m m' : grid) (i j i' j' : Z) (c : ascii) :
  store m i j c = Ret m' → ¬ (i' = i ∧ j' = j) → load m' i' j' = load m i' j'.
Proof. intros Hs Hne. rewrite (load_store _ _ _ _ _ _ _ Hs), decide_False by auto. reflexivity. Qed.

(** A cell that can be read can be written. *)
Lemma store_loaded (m : grid) (i j : Z) (c0 c : ascii) :
  load m i j = Ret c0 → ∃ m', store m i j c = Ret m'.
Proof.
  unfold load, store.
  destruct (decide _) as [Hnn|]; [|discriminate].
  destruct (m !! Z.to_nat i) as [r|] eqn:Hr; [|discriminate].
  destruct (r !! Z.to_nat j) as [c'|] eqn:Hc; [|discriminate].
  intros _. rewrite decide_True by (eapply lookup_lt_Some; eauto). eauto.
Qed.

(** The rule of two nested counting loops: [P i j] holds before the cell
    [(i, j)] is visited, in row-major order. *)
Lemma for_up2_rule {S : Type} (P : Z → Z → S → Prop)
    (rows cols : Z) (body : Z → Z → S → exec S) (s0 : S) :
  0 ≤ rows → 0 ≤ cols → P 0 0 s0 →
  (∀ i j s, 0 ≤ i < rows → 0 ≤ j < cols → P i j s →
     ∃ s', body i j s = Ret s' ∧ P i (j + 1) s') →
  (∀ i s, 0 ≤ i < rows → P i cols s → P (i + 1) 0 s) →
  ∃ s', for_up 0 rows (λ i, for_up 0 cols (body i)) s0 = Ret s' ∧ P rows 0 s'.
Proof.
  intros Hr Hc H0 Hcell Hrow.
  apply (for_up_rule (λ i s, P i 0 s)); [exact Hr | exact H0 |].
  intros i s Hi HP.
  destruct (for_up_rule (λ j s, P i j s) 0 cols (body i) s Hc HP) as (s' & Hs' & HP').
  - intros j s1 Hj HP1. apply Hcell; [exact Hi | exact Hj | exact HP1].
  - exists s'. split; [exact Hs' | apply Hrow; [exact Hi | exact HP']].
Qed.

(** ** [createMap] *)

Lemma new_array_nonneg {A : Type} (n : Z) (init : A) :
  0 ≤ n → new_array n init = Ret (replicate (Z.to_nat n) init).
Proof. intros Hn. unfold new_array. rewrite decide_False by lia. reflexivity. Qed.

Lemma new_array_neg {A : Type} (n : Z) (init : A) :
  n < 0 → new_array n init = Throw.
Proof. intros Hn. unfold new_array. rewrite decide_True by lia. reflexivity. Qed.

(** Allocating every row of a fresh row table gives a grid of the asked
    shape. *)
Lemma alloc_rows_shaped (junk : ascii) (rows cols : Z) :
  0 ≤ rows → 0 ≤ cols →
  ∃ m, for_up 0 rows (λ i (m : grid), r ← new_array cols junk; set_row m i r)
         (replicate (Z.to_nat rows) []) = Ret m ∧ shaped m rows cols.
Proof.
  intros Hr Hc.
  destruct (for_up_rule
    (λ i (m : grid), Z.of_nat (length m) = rows ∧
       ∀ k r, (k < Z.to_nat i)%nat → m !! k = Some r → Z.of_nat (length r) = cols)
    0 rows (λ i (m : grid), r ← new_array cols junk; set_row m i r)
    (replicate (Z.to_nat rows) []) Hr) as (m & Hm & Hlen & Hrows).
  - split; [rewrite length_replicate; lia | intros k r Hk; lia].
  - intros i m Hi [Hlen Hrows].
    rewrite new_array_nonneg, bind_Ret by exact Hc.
    unfold set_row. rewrite decide_True by lia.
    eexists. split; [reflexivity|]. split; [rewrite length_insert; exact Hlen|].
    intros k r Hk Hlook.
    destruct (decide (k = Z.to_nat i)) as [->|Hne].
    + rewrite list_lookup_insert_eq in Hlook by lia.
      injection Hlook as <-. rewrite length_replicate. lia.
    + rewrite list_lookup_insert_ne in Hlook by congruence.
      apply (Hrows k); [lia | exact Hlook].
  - exists m. split; [exact Hm|]. split; [exact Hlen|].
    apply Forall_forall. intros r Hin. apply list_elem_of_lookup in Hin as [k Hk].
    apply (Hrows k r); [|exact Hk]. apply lookup_lt_Some in Hk. lia.
Qed.

Section CreateMap.
Context `{LogicHeader}.
Variable junk : ascii.

(** With non-negative dimensions [createMap] returns a grid of that shape
    whose every cell is [TILE_OPEN]. *)
Lemma createMap_open (rows cols : Z) :
  0 ≤ rows → 0 ≤ cols →
  ∃ m, createMap junk rows cols = Ret (Some m) ∧ shaped m rows cols ∧
       ∀ i j, inside rows cols i j → load m i j = Ret TILE_OPEN.
Proof.
  intros Hr Hc. unfold createMap.
  rewrite (new_array_nonneg rows), bind_Ret by exact Hr.
  destruct (alloc_rows_shaped junk rows cols Hr Hc) as (m0 & -> & Hshape0).
  rewrite bind_Ret.
  destruct (for_up2_rule
    (λ i j (m : grid), shaped m rows cols ∧
       ∀ i' j', inside rows cols i' j' → i' < i ∨ (i' = i ∧ j' < j) →
                load m i' j' = Ret TILE_OPEN)
    rows cols (λ i j (m : grid), store m i j TILE_OPEN) m0 Hr Hc)
    as (m & -> & Hshape & Hopen).
  - split; [exact Hshape0 | intros i' j' [? ?] ?; lia].
  - intros i j m Hi Hj [Hshape Hopen].
    destruct (store_inside m rows cols i j TILE_OPEN Hshape) as [m' Hm']; [split; lia|].
    exists m'. split; [exact Hm'|]. split; [eapply store_shaped; eauto|].
    intros i' j' Hin Hlt. rewrite (load_store _ _ _ _ _ _ _ Hm').
    case_decide; [reflexivity|]. apply Hopen; [exact Hin | lia].
  - intros i m Hi [Hshape Hopen]. split; [exact Hshape|].
    intros i' j' Hin Hlt. apply Hopen; [exact Hin|]. destruct Hin as [_ ?]. lia.
  - exists m. split; [reflexivity|]. split; [exact Hshape|].
    intros i j Hin. apply Hopen; [exact Hin|]. destruct Hin as [? _]. lia.
Qed.

End CreateMap.

(** ** One step of a scan *)

Section MonsterStep.
Context `{LogicHeader}.

Lemma monster_step_pillar (here toward : Z * Z) (m : grid) :
  peek m here = Ret TILE_PILLAR → monster_step here toward m = Ret (Break m).
Proof.
  unfold peek, monster_step. intros ->. rewrite bind_Ret.
  rewrite decide_True by reflexivity. reflexivity.
Qed.

Lemma monster_step_other (here toward : Z * Z) (m : grid) (c : ascii) :
  peek m here = Ret c → c ≠ TILE_PILLAR → c ≠ TILE_MONSTER →
  monster_step here toward m = Ret (Next m).
Proof.
  unfold peek, monster_step. intros -> Hp Hm. rewrite bind_Ret.
  rewrite !decide_False by assumption. reflexivity.
Qed.

(** A monster under the scan goes to the neighbouring cell, and its own
    cell takes what the neighbour held, [TILE_OPEN] in place of the player. *)
Lemma monster_step_monster (here toward : Z * Z) (m : grid) (s : ascii) :
  peek m here = Ret TILE_MONSTER → TILE_MONSTER ≠ TILE_PILLAR →
  peek m toward = Ret s →
  ∃ m1 m2,
    store m toward.1 toward.2 TILE_MONSTER = Ret m1 ∧
    store m1 here.1 here.2 (if decide (s = TILE_PLAYER) then TILE_OPEN else s) = Ret m2 ∧
    monster_step here toward m = Ret (Next m2).
Proof.
  unfold peek, monster_step. intros Hh Hne Ht.
  destruct (store_loaded m toward.1 toward.2 s TILE_MONSTER Ht) as [m1 Hm1].
  assert (∃ c, load m1 here.1 here.2 = Ret c) as [c Hc].
  { rewrite (load_store _ _ _ _ _ _ _ Hm1). case_decide; eauto. }
  destruct (store_loaded m1 here.1 here.2 c
    (if decide (s = TILE_PLAYER) then TILE_OPEN else s) Hc) as [m2 Hm2].
  exists m1, m2. split; [exact Hm1|]. split; [exact Hm2|].
  rewrite Hh, bind_Ret. rewrite decide_False by exact Hne.
  rewrite decide_True by reflexivity.
  rewrite Ht, !bind_Ret, Hm1, bind_Ret, Hm2. reflexivity.
Qed.

End MonsterStep.

(** ** One scan *)

Lemma pair_eq_components (i j : Z) (p : Z * Z) : (i, j) = p ↔ i = p.1 ∧ j = p.2.
Proof. destruct p as [a b]. cbn. split; [intros [= -> ->]; auto | intros [-> ->]; reflexivity]. Qed.

Section Scan.
Context `{LogicHeader}.
Variable pos : Z → Z * Z.
Variable n : nat.
Variables rows cols : Z.
Variable m0 : grid.
Hypothesis pos_inj : ∀ d e, 0 ≤ d ≤ Z.of_nat n → 0 ≤ e ≤ Z.of_nat n → pos d = pos e → d = e.
Hypothesis pos_inside : ∀ d, 0 ≤ d ≤ Z.of_nat n → inside rows cols (pos d).1 (pos d).2.
Hypothesis m0_shaped : shaped m0 rows cols.

Lemma scan_inv_start : scan_inv pos rows cols m0 0 m0.
Proof.
  unfold scan_inv. split; [exact m0_shaped|].
  split; [reflexivity|]. split; [intros; lia|]. split; [intros; lia|].
  split; [reflexivity|]. split; [intros; lia | auto].
Qed.

(** The scanned cell still holds what it held at the start. *)
Lemma scan_inv_ahead (k d : Z) (m : grid) :
  scan_inv pos rows cols m0 k m → 0 ≤ k < d → d ≤ Z.of_nat n →
  peek m (pos d) = peek m0 (pos d).
Proof.
  intros (_ & Hframe & _) Hk Hd. unfold peek. apply Hframe.
  intros e He Heq. apply pair_eq_components in Heq.
  assert (pos d = pos e) as Hpos by (destruct (pos d), (pos e); cbn in *; f_equal; tauto).
  apply pos_inj in Hpos; lia.
Qed.

Lemma scan_inv_skip (k : Z) (m : grid) :
  0 ≤ k < Z.of_nat n →
  scan_inv pos rows cols m0 k m →
  peek m0 (pos (k + 1)) ≠ Ret TILE_PILLAR →
  peek m0 (pos (k + 1)) ≠ Ret TILE_MONSTER →
  scan_inv pos rows cols m0 (k + 1) m.
Proof.
  intros Hk Hinv Hnp Hnm.
  pose proof (scan_inv_ahead k (k + 1) m Hinv ltac:(lia) ltac:(lia)) as Hahead.
  destruct Hinv as (Hshape & Hframe & Hpil & Hmov & Hloc & Hswap & Hpl).
  split; [exact Hshape|].
  split; [intros i j Hne; apply Hframe; intros d Hd; apply Hne; lia|].
  split; [intros d Hd; destruct (decide (d = k + 1)) as [->|]; [exact Hnp | apply Hpil; lia]|].
  split.
  { intros d Hd Hm. destruct (decide (d = k + 1)) as [->|]; [contradiction|].
    apply Hmov; [lia | exact Hm]. }
  split.
  { intros e He Hself Hnext.
    destruct (decide (e = k + 1)) as [->|Hne]; [exact Hahead|].
    apply Hloc; [lia | exact Hself |].
    intros Hlt. apply Hnext. lia. }
  split; [|exact Hpl].
  intros d c Hd Hm Hprev Hnext Hc.
  destruct (decide (d = k + 1)) as [->|Hne]; [contradiction|].
  apply Hswap; [lia | exact Hm | exact Hprev | | exact Hc].
  intros Hlt. apply Hnext. lia.
Qed.

Lemma scan_inv_move (k : Z) (m m1 m2 : grid) (s : ascii) :
  0 ≤ k < Z.of_nat n →
  scan_inv pos rows cols m0 k m →
  peek m0 (pos (k + 1)) = Ret TILE_MONSTER →
  TILE_MONSTER ≠ TILE_PILLAR →
  peek m (pos k) = Ret s →
  store m (pos k).1 (pos k).2 TILE_MONSTER = Ret m1 →
  store m1 (pos (k + 1)).1 (pos (k + 1)).2
    (if decide (s = TILE_PLAYER) then TILE_OPEN else s) = Ret m2 →
  scan_inv pos rows cols m0 (k + 1) m2.
Proof.
  intros Hk Hinv Hmon Hne Hs Hm1 Hm2.
  assert (Hload : ∀ i j, load m2 i j =
            if decide (i = (pos (k + 1)).1 ∧ j = (pos (k + 1)).2)
            then Ret (if decide (s = TILE_PLAYER) then TILE_OPEN else s)
            else if decide (i = (pos k).1 ∧ j = (pos k).2) then Ret TILE_MONSTER
            else load m i j).
  { intros i j. rewrite (load_store _ _ _ _ _ _ _ Hm2), (load_store _ _ _ _ _ _ _ Hm1).
    reflexivity. }
  assert (Hother : ∀ d, 0 ≤ d ≤ Z.of_nat n → d ≠ k → d ≠ k + 1 →
            peek m2 (pos d) = peek m (pos d)).
  { intros d Hd Hdk Hdk1. unfold peek. rewrite Hload.
    rewrite decide_False.
    - rewrite decide_False; [reflexivity|].
      intros Heq. apply pair_eq_components in Heq.
      assert (pos d = pos k) as Hpos by (destruct (pos d); exact Heq).
      apply pos_inj in Hpos; lia.
    - intros Heq. apply pair_eq_components in Heq.
      assert (pos d = pos (k + 1)) as Hpos by (destruct (pos d); exact Heq).
      apply pos_inj in Hpos; lia. }
  assert (Hdest : peek m2 (pos k) = Ret TILE_MONSTER).
  { unfold peek. rewrite Hload. rewrite decide_False.
    - rewrite decide_True by auto. reflexivity.
    - intros Heq. apply pair_eq_components in Heq.
      assert (pos k = pos (k + 1)) as Hpos by (destruct (pos k); exact Heq).
      apply pos_inj in Hpos; lia. }
  assert (Horigin : peek m2 (pos (k + 1)) =
            Ret (if decide (s = TILE_PLAYER) then TILE_OPEN else s)).
  { unfold peek. rewrite Hload. rewrite decide_True by auto. reflexivity. }
  destruct Hinv as (Hshape & Hframe & Hpil & Hmov & Hloc & Hswap & Hpl).
  split; [eapply store_shaped; [eapply store_shaped|]; eauto|].
  split.
  { intros i j Hnot. rewrite Hload.
    rewrite decide_False
      by (intros Heq; apply pair_eq_components in Heq; apply (Hnot (k + 1)); [lia | exact Heq]).
    rewrite decide_False
      by (intros Heq; apply pair_eq_components in Heq; apply (Hnot k); [lia | exact Heq]).
    apply Hframe. intros d Hd. apply Hnot. lia. }
  split.
  { intros d Hd. destruct (decide (d = k + 1)) as [->|].
    - rewrite Hmon. intros [= Heq]. exact (Hne Heq).
    - apply Hpil. lia. }
  split.
  { intros d Hd Hm. destruct (decide (d = k + 1)) as [->|Hdk].
    - replace (k + 1 - 1) with k by lia. exact Hdest.
    - rewrite Hother by lia. apply Hmov; [lia | exact Hm]. }
  split.
  { intros e He Hself Hnext.
    destruct (decide (e = k + 1)) as [->|Hek1]; [destruct Hself; [lia | contradiction]|].
    destruct (decide (e = k)) as [->|Hek]; [exfalso; apply Hnext; [lia | exact Hmon]|].
    rewrite Hother by lia. apply Hloc; [lia | exact Hself |].
    intros Hlt. apply Hnext. lia. }
  split.
  { intros d c Hd Hm Hprev Hnext Hc.
    destruct (decide (d = k + 1)) as [->|Hdk1].
    - replace (k + 1 - 1) with k in Hprev, Hc by lia.
      assert (peek m (pos k) = peek m0 (pos k)) as Hk0.
      { apply Hloc; [lia | destruct Hprev; [left; lia | right; assumption] | lia]. }
      rewrite Hk0, Hc in Hs. injection Hs as <-. exact Horigin.
    - destruct (decide (d = k)) as [->|Hdk]; [exfalso; apply Hnext; [lia | exact Hmon]|].
      rewrite Hother by lia. apply Hswap; [lia | exact Hm | exact Hprev | | exact Hc].
      intros Hlt. apply Hnext. lia. }
  intros Hmp Hop i j. rewrite Hload.
  destruct (decide (i = (pos (k + 1)).1 ∧ j = (pos (k + 1)).2)) as [Hhere|Hhere].
  - destruct (decide (s = TILE_PLAYER)); intros [= Heq]; contradiction.
  - destruct (decide (i = (pos k).1 ∧ j = (pos k).2));
      [intros [= Heq]; contradiction | apply Hpl; assumption].
Qed.

(** A scan returns, and its result is as [scan_post] says. *)
Lemma scan_spec :
  TILE_MONSTER ≠ TILE_PILLAR →
  ∃ m, scan pos n m0 = Ret m ∧ scan_post pos rows cols (Z.of_nat n) m0 m.
Proof.
  intros Hne. unfold scan.
  apply (iter_rule (λ k m, scan_inv pos rows cols m0 (Z.of_nat k) m)).
  - exact scan_inv_start.
  - intros k m Hk Hinv.
    replace (1 + Z.of_nat k * 1) with (Z.of_nat k + 1) by lia.
    replace (Z.of_nat k + 1 - 1) with (Z.of_nat k) by lia.
    pose proof (scan_inv_ahead _ (Z.of_nat k + 1) m Hinv ltac:(lia) ltac:(lia)) as Hahead.
    assert (Hshape : shaped m rows cols) by apply Hinv.
    destruct (load_inside m rows cols _ _ Hshape (pos_inside (Z.of_nat k + 1) ltac:(lia)))
      as [c Hc].
    fold (peek m (pos (Z.of_nat k + 1))) in Hc.
    destruct (decide (c = TILE_PILLAR)) as [->|Hcp].
    + exists (Break m). split; [apply monster_step_pillar; exact Hc|].
      exists (Z.of_nat k). split; [lia|]. split; [exact Hinv|].
      right. rewrite <- Hahead. exact Hc.
    + destruct (decide (c = TILE_MONSTER)) as [->|Hcm].
      * destruct (load_inside m rows cols _ _ Hshape (pos_inside (Z.of_nat k) ltac:(lia)))
          as [s Hs].
        fold (peek m (pos (Z.of_nat k))) in Hs.
        destruct (monster_step_monster _ _ m s Hc Hne Hs) as (m1 & m2 & Hm1 & Hm2 & Hstep).
        exists (Next m2). split; [exact Hstep|].
        rewrite Nat2Z.inj_succ. unfold Z.succ.
        apply (scan_inv_move _ m m1 m2 s); try assumption; [lia|].
        rewrite <- Hahead. exact Hc.
      * exists (Next m). split; [eapply monster_step_other; eauto|].
        rewrite Nat2Z.inj_succ. unfold Z.succ.
        apply scan_inv_skip; [lia | exact Hinv | |]; rewrite <- Hahead, Hc; congruence.
  - intros m Hinv. exists (Z.of_nat n). split; [lia|]. split; [exact Hinv | left; reflexivity].
Qed.

(** *** What a finished scan did *)

Variable m' : grid.
Hypothesis scanned : scan_post pos rows cols (Z.of_nat n) m0 m'.

Lemma scan_shaped : shaped m' rows cols.
Proof. destruct scanned as (k & _ & Hinv & _). apply Hinv. Qed.

(** Cells off the ray are as they were. *)
Lemma scan_frame (i j : Z) :
  (∀ d, 0 ≤ d ≤ Z.of_nat n → (i, j) ≠ pos d) → load m' i j = load m0 i j.
Proof.
  destruct scanned as (k & Hk & (_ & Hframe & _) & _).
  intros Hoff. apply Hframe. intros d Hd. apply Hoff. lia.
Qed.

(** No cell holds the player marker that did not hold it before. *)
Lemma scan_no_new_player (i j : Z) :
  TILE_MONSTER ≠ TILE_PLAYER → TILE_OPEN ≠ TILE_PLAYER →
  load m' i j = Ret TILE_PLAYER → load m0 i j = Ret TILE_PLAYER.
Proof.
  destruct scanned as (k & Hk & (_ & _ & _ & _ & _ & _ & Hpl) & _).
  intros Hmp Hop. apply Hpl; assumption.
Qed.

(** A monster in front of which no pillar stands has reached the next cell
    toward the player. *)
Lemma scan_move (d : Z) :
  TILE_MONSTER ≠ TILE_PILLAR →
  1 ≤ d ≤ Z.of_nat n →
  peek m0 (pos d) = Ret TILE_MONSTER →
  (∀ e, 1 ≤ e < d → peek m0 (pos e) ≠ Ret TILE_PILLAR) →
  peek m' (pos (d - 1)) = Ret TILE_MONSTER.
Proof.
  destruct scanned as (k & Hk & (_ & _ & _ & Hmov & _) & Hstop).
  intros Hne Hd Hm Hclear. apply Hmov; [|exact Hm].
  destruct Hstop as [->|Hpil]; [lia|].
  destruct (decide (d ≤ k)) as [|Hgt]; [lia|]. exfalso.
  destruct (decide (d = k + 1)) as [->|Hne'].
  - rewrite Hm in Hpil. injection Hpil as Heq. exact (Hne Heq).
  - apply (Hclear (k + 1)); [lia | exact Hpil].
Qed.

(** From a pillar outward nothing has changed. *)
Lemma scan_block (p d : Z) :
  1 ≤ p ≤ d → d ≤ Z.of_nat n →
  peek m0 (pos p) = Ret TILE_PILLAR →
  peek m' (pos d) = peek m0 (pos d).
Proof.
  destruct scanned as (k & Hk & Hinv & Hstop).
  intros Hp Hd Hpil.
  apply (scan_inv_ahead k d m' Hinv); [|exact Hd].
  destruct Hinv as (_ & _ & Hnopil & _).
  destruct (decide (p ≤ k)) as [Hle|]; [|lia].
  exfalso. exact (Hnopil p ltac:(lia) Hpil).
Qed.

(** A cell changes only when a monster stands on it or right behind it. *)
Lemma scan_local (e : Z) :
  0 ≤ e ≤ Z.of_nat n →
  e = 0 ∨ peek m0 (pos e) ≠ Ret TILE_MONSTER →
  (e < Z.of_nat n → peek m0 (pos (e + 1)) ≠ Ret TILE_MONSTER) →
  peek m' (pos e) = peek m0 (pos e).
Proof.
  destruct scanned as (k & Hk & Hinv & Hstop).
  intros He Hself Hnext.
  destruct (decide (e ≤ k)) as [Hle|Hgt].
  - destruct Hinv as (_ & _ & _ & _ & Hloc & _).
    apply Hloc; [lia | exact Hself |]. intros Hlt. apply Hnext. lia.
  - apply (scan_inv_ahead k e m' Hinv); lia.
Qed.

(** The player's cell is as it was, or a monster stands on it. *)
Lemma scan_zero :
  peek m' (pos 0) = peek m0 (pos 0) ∨ peek m' (pos 0) = Ret TILE_MONSTER.
Proof.
  destruct scanned as (k & Hk & (_ & _ & _ & Hmov & Hloc & _) & _).
  destruct (decide (1 ≤ k ∧ peek m0 (pos 1) = Ret TILE_MONSTER)) as [[Hk1 Hm]|Hno].
  - right. apply (Hmov 1); [lia | exact Hm].
  - left. apply Hloc; [lia | left; reflexivity |].
    intros Hlt Hm. apply Hno. split; [lia | exact Hm].
Qed.

(** A monster with no monster next to it on the ray has left to its cell
    what the cell toward the player held, [TILE_OPEN] for the player. *)
Lemma scan_swap (d : Z) (c : ascii) :
  TILE_MONSTER ≠ TILE_PILLAR →
  1 ≤ d ≤ Z.of_nat n →
  peek m0 (pos d) = Ret TILE_MONSTER →
  (∀ e, 1 ≤ e < d → peek m0 (pos e) ≠ Ret TILE_PILLAR) →
  d = 1 ∨ peek m0 (pos (d - 1)) ≠ Ret TILE_MONSTER →
  (d < Z.of_nat n → peek m0 (pos (d + 1)) ≠ Ret TILE_MONSTER) →
  peek m0 (pos (d - 1)) = Ret c →
  peek m' (pos d) = Ret (if decide (c = TILE_PLAYER) then TILE_OPEN else c).
Proof.
  destruct scanned as (k & Hk & (_ & _ & _ & _ & _ & Hswap & _) & Hstop).
  intros Hne Hd Hm Hclear Hprev Hnext Hc.
  apply Hswap; [| exact Hm | exact Hprev | | exact Hc].
  - destruct Hstop as [->|Hpil]; [lia|].
    destruct (decide (d ≤ k)) as [|Hgt]; [lia|]. exfalso.
    destruct (decide (d = k + 1)) as [->|Hne'].
    + rewrite Hm in Hpil. injection Hpil as Heq. exact (Hne Heq).
    + apply (Hclear (k + 1)); [lia | exact Hpil].
  - intros Hlt. apply Hnext. lia.
Qed.

End Scan.

(** ** A line of monsters under one scan *)

Section ScanLine.
Context `{LogicHeader}.
Variable pos : Z → Z * Z.
Variable n : nat.
Variables rows cols : Z.
Variable m0 : grid.
Hypothesis pos_inj : ∀ d e, 0 ≤ d ≤ Z.of_nat n → 0 ≤ e ≤ Z.of_nat n → pos d = pos e → d = e.
Hypothesis pos_inside : ∀ d, 0 ≤ d ≤ Z.of_nat n → inside rows cols (pos d).1 (pos d).2.
Hypothesis m0_shaped : shaped m0 rows cols.
Hypothesis monster_not_pillar : TILE_MONSTER ≠ TILE_PILLAR.

(** Replacing the player marker twice is replacing it once. *)
Lemma stay_twice (c : ascii) :
  (if decide ((if decide (c = TILE_PLAYER) then TILE_OPEN else c) = TILE_PLAYER)
   then TILE_OPEN else (if decide (c = TILE_PLAYER) then TILE_OPEN else c)) =
  (if decide (c = TILE_PLAYER) then TILE_OPEN else c).
Proof.
  destruct (decide (c = TILE_PLAYER)) as [->|Hc].
  - destruct (decide (TILE_OPEN = TILE_PLAYER)); reflexivity.
  - rewrite decide_False by exact Hc. reflexivity.
Qed.

(** Every monster of a line in sight swaps with the cell in front of it,
    so the tile in front of the line ends behind it: the last cell of the
    line holds it when the scan is over. *)
Lemma scan_line (m' : grid) :
  scan pos n m0 = Ret m' →
  ∀ d j c, 1 ≤ d ≤ Z.of_nat n → 0 ≤ j < d →
    (∀ e, 1 ≤ e ≤ j → peek m0 (pos e) ≠ Ret TILE_PILLAR) →
    (∀ e, j < e ≤ d → peek m0 (pos e) = Ret TILE_MONSTER) →
    j = 0 ∨ peek m0 (pos j) ≠ Ret TILE_MONSTER →
    (d < Z.of_nat n → peek m0 (pos (d + 1)) ≠ Ret TILE_MONSTER) →
    peek m0 (pos j) = Ret c →
    peek m' (pos d) = Ret (if decide (c = TILE_PLAYER) then TILE_OPEN else c).
Proof.
  intros Hrun.
  destruct (iter_rule
    (λ k m, scan_inv pos rows cols m0 (Z.of_nat k) m ∧ line_inv pos m0 (Z.of_nat k) m)
    (λ m, ∃ k, 0 ≤ k ≤ Z.of_nat n ∧ line_inv pos m0 k m ∧
               (k = Z.of_nat n ∨ peek m0 (pos (k + 1)) = Ret TILE_PILLAR))
    n 1 1 (λ d, monster_step (pos d) (pos (d - 1))) m0)
    as (m1 & Hrun' & k & Hk & Hline & Hstop).
  - split; [apply scan_inv_start; exact m0_shaped | intros d j c Hd; lia].
  - intros k mk Hk [Hinv Hline].
    replace (1 + Z.of_nat k * 1) with (Z.of_nat k + 1) by lia.
    replace (Z.of_nat k + 1 - 1) with (Z.of_nat k) by lia.
    pose proof (scan_inv_ahead pos n rows cols m0 pos_inj _ (Z.of_nat k + 1) mk Hinv
                  ltac:(lia) ltac:(lia)) as Hahead.
    assert (Hshape : shaped mk rows cols) by apply Hinv.
    destruct (load_inside mk rows cols _ _ Hshape (pos_inside (Z.of_nat k + 1) ltac:(lia)))
      as [c Hc].
    fold (peek mk (pos (Z.of_nat k + 1))) in Hc.
    destruct (decide (c = TILE_PILLAR)) as [->|Hcp].
    + exists (Break mk). split; [apply monster_step_pillar; exact Hc|].
      exists (Z.of_nat k). split; [lia|]. split; [exact Hline|].
      right. rewrite <- Hahead. exact Hc.
    + destruct (decide (c = TILE_MONSTER)) as [->|Hcm].
      * destruct (load_inside mk rows cols _ _ Hshape (pos_inside (Z.of_nat k) ltac:(lia)))
          as [s Hs].
        fold (peek mk (pos (Z.of_nat k))) in Hs.
        destruct (monster_step_monster _ _ mk s Hc monster_not_pillar Hs)
          as (m1 & m2 & Hm1 & Hm2 & Hstep).
        exists (Next m2). split; [exact Hstep|].
        rewrite Nat2Z.inj_succ. unfold Z.succ.
        assert (Hmon : peek m0 (pos (Z.of_nat k + 1)) = Ret TILE_MONSTER)
          by (rewrite <- Hahead; exact Hc).
        split.
        { apply (scan_inv_move pos n rows cols m0 pos_inj _ mk m1 m2 s); try assumption; lia. }
        intros d j c Hd Hj Hmons Hfront Hnext Hcj.
        destruct (decide (d = Z.of_nat k + 1)) as [->|Hdk].
        -- assert (Horigin : peek m2 (pos (Z.of_nat k + 1)) =
                     Ret (if decide (s = TILE_PLAYER) then TILE_OPEN else s))
             by exact (load_store_eq _ _ _ _ _ Hm2).
           rewrite Horigin. f_equal.
           destruct (decide (j = Z.of_nat k)) as [->|Hjk].
           ++ destruct Hinv as (_ & _ & _ & _ & Hloc & _).
              assert (peek mk (pos (Z.of_nat k)) = peek m0 (pos (Z.of_nat k))) as Hk0.
              { apply Hloc; [lia | destruct Hfront; [left; lia | right; assumption] | lia]. }
              rewrite Hk0, Hcj in Hs. injection Hs as <-. reflexivity.
           ++ assert (Hsk : peek mk (pos (Z.of_nat k)) =
                        Ret (if decide (c = TILE_PLAYER) then TILE_OPEN else c)).
              { apply (Hline (Z.of_nat k) j c);
                  [lia | lia | intros e He; apply Hmons; lia | exact Hfront | lia | exact Hcj]. }
              rewrite Hsk in Hs. injection Hs as <-. apply stay_twice.
        -- destruct (decide (d = Z.of_nat k)) as [->|Hdk'];
             [exfalso; apply Hnext; [lia | exact Hmon]|].
           assert (peek m2 (pos d) = peek mk (pos d)) as ->.
           { unfold peek.
             rewrite (load_store_ne _ _ _ _ _ _ _ Hm2), (load_store_ne _ _ _ _ _ _ _ Hm1);
               [reflexivity | |]; intros Heq.
             - assert (pos d = pos (Z.of_nat k)) as Hpos by (destruct (pos d), (pos (Z.of_nat k)); cbn in *; f_equal; tauto).
               apply pos_inj in Hpos; lia.
             - assert (pos d = pos (Z.of_nat k + 1)) as Hpos by (destruct (pos d), (pos (Z.of_nat k + 1)); cbn in *; f_equal; tauto).
               apply pos_inj in Hpos; lia. }
           apply (Hline d j c);
             [lia | lia | exact Hmons | exact Hfront | intros _; apply Hnext; lia | exact Hcj].
      * exists (Next mk). split; [eapply monster_step_other; eauto|].
        rewrite Nat2Z.inj_succ. unfold Z.succ. split.
        { apply (scan_inv_skip pos n rows cols m0 pos_inj); [lia | exact Hinv | |];
            rewrite <- Hahead, Hc; congruence. }
        intros d j c' Hd Hj Hmons Hfront Hnext Hcj.
        destruct (decide (d = Z.of_nat k + 1)) as [->|Hdk].
        -- exfalso. specialize (Hmons (Z.of_nat k + 1) ltac:(lia)).
           rewrite <- Hahead, Hc in Hmons. injection Hmons as Heq. exact (Hcm Heq).
        -- apply (Hline d j c');
             [lia | lia | exact Hmons | exact Hfront | intros _; apply Hnext; lia | exact Hcj].
  - intros mk [_ Hline]. exists (Z.of_nat n). split; [lia|].
    split; [exact Hline | left; reflexivity].
  - unfold scan in Hrun. rewrite Hrun in Hrun'. injection Hrun' as <-.
    intros d j c Hd Hj Hclear Hmons Hfront Hnext Hcj.
    apply (Hline d j c);
      [| lia | exact Hmons | exact Hfront | intros Hlt; apply Hnext; lia | exact Hcj].
    split; [lia|].
    destruct Hstop as [->|Hpil]; [lia|].
    destruct (decide (d ≤ k)) as [|Hgt]; [lia|]. exfalso.
    destruct (decide (k + 1 ≤ j)) as [Hle|Hgt'].
    + apply (Hclear (k + 1)); [lia | exact Hpil].
    + rewrite (Hmons (k + 1)) in Hpil by lia. injection Hpil as Heq.
      exact (monster_not_pillar Heq).
Qed.

End ScanLine.

(** ** The rays *)

Lemma iter_ext {S : Type} (n : nat) (i step i' step' : Z)
    (body body' : Z → S → exec (ctl S)) (s : S) :
  (∀ k s, (k < n)%nat → body (i + Z.of_nat k * step) s = body' (i' + Z.of_nat k * step') s) →
  iter n i step body s = iter n i' step' body' s.
Proof.
  revert i i' s. induction n as [|n IH]; intros i i' s Hext; [reflexivity|].
  cbn [iter]. pose proof (Hext O s ltac:(lia)) as H0.
  replace (i + Z.of_nat 0 * step) with i in H0 by lia.
  replace (i' + Z.of_nat 0 * step') with i' in H0 by lia.
  rewrite H0. destruct (body' i' s) as [[s1|s1]| |]; cbn; try reflexivity.
  apply IH. intros k s2 Hk.
  replace (i + step + Z.of_nat k * step) with (i + Z.of_nat (Datatypes.S k) * step) by lia.
  replace (i' + step' + Z.of_nat k * step') with (i' + Z.of_nat (Datatypes.S k) * step') by lia.
  apply Hext. lia.
Qed.

Lemma ray_cell_zero (player : Player) (r : Ray) :
  ray_cell player r 0 = (row player, col player).
Proof. destruct r; cbn; f_equal; lia. Qed.

Lemma ray_cell_inj (player : Player) (r : Ray) (d e : Z) :
  ray_cell player r d = ray_cell player r e → d = e.
Proof. destruct r; cbn; intros [= Heq]; lia. Qed.

Lemma ray_cell_apart (player : Player) (r r' : Ray) (d e : Z) :
  r ≠ r' → 1 ≤ d → 0 ≤ e → ray_cell player r d ≠ ray_cell player r' e.
Proof.
  intros Hne Hd He.
  destruct r, r'; try contradiction; cbn; intros Heq; injection Heq; intros; lia.
Qed.

Lemma ray_cell_inside (maxRow maxCol : Z) (player : Player) (r : Ray) (d : Z) :
  inside maxRow maxCol (row player) (col player) →
  0 ≤ d ≤ ray_length maxRow maxCol player r →
  inside maxRow maxCol (ray_cell player r d).1 (ray_cell player r d).2.
Proof. unfold inside. destruct r; cbn; lia. Qed.

Lemma ray_cell_within (maxRow maxCol : Z) (player : Player) (r : Ray) (d : Z) :
  inside maxRow maxCol (ray_cell player r d).1 (ray_cell player r d).2 →
  d ≤ ray_length maxRow maxCol player r.
Proof. unfold inside. destruct r; cbn; lia. Qed.

Lemma ray_length_nonneg (maxRow maxCol : Z) (player : Player) (r : Ray) :
  inside maxRow maxCol (row player) (col player) →
  0 ≤ ray_length maxRow maxCol player r.
Proof. unfold inside. destruct r; cbn; lia. Qed.

Section Attack.
Context `{LogicHeader}.
Variables maxRow maxCol : Z.
Variable player : Player.

(** The four loops of [doMonsterAttack] are the scans of the four rays. *)
Lemma doMonsterAttack_scans (map : grid) :
  doMonsterAttack map maxRow maxCol player =
  (map ← scan_rays maxRow maxCol player all_rays map; captured map player).
Proof.
  unfold doMonsterAttack, all_rays, captured. cbn [scan_rays].
  assert (Hcd : ∀ m, for_down_break (col player - 1)
            (λ i, monster_step (row player, i) (row player, i + 1)) m =
          scan_ray maxRow maxCol player ColumnDown m).
  { intros m. unfold for_down_break, scan_ray, scan. cbn [ray_length].
    replace (col player - 1 + 1) with (col player) by lia.
    apply iter_ext. intros k s _. cbn [ray_cell]. f_equal; f_equal; lia. }
  assert (Hcu : ∀ m, for_up_break (col player + 1) maxCol
            (λ i, monster_step (row player, i) (row player, i - 1)) m =
          scan_ray maxRow maxCol player ColumnUp m).
  { intros m. unfold for_up_break, scan_ray, scan. cbn [ray_length].
    replace (maxCol - (col player + 1)) with (maxCol - 1 - col player) by lia.
    apply iter_ext. intros k s _. cbn [ray_cell]. f_equal; f_equal; lia. }
  assert (Hrd : ∀ m, for_down_break (row player - 1)
            (λ i, monster_step (i, col player) (i + 1, col player)) m =
          scan_ray maxRow maxCol player RowDown m).
  { intros m. unfold for_down_break, scan_ray, scan. cbn [ray_length].
    replace (row player - 1 + 1) with (row player) by lia.
    apply iter_ext. intros k s _. cbn [ray_cell]. f_equal; f_equal; lia. }
  assert (Hru : ∀ m, for_up_break (row player + 1) maxRow
            (λ i, monster_step (i, col player) (i - 1, col player)) m =
          scan_ray maxRow maxCol player RowUp m).
  { intros m. unfold for_up_break, scan_ray, scan. cbn [ray_length].
    replace (maxRow - (row player + 1)) with (maxRow - 1 - row player) by lia.
    apply iter_ext. intros k s _. cbn [ray_cell]. f_equal; f_equal; lia. }
  rewrite Hcd. destruct (scan_ray maxRow maxCol player ColumnDown map) as [m1| |]; cbn; try reflexivity.
  rewrite Hcu. destruct (scan_ray maxRow maxCol player ColumnUp m1) as [m2| |]; cbn; try reflexivity.
  rewrite Hrd. destruct (scan_ray maxRow maxCol player RowDown m2) as [m3| |]; cbn; try reflexivity.
  rewrite Hru. destruct (scan_ray maxRow maxCol player RowUp m3) as [m4| |]; cbn; reflexivity.
Qed.

Hypothesis player_inside : inside maxRow maxCol (row player) (col player).
Hypothesis monster_not_pillar : TILE_MONSTER ≠ TILE_PILLAR.

(** The scan of a ray returns, and did what [ray_scanned] says. *)
Lemma ray_scan (r : Ray) (m : grid) :
  shaped m maxRow maxCol →
  ∃ m', scan_ray maxRow maxCol player r m = Ret m' ∧
        ray_scanned maxRow maxCol player r m m'.
Proof.
  intros Hshape. unfold scan_ray.
  set (len := ray_length maxRow maxCol player r).
  pose proof (ray_length_nonneg maxRow maxCol player r player_inside) as Hlen.
  fold len in Hlen.
  assert (Hn : Z.of_nat (Z.to_nat len) = len) by lia.
  assert (Hinj : ∀ d e, 0 ≤ d ≤ Z.of_nat (Z.to_nat len) → 0 ≤ e ≤ Z.of_nat (Z.to_nat len) →
            ray_cell player r d = ray_cell player r e → d = e).
  { intros d e _ _. apply ray_cell_inj. }
  assert (Hin : ∀ d, 0 ≤ d ≤ Z.of_nat (Z.to_nat len) →
            inside maxRow maxCol (ray_cell player r d).1 (ray_cell player r d).2).
  { intros d Hd. apply ray_cell_inside; [exact player_inside | fold len; lia]. }
  destruct (scan_spec (ray_cell player r) (Z.to_nat len) maxRow maxCol m
              Hinj Hin Hshape monster_not_pillar) as (m' & Hscan & Hpost).
  exists m'. split; [exact Hscan|].
  assert (Hreach : ∀ d c, 0 ≤ d → peek m (ray_cell player r d) = Ret c →
            d ≤ Z.of_nat (Z.to_nat len)).
  { intros d c Hd Hc. rewrite Hn. apply ray_cell_within.
    eapply load_Ret_inside; [exact Hshape | exact Hc]. }
  assert (Hbeyond : ∀ d, Z.of_nat (Z.to_nat len) < d →
            peek m' (ray_cell player r d) = peek m (ray_cell player r d)).
  { intros d Hd. unfold peek.
    apply (scan_frame (ray_cell player r) (Z.to_nat len) maxRow maxCol m m' Hpost).
    intros e He Heq. apply pair_eq_components in Heq.
    assert (ray_cell player r d = ray_cell player r e) as Hpos
      by (destruct (ray_cell player r d), (ray_cell player r e); cbn in *; f_equal; tauto).
    apply ray_cell_inj in Hpos. lia. }
  unfold ray_scanned. cbv zeta.
  split; [exact (scan_shaped _ _ _ _ _ _ Hpost)|].
  split.
  { intros i j Hoff.
    apply (scan_frame (ray_cell player r) (Z.to_nat len) maxRow maxCol m m' Hpost).
    intros d Hd. apply Hoff. lia. }
  split; [exact (scan_zero _ _ _ _ _ _ Hpost)|].
  split.
  { intros d Hd Hm Hclear.
    apply (scan_move (ray_cell player r) (Z.to_nat len) maxRow maxCol m m' Hpost d
             monster_not_pillar); [|exact Hm | exact Hclear].
    split; [lia | eapply Hreach; [lia | exact Hm]]. }
  split.
  { intros p d Hp Hpil.
    destruct (decide (d ≤ Z.of_nat (Z.to_nat len))) as [Hle|Hgt].
    - exact (scan_block (ray_cell player r) (Z.to_nat len) maxRow maxCol m Hinj m' Hpost
               p d Hp Hle Hpil).
    - apply Hbeyond. lia. }
  split.
  { intros e He Hself Hnext.
    destruct (decide (e ≤ Z.of_nat (Z.to_nat len))) as [Hle|Hgt].
    - apply (scan_local (ray_cell player r) (Z.to_nat len) maxRow maxCol m Hinj m' Hpost);
        [lia | exact Hself | intros _; exact Hnext].
    - apply Hbeyond. lia. }
  split.
  { intros d c Hd Hm Hclear Hprev Hnext Hc.
    apply (scan_swap (ray_cell player r) (Z.to_nat len) maxRow maxCol m m' Hpost d c
             monster_not_pillar); try assumption.
    - split; [lia | eapply Hreach; [lia | exact Hm]].
    - intros _. exact Hnext. }
  intros Hmp Hop i j.
  exact (scan_no_new_player _ _ _ _ _ _ Hpost i j Hmp Hop).
Qed.

(** On a ray, the tile in front of a line of monsters in sight ends in
    the last cell of the line. *)
Lemma ray_line (r : Ray) (m m' : grid) :
  shaped m maxRow maxCol →
  scan_ray maxRow maxCol player r m = Ret m' →
  ∀ d j c, 0 ≤ j < d →
    (∀ e, 1 ≤ e ≤ j → peek m (ray_cell player r e) ≠ Ret TILE_PILLAR) →
    (∀ e, j < e ≤ d → peek m (ray_cell player r e) = Ret TILE_MONSTER) →
    j = 0 ∨ peek m (ray_cell player r j) ≠ Ret TILE_MONSTER →
    peek m (ray_cell player r (d + 1)) ≠ Ret TILE_MONSTER →
    peek m (ray_cell player r j) = Ret c →
    peek m' (ray_cell player r d) = Ret (if decide (c = TILE_PLAYER) then TILE_OPEN else c).
Proof.
  intros Hshape Hrun d j c Hj Hclear Hmons Hfront Hnext Hcj.
  pose proof (ray_length_nonneg maxRow maxCol player r player_inside) as Hlen.
  assert (Hd : d ≤ ray_length maxRow maxCol player r).
  { apply ray_cell_within.
    eapply load_Ret_inside; [exact Hshape | exact (Hmons d ltac:(lia))]. }
  unfold scan_ray in Hrun.
  apply (scan_line (ray_cell player r) (Z.to_nat (ray_length maxRow maxCol player r))
           maxRow maxCol m) with (j := j) (m' := m'); try assumption.
  - intros a b _ _. apply ray_cell_inj.
  - intros a Ha. apply ray_cell_inside; [exact player_inside | lia].
  - lia.
  - intros _. exact Hnext.
Qed.

(** Scans in a row return; rays not among them, and cells off every ray,
    are left alone, and the player's cell can only turn into a monster. *)
Lemma scan_rays_frame (rs : list Ray) (m : grid) :
  shaped m maxRow maxCol →
  ∃ m', scan_rays maxRow maxCol player rs m = Ret m' ∧
    shaped m' maxRow maxCol ∧
    (∀ r d, r ∉ rs → 1 ≤ d →
       peek m' (ray_cell player r d) = peek m (ray_cell player r d)) ∧
    (∀ i j, (∀ r d, 0 ≤ d → (i, j) ≠ ray_cell player r d) → load m' i j = load m i j) ∧
    (load m' (row player) (col player) = load m (row player) (col player) ∨
     load m' (row player) (col player) = Ret TILE_MONSTER) ∧
    (TILE_MONSTER ≠ TILE_PLAYER → TILE_OPEN ≠ TILE_PLAYER →
     ∀ i j, load m' i j = Ret TILE_PLAYER → load m i j = Ret TILE_PLAYER).
Proof.
  revert m. induction rs as [|r0 rs IH]; intros m Hshape.
  - exists m. cbn [scan_rays]. split; [reflexivity|]. split; [exact Hshape|].
    split; [reflexivity|]. split; [reflexivity|]. split; [left; reflexivity | auto].
  - destruct (ray_scan r0 m Hshape)
      as (m1 & Hm1 & Hshape1 & Hframe1 & Hzero1 & _ & _ & _ & _ & Hpl1).
    destruct (IH m1 Hshape1) as (m' & Hm' & Hshape' & Hrays & Hoff & Hzero & Hpl).
    exists m'. cbn [scan_rays]. rewrite Hm1, bind_Ret.
    split; [exact Hm'|]. split; [exact Hshape'|].
    split.
    { intros r d Hnotin Hd.
      apply not_elem_of_cons in Hnotin as [Hne Hnotin].
      rewrite (Hrays r d Hnotin Hd). unfold peek. apply Hframe1.
      intros e He Heq.
      apply (ray_cell_apart player r r0 d e Hne Hd He).
      destruct (ray_cell player r d). exact Heq. }
    split.
    { intros i j Hnone. rewrite (Hoff i j Hnone). apply Hframe1.
      intros d Hd. apply Hnone. exact Hd. }
    split.
    { rewrite ray_cell_zero in Hzero1. unfold peek in Hzero1. cbn in Hzero1.
      destruct Hzero as [->|Hz]; [exact Hzero1 | right; exact Hz]. }
    intros Hmp Hop i j Hp. apply Hpl1; try assumption. apply Hpl; assumption.
Qed.

(** Among scans in a row, the maps [ma] and [mb] before and after the scan
    of the ray [r] agree on that ray with the maps the row starts and ends
    with. *)
Lemma scan_rays_at (rs : list Ray) (r : Ray) (m m' : grid) :
  NoDup rs → r ∈ rs → shaped m maxRow maxCol →
  scan_rays maxRow maxCol player rs m = Ret m' →
  ∃ ma mb, ray_scanned maxRow maxCol player r ma mb ∧
    (∀ d, 1 ≤ d → peek ma (ray_cell player r d) = peek m (ray_cell player r d)) ∧
    (load ma (row player) (col player) = load m (row player) (col player) ∨
     load ma (row player) (col player) = Ret TILE_MONSTER) ∧
    (∀ d, 1 ≤ d → peek m' (ray_cell player r d) = peek mb (ray_cell player r d)) ∧
    (load m' (row player) (col player) = load mb (row player) (col player) ∨
     load m' (row player) (col player) = Ret TILE_MONSTER).
Proof.
  revert m. induction rs as [|r0 rs IH]; intros m Hnodup Hin Hshape Hrun.
  - apply elem_of_nil in Hin. contradiction.
  - apply NoDup_cons in Hnodup as [Hfresh Hnodup].
    destruct (ray_scan r0 m Hshape) as (m1 & Hm1 & Hscanned).
    cbn [scan_rays] in Hrun. rewrite Hm1, bind_Ret in Hrun.
    assert (Hshape1 : shaped m1 maxRow maxCol) by apply Hscanned.
    destruct (decide (r = r0)) as [->|Hne].
    + exists m, m1. split; [exact Hscanned|].
      split; [reflexivity|]. split; [left; reflexivity|].
      destruct (scan_rays_frame rs m1 Hshape1) as (m2 & Hm2 & _ & Hrays & _ & Hzero & _).
      rewrite Hm2 in Hrun. injection Hrun as ->.
      split; [intros d Hd; apply Hrays; assumption | exact Hzero].
    + apply elem_of_cons in Hin as [Heq|Hin]; [contradiction|].
      destruct (IH m1 Hnodup Hin Hshape1 Hrun) as (ma & mb & Hab & Hbefore & Hzb & Hafter & Hza).
      exists ma, mb. split; [exact Hab|].
      destruct Hscanned as (_ & Hframe1 & Hzero1 & _).
      split.
      { intros d Hd. rewrite (Hbefore d Hd). unfold peek. apply Hframe1.
        intros e He Heq.
        apply (ray_cell_apart player r r0 d e Hne Hd He).
        destruct (ray_cell player r d). exact Heq. }
      split.
      { rewrite ray_cell_zero in Hzero1. unfold peek in Hzero1. cbn in Hzero1.
        destruct Hzb as [->|Hz]; [exact Hzero1 | right; exact Hz]. }
      split; [exact Hafter | exact Hza].
Qed.

(** The player's cell is as it was when no ray scanned has a monster on
    its first cell. *)
Lemma scan_rays_keep_player_cell (rs : list Ray) (m m' : grid) :
  NoDup rs →
  (∀ r, r ∈ rs → peek m (ray_cell player r 1) ≠ Ret TILE_MONSTER) →
  shaped m maxRow maxCol →
  scan_rays maxRow maxCol player rs m = Ret m' →
  load m' (row player) (col player) = load m (row player) (col player).
Proof.
  revert m. induction rs as [|r0 rs IH]; intros m Hnodup Hnone Hshape Hrun.
  - injection Hrun as <-. reflexivity.
  - apply NoDup_cons in Hnodup as [Hfresh Hnodup].
    cbn [scan_rays] in Hrun. apply bind_inv in Hrun as (m1 & Hm1 & Hrun).
    destruct (ray_scan r0 m Hshape)
      as (m1' & Hm1' & Hshape1 & Hframe & _ & _ & _ & Hlocal & _).
    rewrite Hm1 in Hm1'. injection Hm1' as <-.
    rewrite (IH m1 Hnodup).
    + pose proof (Hlocal 0 ltac:(lia) ltac:(left; reflexivity)
                    (Hnone r0 ltac:(apply elem_of_cons; left; reflexivity))) as Hz.
      rewrite ray_cell_zero in Hz. exact Hz.
    + intros r Hr. unfold peek. rewrite Hframe.
      * apply Hnone. apply elem_of_cons. right. exact Hr.
      * intros d Hd Heq.
        apply (ray_cell_apart player r r0 1 d); [intros ->; contradiction | lia | exact Hd |].
        destruct (ray_cell player r 1). exact Heq.
    + exact Hshape1.
    + exact Hrun.
Qed.

Lemma all_rays_NoDup : NoDup all_rays.
Proof. compute_done. Qed.

Lemma all_rays_complete (r : Ray) : r ∈ all_rays.
Proof. destruct r; compute_done. Qed.

(** The scans of a call are the scans before a ray, the scan of the ray
    and the scans after it. *)
Lemma all_rays_split (r : Ray) :
  ∃ rs, all_rays = scanned_before r ++ r :: rs ∧
        (r ∉ scanned_before r) ∧ (r ∉ rs) ∧ NoDup (scanned_before r).
Proof.
  destruct r;
    [exists [ColumnUp; RowDown; RowUp] | exists [RowDown; RowUp] | exists [RowUp] | exists []];
    (split; [reflexivity|]); (split; [compute_done|]); split; compute_done.
Qed.

Lemma scan_rays_app (rs1 rs2 : list Ray) (m m' : grid) :
  scan_rays maxRow maxCol player (rs1 ++ rs2) m = Ret m' →
  ∃ ma, scan_rays maxRow maxCol player rs1 m = Ret ma ∧
        scan_rays maxRow maxCol player rs2 ma = Ret m'.
Proof.
  revert m. induction rs1 as [|r rs1 IH]; intros m Hrun.
  - exists m. split; [reflexivity | exact Hrun].
  - cbn [app scan_rays] in Hrun. apply bind_inv in Hrun as (m1 & Hm1 & Hrun).
    destruct (IH m1 Hrun) as (ma & Ha & Hb).
    exists ma. cbn [scan_rays]. rewrite Hm1, bind_Ret. split; assumption.
Qed.

(** Going toward the player from a cell, the first cell that is the
    player's or does not satisfy [P]. *)
Lemma line_start (P : Z → Prop) `{∀ e, Decision (P e)} (n : nat) :
  ∃ j, 0 ≤ j ≤ Z.of_nat n ∧ (∀ e, j < e ≤ Z.of_nat n → P e) ∧ (j = 0 ∨ ¬ P j).
Proof.
  induction n as [|n (j & Hj & Hline & Hfront)].
  - exists 0. split; [lia|]. split; [intros e He; lia | left; reflexivity].
  - destruct (decide (P (Z.of_nat (Datatypes.S n)))) as [Hp|Hp].
    + exists j. split; [lia|]. split; [|exact Hfront].
      intros e He. destruct (decide (e = Z.of_nat (Datatypes.S n))) as [->|];
        [exact Hp | apply Hline; lia].
    + exists (Z.of_nat (Datatypes.S n)). split; [lia|].
      split; [intros e He; lia | right; exact Hp].
Qed.

Section Call.
Variables map map' : grid.
Hypothesis map_shaped : shaped map maxRow maxCol.
Hypothesis scanned : scan_rays maxRow maxCol player all_rays map = Ret map'.

(** A monster with no pillar between it and the player stands one cell
    nearer once the four scans are over. *)
Lemma attack_move (r : Ray) (d : Z) :
  1 ≤ d →
  peek map (ray_cell player r d) = Ret TILE_MONSTER →
  (∀ e, 1 ≤ e < d → peek map (ray_cell player r e) ≠ Ret TILE_PILLAR) →
  peek map' (ray_cell player r (d - 1)) = Ret TILE_MONSTER.
Proof.
  intros Hd Hm Hclear.
  destruct (scan_rays_at all_rays r map map' all_rays_NoDup (all_rays_complete r)
              map_shaped scanned)
    as (ma & mb & (_ & _ & _ & Hmove & _) & Hbefore & _ & Hafter & Hzero).
  assert (Hmb : peek mb (ray_cell player r (d - 1)) = Ret TILE_MONSTER).
  { apply Hmove; [exact Hd | rewrite Hbefore by exact Hd; exact Hm |].
    intros e He. rewrite Hbefore by lia. apply Hclear. exact He. }
  destruct (decide (d = 1)) as [->|Hne].
  - replace (1 - 1) with 0 in * by lia. rewrite ray_cell_zero in *.
    unfold peek in *. cbn in *. destruct Hzero as [->|Hz]; [exact Hmb | exact Hz].
  - rewrite Hafter by lia. exact Hmb.
Qed.

(** From a pillar outward the four scans change nothing on its ray. *)
Lemma attack_block (r : Ray) (p d : Z) :
  1 ≤ p ≤ d →
  peek map (ray_cell player r p) = Ret TILE_PILLAR →
  peek map' (ray_cell player r d) = peek map (ray_cell player r d).
Proof.
  intros Hp Hpil.
  destruct (scan_rays_at all_rays r map map' all_rays_NoDup (all_rays_complete r)
              map_shaped scanned)
    as (ma & mb & (_ & _ & _ & _ & Hblock & _) & Hbefore & _ & Hafter & _).
  rewrite Hafter, <- Hbefore by lia.
  apply (Hblock p d Hp). rewrite Hbefore by lia. exact Hpil.
Qed.

(** A cell of a ray with no monster on it or right behind it is as it was. *)
Lemma attack_local (r : Ray) (e : Z) :
  1 ≤ e →
  peek map (ray_cell player r e) ≠ Ret TILE_MONSTER →
  peek map (ray_cell player r (e + 1)) ≠ Ret TILE_MONSTER →
  peek map' (ray_cell player r e) = peek map (ray_cell player r e).
Proof.
  intros He Hself Hnext.
  destruct (scan_rays_at all_rays r map map' all_rays_NoDup (all_rays_complete r)
              map_shaped scanned)
    as (ma & mb & (_ & _ & _ & _ & _ & Hlocal & _) & Hbefore & _ & Hafter & _).
  rewrite Hafter, <- Hbefore by lia.
  apply Hlocal; [lia | right; rewrite Hbefore by lia; exact Hself |].
  rewrite Hbefore by lia. exact Hnext.
Qed.

(** The cell a monster leaves for the player's cell holds [TILE_OPEN]
    afterwards, or a monster; it never takes the player marker. *)
Lemma attack_vacated (r : Ray) :
  TILE_MONSTER ≠ TILE_PLAYER →
  peek map (ray_cell player r 1) = Ret TILE_MONSTER →
  load map (row player) (col player) = Ret TILE_PLAYER →
  load map' (row player) (col player) = Ret TILE_MONSTER ∧
  (peek map' (ray_cell player r 1) = Ret TILE_OPEN ∨
   peek map' (ray_cell player r 1) = Ret TILE_MONSTER).
Proof.
  intros Hmp Hm Hpl. split.
  - pose proof (attack_move r 1 ltac:(lia) Hm ltac:(intros; lia)) as Hdest.
    replace (1 - 1) with 0 in Hdest by lia. rewrite ray_cell_zero in Hdest. exact Hdest.
  - destruct (decide (peek map (ray_cell player r 2) = Ret TILE_MONSTER)) as [Hm2|Hm2].
    + right. replace 1 with (2 - 1) by lia. apply attack_move; [lia | exact Hm2 |].
      intros e He. replace e with 1 by lia. rewrite Hm.
      intros [= Heq]. exact (monster_not_pillar Heq).
    + destruct (scan_rays_at all_rays r map map' all_rays_NoDup (all_rays_complete r)
                  map_shaped scanned)
        as (ma & mb & (_ & _ & _ & _ & _ & _ & Hswap & _) & Hbefore & Hzero & Hafter & _).
      rewrite Hafter by lia.
      assert (Hswap1 : ∀ c, load ma (row player) (col player) = Ret c →
                peek mb (ray_cell player r 1) =
                  Ret (if decide (c = TILE_PLAYER) then TILE_OPEN else c)).
      { intros c Hc. apply Hswap.
        - lia.
        - rewrite Hbefore by lia. exact Hm.
        - intros e He. lia.
        - left. reflexivity.
        - replace (1 + 1) with 2 by lia. rewrite Hbefore by lia. exact Hm2.
        - replace (1 - 1) with 0 by lia. rewrite ray_cell_zero. exact Hc. }
      destruct Hzero as [Hsame|Hmon].
      * left. rewrite (Hswap1 TILE_PLAYER) by (rewrite Hsame; exact Hpl).
        rewrite decide_True by reflexivity. reflexivity.
      * right. rewrite (Hswap1 TILE_MONSTER Hmon).
        rewrite decide_False by exact Hmp. reflexivity.
Qed.

(** The maps [ma] and [mb] of the call before and after the scan of the
    ray [r]: the ray is as at the start of the call when its scan begins
    and as at the end of the call once it is over, and the player's cell
    holds a monster when the scan begins exactly when [taken] says so. *)
Lemma attack_at (r : Ray) :
  ∃ ma mb,
    shaped ma maxRow maxCol ∧
    scan_ray maxRow maxCol player r ma = Ret mb ∧
    (∀ d, 1 ≤ d → peek ma (ray_cell player r d) = peek map (ray_cell player r d)) ∧
    (∀ d, 1 ≤ d → peek map' (ray_cell player r d) = peek mb (ray_cell player r d)) ∧
    (taken map player r → load ma (row player) (col player) = Ret TILE_MONSTER) ∧
    (¬ taken map player r →
     load ma (row player) (col player) = load map (row player) (col player)).
Proof.
  destruct (all_rays_split r) as (rs & Hall & Hbefore & Hafter & Hnodup).
  pose proof scanned as Hrun. rewrite Hall in Hrun.
  apply scan_rays_app in Hrun as (ma & Hma & Hrun).
  cbn [scan_rays] in Hrun. apply bind_inv in Hrun as (mb & Hmb & Hrest).
  destruct (scan_rays_frame (scanned_before r) map map_shaped)
    as (ma' & Hma' & Hshape_a & Hrays_a & _ & Hzero_a & _).
  rewrite Hma in Hma'. injection Hma' as <-.
  destruct (ray_scan r ma Hshape_a) as (mb' & Hmb' & Hscanned).
  rewrite Hmb in Hmb'. injection Hmb' as <-.
  assert (Hshape_b : shaped mb maxRow maxCol) by apply Hscanned.
  destruct (scan_rays_frame rs mb Hshape_b) as (m2 & Hm2 & _ & Hrays_b & _).
  rewrite Hrest in Hm2. injection Hm2 as <-.
  exists ma, mb. split; [exact Hshape_a|]. split; [exact Hmb|].
  split; [intros d Hd; apply Hrays_a; assumption|].
  split; [intros d Hd; apply Hrays_b; assumption|].
  split.
  - intros [Hon|Hex].
    + destruct Hzero_a as [->|Hz]; [exact Hon | exact Hz].
    + apply Exists_exists in Hex as (r' & Hin & Hm).
      destruct (scan_rays_at (scanned_before r) r' map ma Hnodup Hin map_shaped Hma)
        as (mc & md & (_ & _ & _ & Hmove & _) & Hbef & _ & _ & Hzero).
      assert (Hmd : peek md (ray_cell player r' (1 - 1)) = Ret TILE_MONSTER).
      { apply Hmove; [lia | rewrite Hbef by lia; exact Hm | intros e He; lia]. }
      replace (1 - 1) with 0 in Hmd by lia. rewrite ray_cell_zero in Hmd.
      unfold peek in Hmd. cbn in Hmd.
      destruct Hzero as [->|Hz]; [exact Hmd | exact Hz].
  - intros Hfree.
    apply (scan_rays_keep_player_cell (scanned_before r) map ma Hnodup);
      [| exact map_shaped | exact Hma].
    intros r' Hin Hm. apply Hfree. right. apply Exists_exists. eauto.
Qed.

(** Over the call, the tile in front of a line of monsters in sight ends
    in the last cell of the line, [TILE_OPEN] in place of the player
    marker: every monster of the line has moved one cell.  The tile in
    front is a cell of the ray, or the player's cell when no monster has
    taken it before the ray is scanned. *)
Lemma attack_line (r : Ray) (d j : Z) (c : ascii) :
  0 ≤ j < d →
  (∀ e, 1 ≤ e ≤ j → peek map (ray_cell player r e) ≠ Ret TILE_PILLAR) →
  (∀ e, j < e ≤ d → peek map (ray_cell player r e) = Ret TILE_MONSTER) →
  peek map (ray_cell player r (d + 1)) ≠ Ret TILE_MONSTER →
  peek map (ray_cell player r j) = Ret c → c ≠ TILE_MONSTER →
  (j = 0 → ¬ taken map player r) →
  peek map' (ray_cell player r d) = Ret (if decide (c = TILE_PLAYER) then TILE_OPEN else c).
Proof.
  intros Hj Hclear Hmons Hnext Hcj Hcm Hfree.
  destruct (attack_at r) as (ma & mb & Hshape_a & Hmb & Hbef & Haft & _ & Hkeep).
  rewrite Haft by lia.
  assert (Hcj' : peek ma (ray_cell player r j) = Ret c).
  { destruct (decide (j = 0)) as [->|Hj0].
    - rewrite ray_cell_zero in *. unfold peek in *. cbn [fst snd] in *.
      rewrite (Hkeep (Hfree eq_refl)). exact Hcj.
    - rewrite Hbef by lia. exact Hcj. }
  apply (ray_line r ma mb Hshape_a Hmb d j c); try assumption.
  - intros e He. rewrite Hbef by lia. apply Hclear. exact He.
  - intros e He. rewrite Hbef by lia. apply Hmons. exact He.
  - destruct (decide (j = 0)) as [->|Hj0]; [left; reflexivity | right].
    rewrite Hcj'. intros [= Heq]. exact (Hcm Heq).
  - rewrite Hbef by lia. exact Hnext.
Qed.

(** A line of monsters that starts next to the player's cell stays where
    it is when a monster has taken that cell before the ray is scanned:
    each of them swaps with a monster. *)
Lemma attack_jam (r : Ray) (d : Z) :
  TILE_MONSTER ≠ TILE_PLAYER →
  1 ≤ d →
  (∀ e, 1 ≤ e ≤ d → peek map (ray_cell player r e) = Ret TILE_MONSTER) →
  taken map player r →
  peek map' (ray_cell player r d) = Ret TILE_MONSTER.
Proof.
  intros Hmp Hd Hmons Htaken.
  destruct (decide (peek map (ray_cell player r (d + 1)) = Ret TILE_MONSTER)) as [Hm|Hm].
  - pose proof (attack_move r (d + 1) ltac:(lia) Hm) as Hdest.
    replace (d + 1 - 1) with d in Hdest by lia. apply Hdest.
    intros e He. rewrite Hmons by lia. intros [= Heq]. exact (monster_not_pillar Heq).
  - destruct (attack_at r) as (ma & mb & Hshape_a & Hmb & Hbef & Haft & Htk & _).
    rewrite Haft by lia.
    rewrite (ray_line r ma mb Hshape_a Hmb d 0 TILE_MONSTER).
    + rewrite decide_False by exact Hmp. reflexivity.
    + lia.
    + intros e He. lia.
    + intros e He. rewrite Hbef by lia. apply Hmons. lia.
    + left. reflexivity.
    + rewrite Hbef by lia. exact Hm.
    + rewrite ray_cell_zero. exact (Htk Htaken).
Qed.

(** Where the monsters of a ray stand after the call: a cell in sight
    holds a monster exactly when the next cell outward held one, or when
    it is part of a line that a monster on the player's cell kept in
    place. *)
Lemma attack_monsters (r : Ray) (d : Z) :
  TILE_OPEN ≠ TILE_MONSTER → TILE_MONSTER ≠ TILE_PLAYER →
  1 ≤ d →
  (∀ e, 1 ≤ e ≤ d → peek map (ray_cell player r e) ≠ Ret TILE_PILLAR) →
  peek map' (ray_cell player r d) = Ret TILE_MONSTER ↔
  peek map (ray_cell player r (d + 1)) = Ret TILE_MONSTER ∨
  ((∀ e, 1 ≤ e ≤ d → peek map (ray_cell player r e) = Ret TILE_MONSTER) ∧
   taken map player r).
Proof.
  intros Hom Hmp Hd Hclear. split.
  - intros Hafter.
    destruct (decide (peek map (ray_cell player r (d + 1)) = Ret TILE_MONSTER))
      as [|Hnext]; [left; assumption|].
    right.
    destruct (decide (peek map (ray_cell player r d) = Ret TILE_MONSTER)) as [Hhere|Hhere].
    2: { rewrite (attack_local r d Hd Hhere Hnext) in Hafter. contradiction. }
    destruct (line_start (λ e, peek map (ray_cell player r e) = Ret TILE_MONSTER) (Z.to_nat d))
      as (j & Hj & Hmons & Hfront).
    rewrite Z2Nat.id in Hj, Hmons by lia.
    assert (Hjd : j < d).
    { destruct Hfront as [->|Hn]; [lia|].
      destruct (decide (j = d)) as [->|]; [contradiction | lia]. }
    assert (Hcell : ∃ c, peek map (ray_cell player r j) = Ret c).
    { apply (load_inside map maxRow maxCol _ _ map_shaped).
      apply ray_cell_inside; [exact player_inside|]. split; [lia|].
      transitivity d; [lia|]. apply ray_cell_within.
      eapply load_Ret_inside; [exact map_shaped | exact Hhere]. }
    destruct Hcell as [c Hc].
    destruct (decide (j = 0 ∧ taken map player r)) as [[-> Htk]|Hno].
    { split; [intros e He; apply Hmons; lia | exact Htk]. }
    exfalso.
    assert (Hcm : c ≠ TILE_MONSTER).
    { intros ->. destruct Hfront as [->|Hn]; [|contradiction].
      apply Hno. split; [reflexivity|]. left. rewrite ray_cell_zero in Hc. exact Hc. }
    pose proof (attack_line r d j c ltac:(lia) ltac:(intros e He; apply Hclear; lia)
                  Hmons Hnext Hc Hcm ltac:(tauto)) as Hleft.
    rewrite Hleft in Hafter. revert Hafter.
    case_decide; intros [= Heq]; congruence.
  - intros [Hnext|[Hmons Htk]].
    + pose proof (attack_move r (d + 1) ltac:(lia) Hnext) as Hdest.
      replace (d + 1 - 1) with d in Hdest by lia. apply Hdest.
      intros e He. apply Hclear. lia.
    + apply attack_jam; assumption.
Qed.

End Call.

(** [doMonsterAttack] returns the map of the four scans and tells whether
    a monster stands on the player's cell. *)
Lemma attack_returns (map : grid) :
  shaped map maxRow maxCol →
  ∃ map' b,
    doMonsterAttack map maxRow maxCol player = Ret (map', b) ∧
    scan_rays maxRow maxCol player all_rays map = Ret map' ∧
    shaped map' maxRow maxCol ∧
    (b = true ↔ load map' (row player) (col player) = Ret TILE_MONSTER).
Proof.
  intros Hshape.
  destruct (scan_rays_frame all_rays map Hshape) as (map' & Hrun & Hshape' & _).
  destruct (load_inside map' maxRow maxCol _ _ Hshape' player_inside) as [c Hc].
  rewrite doMonsterAttack_scans, Hrun, bind_Ret. unfold captured. rewrite Hc, bind_Ret.
  destruct (decide (c = TILE_MONSTER)) as [->|Hne].
  - exists map', true. split; [reflexivity|]. split; [reflexivity|].
    split; [exact Hshape'|]. split; auto.
  - exists map', false. split; [reflexivity|]. split; [reflexivity|].
    split; [exact Hshape'|]. split; [discriminate | congruence].
Qed.

End Attack.

(** ** [doMonsterAttack]: the statements *)

Section MonsterClaims.
Context `{LogicHeader}.

(** C8, as amended.  In [doMonsterAttack], on each of the four rays,
    nothing changes from the first pillar outward, so a monster beyond a
    pillar stays where it is; a monster with no pillar between it and the
    player stands one cell nearer to the player after the call.  The step
    is a single one.  A cell of the ray with no monster on it or right
    behind it is as it was.  A line of monsters in sight, the cells [j + 1]
    to [d] with no monster behind them, moves as a whole: its last cell
    [d] takes the tile that stood in front of the line, [TILE_OPEN] in
    place of the player marker, where the cell in front is a cell [j] of
    the ray that held no monster, or the player's cell as long as no
    monster has taken it.  The exception is the line that starts next to
    the player's cell when a monster stands on that cell as the scan of
    the ray begins, from before the call or from a ray scanned earlier in
    it: these monsters swap with a monster and are found in their cells
    after the call. *)
Theorem pillar_blocks_and_sighted_monster_steps
    (map : grid) (maxRow maxCol : Z) (player : Player) :
  shaped map maxRow maxCol →
  inside maxRow maxCol (row player) (col player) →
  TILE_MONSTER ≠ TILE_PILLAR →
  ∃ map' b,
    doMonsterAttack map maxRow maxCol player = Ret (map', b) ∧
    (∀ r p d, 1 ≤ p ≤ d →
       peek map (ray_cell player r p) = Ret TILE_PILLAR →
       peek map' (ray_cell player r d) = peek map (ray_cell player r d)) ∧
    (∀ r d, 1 ≤ d →
       peek map (ray_cell player r d) = Ret TILE_MONSTER →
       (∀ e, 1 ≤ e < d → peek map (ray_cell player r e) ≠ Ret TILE_PILLAR) →
       peek map' (ray_cell player r (d - 1)) = Ret TILE_MONSTER) ∧
    (∀ r e, 1 ≤ e →
       peek map (ray_cell player r e) ≠ Ret TILE_MONSTER →
       peek map (ray_cell player r (e + 1)) ≠ Ret TILE_MONSTER →
       peek map' (ray_cell player r e) = peek map (ray_cell player r e)) ∧
    (∀ r d j c, 0 ≤ j < d →
       (∀ e, 1 ≤ e ≤ j → peek map (ray_cell player r e) ≠ Ret TILE_PILLAR) →
       (∀ e, j < e ≤ d → peek map (ray_cell player r e) = Ret TILE_MONSTER) →
       peek map (ray_cell player r (d + 1)) ≠ Ret TILE_MONSTER →
       peek map (ray_cell player r j) = Ret c → c ≠ TILE_MONSTER →
       (j = 0 → ¬ taken map player r) →
       peek map' (ray_cell player r d) =
         Ret (if decide (c = TILE_PLAYER) then TILE_OPEN else c)) ∧
    (TILE_MONSTER ≠ TILE_PLAYER →
     ∀ r d, 1 ≤ d →
       (∀ e, 1 ≤ e ≤ d → peek map (ray_cell player r e) = Ret TILE_MONSTER) →
       taken map player r →
       peek map' (ray_cell player r d) = Ret TILE_MONSTER).
Proof.
  intros Hshape Hin Hne.
  destruct (attack_returns maxRow maxCol player Hin Hne map Hshape)
    as (map' & b & Hrun & Hscans & _ & _).
  exists map', b. split; [exact Hrun|].
  split; [intros r p d; apply (attack_block maxRow maxCol player Hin Hne map map' Hshape Hscans)|].
  split; [intros r d; apply (attack_move maxRow maxCol player Hin Hne map map' Hshape Hscans)|].
  split; [intros r e; apply (attack_local maxRow maxCol player Hin Hne map map' Hshape Hscans)|].
  split; [intros r d j c;
          apply (attack_line maxRow maxCol player Hin Hne map map' Hshape Hscans)|].
  intros Hmp r d.
  apply (attack_jam maxRow maxCol player Hin Hne map map' Hshape Hscans r d Hmp).
Qed.

(** C1, as amended.  In [doMonsterAttack] a ray relocates every monster the
    scan meets before the first pillar, not the nearest one alone: the scan
    goes on past a moved monster, and of two monsters on one ray with no
    pillar in front of the farther one, both stand one cell nearer to the
    player after the call.  The monsters are moved, not copied: with the
    monster, the open and the player characters different, a cell in sight
    holds a monster after the call exactly when the next cell outward held
    one before it, so the cell the last monster of a line stood on holds
    none.  The exception is the line that starts next to the player's cell
    when a monster stands on that cell as the scan of the ray begins:
    these monsters swap with a monster and are found in their cells. *)
Theorem every_sighted_monster_steps
    (map : grid) (maxRow maxCol : Z) (player : Player) :
  shaped map maxRow maxCol →
  inside maxRow maxCol (row player) (col player) →
  TILE_MONSTER ≠ TILE_PILLAR →
  ∃ map' b,
    doMonsterAttack map maxRow maxCol player = Ret (map', b) ∧
    (∀ r d1 d2, 1 ≤ d1 < d2 →
      peek map (ray_cell player r d1) = Ret TILE_MONSTER →
      peek map (ray_cell player r d2) = Ret TILE_MONSTER →
      (∀ e, 1 ≤ e < d2 → peek map (ray_cell player r e) ≠ Ret TILE_PILLAR) →
      peek map' (ray_cell player r (d1 - 1)) = Ret TILE_MONSTER ∧
      peek map' (ray_cell player r (d2 - 1)) = Ret TILE_MONSTER) ∧
    (TILE_OPEN ≠ TILE_MONSTER → TILE_MONSTER ≠ TILE_PLAYER →
     ∀ r d, 1 ≤ d →
       (∀ e, 1 ≤ e ≤ d → peek map (ray_cell player r e) ≠ Ret TILE_PILLAR) →
       (peek map' (ray_cell player r d) = Ret TILE_MONSTER ↔
        peek map (ray_cell player r (d + 1)) = Ret TILE_MONSTER ∨
        ((∀ e, 1 ≤ e ≤ d → peek map (ray_cell player r e) = Ret TILE_MONSTER) ∧
         taken map player r))).
Proof.
  intros Hshape Hin Hne.
  destruct (attack_returns maxRow maxCol player Hin Hne map Hshape)
    as (map' & b & Hrun & Hscans & _ & _).
  exists map', b. split; [exact Hrun|]. split.
  - intros r d1 d2 Hd Hm1 Hm2 Hclear. split.
    + apply (attack_move maxRow maxCol player Hin Hne map map' Hshape Hscans);
        [lia | exact Hm1 |].
      intros e He. apply Hclear. lia.
    + apply (attack_move maxRow maxCol player Hin Hne map map' Hshape Hscans);
        [lia | exact Hm2 | exact Hclear].
  - intros Hom Hmp r d.
    apply (attack_monsters maxRow maxCol player Hin Hne map map' Hshape Hscans r d Hom Hmp).
Qed.

(** C9.  [doMonsterAttack] returns the map the four scans leave, and
    returns true exactly when the player's cell of that map holds a
    monster.  A monster that steps from [here] onto a cell holding the
    player marker leaves [TILE_OPEN] behind, not the marker; over the whole
    call no cell gains the player marker, and the cell next to the player
    that a monster left holds [TILE_OPEN], or a monster again. *)
Theorem capture_is_reported
    (map : grid) (maxRow maxCol : Z) (player : Player) :
  shaped map maxRow maxCol →
  inside maxRow maxCol (row player) (col player) →
  TILE_MONSTER ≠ TILE_PILLAR →
  ∃ map' b,
    doMonsterAttack map maxRow maxCol player = Ret (map', b) ∧
    scan_rays maxRow maxCol player all_rays map = Ret map' ∧
    (b = true ↔ load map' (row player) (col player) = Ret TILE_MONSTER) ∧
    (∀ (m : grid) (here toward : Z * Z),
       peek m here = Ret TILE_MONSTER → peek m toward = Ret TILE_PLAYER →
       ∃ m', monster_step here toward m = Ret (Next m') ∧
             peek m' here = Ret TILE_OPEN ∧
             (here ≠ toward → peek m' toward = Ret TILE_MONSTER) ∧
             (∀ i j, (i, j) ≠ here → (i, j) ≠ toward → load m' i j = load m i j)) ∧
    (TILE_MONSTER ≠ TILE_PLAYER → TILE_OPEN ≠ TILE_PLAYER →
     ∀ i j, load map' i j = Ret TILE_PLAYER → load map i j = Ret TILE_PLAYER) ∧
    (TILE_MONSTER ≠ TILE_PLAYER →
     load map (row player) (col player) = Ret TILE_PLAYER →
     ∀ r, peek map (ray_cell player r 1) = Ret TILE_MONSTER →
          load map' (row player) (col player) = Ret TILE_MONSTER ∧
          (peek map' (ray_cell player r 1) = Ret TILE_OPEN ∨
           peek map' (ray_cell player r 1) = Ret TILE_MONSTER)).
Proof.
  intros Hshape Hin Hne.
  destruct (attack_returns maxRow maxCol player Hin Hne map Hshape)
    as (map' & b & Hrun & Hscans & _ & Hflag).
  exists map', b. split; [exact Hrun|]. split; [exact Hscans|]. split; [exact Hflag|].
  split.
  { intros m here toward Hm Hp.
    destruct (monster_step_monster here toward m TILE_PLAYER Hm Hne Hp)
      as (m1 & m2 & Hm1 & Hm2 & Hstep).
    rewrite decide_True in Hm2 by reflexivity.
    exists m2. split; [exact Hstep|].
    split; [exact (load_store_eq _ _ _ _ _ Hm2)|].
    split.
    - intros Hdiff. unfold peek. rewrite (load_store_ne _ _ _ _ _ _ _ Hm2).
      + exact (load_store_eq _ _ _ _ _ Hm1).
      + intros Heq. apply Hdiff. symmetry. destruct toward. apply pair_eq_components. exact Heq.
    - intros i j Hh Ht.
      rewrite (load_store_ne _ _ _ _ _ _ _ Hm2), (load_store_ne _ _ _ _ _ _ _ Hm1);
        [reflexivity | |]; intros Heq; apply pair_eq_components in Heq; contradiction. }
  split.
  { destruct (scan_rays_frame maxRow maxCol player Hin Hne all_rays map Hshape)
      as (m2 & Hm2 & _ & _ & _ & _ & Hpl).
    rewrite Hm2 in Hscans. injection Hscans as ->. exact Hpl. }
  intros Hmp Hpl r Hm.
  exact (attack_vacated maxRow maxCol player Hin Hne map map' Hshape Hscans r Hmp Hm Hpl).
Qed.

End MonsterClaims.

(** ** [doMonsterAttack]: instances on the reference characters *)

(** C1: the claim as stated fails.  On the one-row map [M M - o] with the
    player in the last column no pillar stands on the ray, the nearest
    monster is the one in column 1, and the call moves the monster of
    column 0 as well: the row becomes [- M M o]. *)
Lemma farther_monster_is_relocated_too :
  ¬ (∀ (map map' : grid) (maxRow maxCol : Z) (player : Player) (b : bool)
       (r : Ray) (d1 d2 : Z),
       doMonsterAttack map maxRow maxCol player = Ret (map', b) →
       1 ≤ d1 < d2 →
       peek map (ray_cell player r d1) = Ret TILE_MONSTER →
       peek map (ray_cell player r d2) = Ret TILE_MONSTER →
       (∀ e, 1 ≤ e ≤ d2 → peek map (ray_cell player r e) ≠ Ret TILE_PILLAR) →
       peek map' (ray_cell player r d2) = Ret TILE_MONSTER).
Proof.
  intros Hclaim.
  specialize (Hclaim [["M"; "M"; "-"; "o"]]%char [["-"; "M"; "M"; "o"]]%char
                1 4 (mkPlayer 0 3 0) false ColumnDown 2 3 eq_refl ltac:(lia) eq_refl eq_refl).
  assert (Hclear : ∀ e, 1 ≤ e ≤ 3 →
            peek [["M"; "M"; "-"; "o"]]%char (ray_cell (mkPlayer 0 3 0) ColumnDown e)
              ≠ Ret TILE_PILLAR).
  { intros e He. assert (e = 1 ∨ e = 2 ∨ e = 3) as [->|[->| ->]] by lia; discriminate. }
  specialize (Hclaim Hclear). discriminate Hclaim.
Qed.

(** C1, as amended, on the row [M M - o]: both monsters end one cell
    nearer, and the cell the farther one stood on holds no monster. *)
Lemma every_sighted_monster_steps_witness :
  let map := [["M"; "M"; "-"; "o"]]%char in
  let player := mkPlayer 0 3 0 in
  shaped map 1 4 ∧ inside 1 4 (row player) (col player) ∧
  TILE_MONSTER ≠ TILE_PILLAR ∧
  ∃ map' b,
    doMonsterAttack map 1 4 player = Ret (map', b) ∧
    peek map' (0, 2) = Ret TILE_MONSTER ∧ peek map' (0, 1) = Ret TILE_MONSTER ∧
    peek map' (0, 0) ≠ Ret TILE_MONSTER.
Proof.
  cbv zeta.
  assert (Hs : shaped [["M"; "M"; "-"; "o"]]%char 1 4) by (vm_compute; auto).
  assert (Hi : inside 1 4 (row (mkPlayer 0 3 0)) (col (mkPlayer 0 3 0))) by (cbn; unfold inside; lia).
  assert (Hne : TILE_MONSTER ≠ TILE_PILLAR) by discriminate.
  split; [exact Hs|]. split; [exact Hi|]. split; [exact Hne|].
  destruct (every_sighted_monster_steps _ 1 4 (mkPlayer 0 3 0) Hs Hi Hne)
    as (map' & b & Hrun & Hboth & Hexact).
  exists map', b. split; [exact Hrun|].
  assert (Hclear : ∀ e, 1 ≤ e ≤ 3 →
            peek [["M"; "M"; "-"; "o"]]%char (ray_cell (mkPlayer 0 3 0) ColumnDown e)
              ≠ Ret TILE_PILLAR).
  { intros e He. assert (e = 1 ∨ e = 2 ∨ e = 3) as [->|[->| ->]] by lia; discriminate. }
  destruct (Hboth ColumnDown 2 3) as [Hnear Hfar]; [lia | reflexivity | reflexivity | |].
  { intros e He. apply Hclear. lia. }
  split; [exact Hnear|]. split; [exact Hfar|].
  intros Hstill.
  apply (Hexact ltac:(discriminate) ltac:(discriminate) ColumnDown 3 ltac:(lia) Hclear)
    in Hstill as [Hbehind|[Hline _]].
  - discriminate Hbehind.
  - discriminate (Hline 1 ltac:(lia)).
Defined.

(** C8: the claim as stated fails.  On the one-row map [M o M] both
    monsters stand next to the player with a clear line of sight.  The
    scan toward column 0 comes first and puts the left monster on the
    player's cell; the monster on the right then swaps with that monster,
    and the call returns [- M M]: the right monster's cell holds a monster
    as before, so this monster has not moved one step. *)
Lemma adjacent_monster_stays_after_capture :
  ¬ (∀ (map map' : grid) (maxRow maxCol : Z) (player : Player) (b : bool)
       (r : Ray) (d : Z),
       doMonsterAttack map maxRow maxCol player = Ret (map', b) →
       1 ≤ d →
       peek map (ray_cell player r d) = Ret TILE_MONSTER →
       (∀ e, 1 ≤ e < d → peek map (ray_cell player r e) ≠ Ret TILE_PILLAR) →
       peek map (ray_cell player r (d + 1)) ≠ Ret TILE_MONSTER →
       peek map' (ray_cell player r (d - 1)) = Ret TILE_MONSTER ∧
       peek map' (ray_cell player r d) ≠ Ret TILE_MONSTER).
Proof.
  intros Hclaim.
  destruct (Hclaim [["M"; "o"; "M"]]%char [["-"; "M"; "M"]]%char
              1 3 (mkPlayer 0 1 0) true ColumnUp 1 eq_refl ltac:(lia) eq_refl
              ltac:(intros e He; lia) ltac:(discriminate)) as [_ Hleft].
  apply Hleft. reflexivity.
Qed.

(** C8, as amended, on the row [M # M - o - M]: the monster behind the
    pillar stays, the two monsters in sight step once, and the one on the
    left leaves an open cell behind; and on the row [M o M]: the monster on
    the right, next to a player's cell the left monster has taken, is
    found in its cell. *)
Lemma pillar_blocks_and_sighted_monster_steps_witness :
  let map := [["M"; "#"; "M"; "-"; "o"; "-"; "M"]]%char in
  let player := mkPlayer 0 4 0 in
  shaped map 1 7 ∧ inside 1 7 (row player) (col player) ∧
  TILE_MONSTER ≠ TILE_PILLAR ∧
  (∃ map' b,
     doMonsterAttack map 1 7 player = Ret (map', b) ∧
     peek map' (0, 0) = Ret TILE_MONSTER ∧ peek map' (0, 1) = Ret TILE_PILLAR ∧
     peek map' (0, 3) = Ret TILE_MONSTER ∧ peek map' (0, 2) = Ret TILE_OPEN ∧
     peek map' (0, 5) = Ret TILE_MONSTER ∧ peek map' (0, 6) = Ret TILE_OPEN) ∧
  (∃ map' b,
     doMonsterAttack [["M"; "o"; "M"]]%char 1 3 (mkPlayer 0 1 0) = Ret (map', b) ∧
     peek map' (0, 0) = Ret TILE_OPEN ∧ peek map' (0, 1) = Ret TILE_MONSTER ∧
     peek map' (0, 2) = Ret TILE_MONSTER).
Proof.
  cbv zeta.
  assert (Hs : shaped [["M"; "#"; "M"; "-"; "o"; "-"; "M"]]%char 1 7) by (vm_compute; auto).
  assert (Hi : inside 1 7 (row (mkPlayer 0 4 0)) (col (mkPlayer 0 4 0))) by (cbn; unfold inside; lia).
  assert (Hne : TILE_MONSTER ≠ TILE_PILLAR) by discriminate.
  split; [exact Hs|]. split; [exact Hi|]. split; [exact Hne|].
  split.
  - destruct (pillar_blocks_and_sighted_monster_steps _ 1 7 (mkPlayer 0 4 0) Hs Hi Hne)
      as (map' & b & Hrun & Hblock & Hmove & Hlocal & Hline & Hjam).
    exists map', b. split; [exact Hrun|].
    split; [exact (Hblock ColumnDown 3 4 ltac:(lia) eq_refl)|].
    split; [exact (Hblock ColumnDown 3 3 ltac:(lia) eq_refl)|].
    split.
    { apply (Hmove ColumnDown 2); [lia | reflexivity |].
      intros e He. replace e with 1 by lia. discriminate. }
    split.
    { apply (Hline ColumnDown 2 1 "-"%char);
        [lia | | | discriminate | reflexivity | discriminate | lia].
      - intros e He. replace e with 1 by lia. discriminate.
      - intros e He. replace e with 2 by lia. reflexivity. }
    split.
    { apply (Hmove ColumnUp 2); [lia | reflexivity |].
      intros e He. replace e with 1 by lia. discriminate. }
    apply (Hline ColumnUp 2 1 "-"%char);
      [lia | | | discriminate | reflexivity | discriminate | lia].
    + intros e He. replace e with 1 by lia. discriminate.
    + intros e He. replace e with 2 by lia. reflexivity.
  - assert (Hs3 : shaped [["M"; "o"; "M"]]%char 1 3) by (vm_compute; auto).
    assert (Hi3 : inside 1 3 (row (mkPlayer 0 1 0)) (col (mkPlayer 0 1 0)))
      by (cbn; unfold inside; lia).
    destruct (pillar_blocks_and_sighted_monster_steps _ 1 3 (mkPlayer 0 1 0) Hs3 Hi3 Hne)
      as (map' & b & Hrun & Hblock & Hmove & Hlocal & Hline & Hjam).
    exists map', b. split; [exact Hrun|].
    split.
    { apply (Hline ColumnDown 1 0 "o"%char);
        [lia | | | discriminate | reflexivity | discriminate |].
      - intros e He. lia.
      - intros e He. replace e with 1 by lia. reflexivity.
      - intros _ [Hon|Hex]; [discriminate Hon | inversion Hex]. }
    split.
    { apply (Hmove ColumnDown 1); [lia | reflexivity |]. intros e He. lia. }
    apply (Hjam ltac:(discriminate) ColumnUp 1); [lia | |].
    + intros e He. replace e with 1 by lia. reflexivity.
    + right. apply Exists_cons_hd. reflexivity.
Defined.

(** C9 on the row [M o]: the monster takes the player's cell, the call
    returns true, and the cell it left is open. *)
Lemma capture_is_reported_witness :
  let map := [["M"; "o"]]%char in
  let player := mkPlayer 0 1 0 in
  shaped map 1 2 ∧ inside 1 2 (row player) (col player) ∧
  TILE_MONSTER ≠ TILE_PILLAR ∧
  ∃ map',
    doMonsterAttack map 1 2 player = Ret (map', true) ∧
    peek map' (0, 1) = Ret TILE_MONSTER ∧
    (peek map' (0, 0) = Ret TILE_OPEN ∨ peek map' (0, 0) = Ret TILE_MONSTER).
Proof.
  cbv zeta.
  assert (Hs : shaped [["M"; "o"]]%char 1 2) by (vm_compute; auto).
  assert (Hi : inside 1 2 (row (mkPlayer 0 1 0)) (col (mkPlayer 0 1 0))) by (cbn; unfold inside; lia).
  assert (Hne : TILE_MONSTER ≠ TILE_PILLAR) by discriminate.
  split; [exact Hs|]. split; [exact Hi|]. split; [exact Hne|].
  destruct (capture_is_reported _ 1 2 (mkPlayer 0 1 0) Hs Hi Hne)
    as (map' & b & Hrun & _ & Hflag & _ & _ & Hvac).
  destruct (Hvac ltac:(discriminate) eq_refl ColumnDown eq_refl) as [Hcell Hleft].
  exists map'. apply Hflag in Hcell as Hb. rewrite Hb in Hrun.
  split; [exact Hrun|]. split; [exact Hcell | exact Hleft].
Defined.

(** ** [doPlayerMove] *)

Section MoveClaims.
Context `{LogicHeader}.

(** The two writes of a relocation, cell by cell. *)
Lemma relocate_spec (map : grid) (player : Player) (nextRow nextCol t : Z)
    (status : Status) (c0 c1 : ascii) :
  load map (row player) (col player) = Ret c0 →
  load map nextRow nextCol = Ret c1 →
  ∃ map',
    relocate map player nextRow nextCol t status =
      Ret (map', mkPlayer nextRow nextCol t, status) ∧
    ∀ i j, load map' i j =
      if decide (i = nextRow ∧ j = nextCol) then Ret TILE_PLAYER
      else if decide (i = row player ∧ j = col player) then Ret TILE_OPEN
      else load map i j.
Proof.
  intros Hhere Hnext. unfold relocate.
  destruct (store_loaded map _ _ c0 TILE_OPEN Hhere) as [m1 Hm1].
  assert (∃ c, load m1 nextRow nextCol = Ret c) as [c Hc].
  { rewrite (load_store _ _ _ _ _ _ _ Hm1). case_decide; eauto. }
  destruct (store_loaded m1 _ _ c TILE_PLAYER Hc) as [m2 Hm2].
  exists m2. rewrite Hm1, bind_Ret, Hm2, bind_Ret. split; [reflexivity|].
  intros i j. rewrite (load_store _ _ _ _ _ _ _ Hm2), (load_store _ _ _ _ _ _ _ Hm1).
  reflexivity.
Qed.

(** After a relocation the marker is on the new cell and nowhere else. *)
Lemma relocate_sole_player (map map' : grid) (player : Player) (nextRow nextCol : Z) :
  TILE_OPEN ≠ TILE_PLAYER →
  sole_player map (row player) (col player) →
  (∀ i j, load map' i j =
     if decide (i = nextRow ∧ j = nextCol) then Ret TILE_PLAYER
     else if decide (i = row player ∧ j = col player) then Ret TILE_OPEN
     else load map i j) →
  sole_player map' nextRow nextCol.
Proof.
  intros Hop Hsole Hload i j. rewrite Hload.
  destruct (decide (i = nextRow ∧ j = nextCol)) as [Hn|Hn]; [tauto|].
  destruct (decide (i = row player ∧ j = col player)) as [Hp|Hp].
  - split; [intros [= Heq]; contradiction | tauto].
  - split; [intros Hl; apply Hsole in Hl; contradiction | tauto].
Qed.

(** C6.  When the candidate cell is outside [0, maxRow) x [0, maxCol), or
    inside and holding a pillar or a monster, [doPlayerMove] returns
    [STATUS_STAY] and hands back the very map and player it was given:
    every cell, the player's row and column and the treasure count are
    unchanged. *)
Theorem blocked_move_stays
    (map : grid) (maxRow maxCol : Z) (player : Player) (nextRow nextCol : Z) :
  ¬ inside maxRow maxCol nextRow nextCol ∨
  (inside maxRow maxCol nextRow nextCol ∧
   (load map nextRow nextCol = Ret TILE_PILLAR ∨
    load map nextRow nextCol = Ret TILE_MONSTER)) →
  doPlayerMove map maxRow maxCol player nextRow nextCol = Ret (map, player, STATUS_STAY).
Proof.
  unfold inside, doPlayerMove. intros [Hout|[Hin Hcell]].
  - destruct (decide (nextRow < 0 ∨ nextRow >= maxRow)); [reflexivity|].
    rewrite decide_True by lia. reflexivity.
  - rewrite !decide_False by lia.
    destruct Hcell as [-> | ->]; rewrite bind_Ret, decide_True by auto; reflexivity.
Qed.

(** C7.  For a candidate cell inside the grid that holds the exit: with a
    treasure count of 0 [doPlayerMove] returns [STATUS_STAY] and the map and
    player it was given; with a count of at least 1 it returns
    [STATUS_ESCAPE], the player stands on the candidate cell with the same
    count, that cell holds the player marker, the cell the player left
    holds [TILE_OPEN], and every other cell is as before. *)
Theorem exit_needs_treasure
    (map : grid) (maxRow maxCol : Z) (player : Player) (nextRow nextCol : Z) :
  shaped map maxRow maxCol →
  inside maxRow maxCol (row player) (col player) →
  inside maxRow maxCol nextRow nextCol →
  load map nextRow nextCol = Ret TILE_EXIT →
  TILE_EXIT ≠ TILE_PILLAR → TILE_EXIT ≠ TILE_MONSTER → TILE_EXIT ≠ TILE_TREASURE →
  TILE_EXIT ≠ TILE_AMULET → TILE_EXIT ≠ TILE_DOOR →
  (treasure player = 0 →
   doPlayerMove map maxRow maxCol player nextRow nextCol = Ret (map, player, STATUS_STAY)) ∧
  (1 ≤ treasure player →
   ∃ map',
     doPlayerMove map maxRow maxCol player nextRow nextCol =
       Ret (map', mkPlayer nextRow nextCol (treasure player), STATUS_ESCAPE) ∧
     load map' nextRow nextCol = Ret TILE_PLAYER ∧
     ((row player, col player) ≠ (nextRow, nextCol) →
      load map' (row player) (col player) = Ret TILE_OPEN) ∧
     (∀ i j, (i, j) ≠ (row player, col player) → (i, j) ≠ (nextRow, nextCol) →
             load map' i j = load map i j)).
Proof.
  intros Hshape Hplayer Hin Hexit Hp Hm Ht Ha Hd.
  assert (Hhead : ∀ k : ascii → exec (grid * Player * Status),
            (if decide (nextRow < 0 ∨ nextRow >= maxRow) then Ret (map, player, STATUS_STAY)
             else if decide (nextCol < 0 ∨ nextCol >= maxCol) then Ret (map, player, STATUS_STAY)
             else c ← load map nextRow nextCol; k c) = k TILE_EXIT).
  { intros k. unfold inside in Hin. rewrite !decide_False by lia.
    rewrite Hexit, bind_Ret. reflexivity. }
  unfold doPlayerMove. rewrite Hhead.
  rewrite (decide_False (P := TILE_EXIT = TILE_PILLAR ∨ TILE_EXIT = TILE_MONSTER)) by tauto.
  rewrite (decide_False (P := TILE_EXIT = TILE_TREASURE)) by exact Ht.
  rewrite (decide_False (P := TILE_EXIT = TILE_AMULET)) by exact Ha.
  rewrite (decide_False (P := TILE_EXIT = TILE_DOOR)) by exact Hd.
  rewrite (decide_True (P := TILE_EXIT = TILE_EXIT)) by reflexivity.
  split.
  - intros Hzero. rewrite decide_False by lia. reflexivity.
  - intros Hsome. rewrite decide_True by lia.
    destruct (load_inside map maxRow maxCol _ _ Hshape Hplayer) as [c0 Hc0].
    destruct (relocate_spec map player nextRow nextCol (treasure player) STATUS_ESCAPE
                c0 TILE_EXIT Hc0 Hexit) as (map' & Hrun & Hload).
    exists map'. split; [exact Hrun|].
    split; [rewrite Hload, decide_True by auto; reflexivity|].
    split.
    + intros Hdiff. rewrite Hload.
      rewrite decide_False by (intros [? ?]; apply Hdiff; congruence).
      rewrite decide_True by auto. reflexivity.
    + intros i j Hi Hj. rewrite Hload.
      rewrite !decide_False by (intros [? ?]; congruence). reflexivity.
Qed.

(** C5.  On a map whose only player marker is on the player's cell,
    [doPlayerMove] returns, and whenever its status is not [STATUS_STAY]
    (that is, after [STATUS_MOVE], [STATUS_TREASURE], [STATUS_AMULET],
    [STATUS_LEAVE] or [STATUS_ESCAPE]) exactly one cell of the new map
    holds the player marker: the cell at the player's new row and column. *)
Theorem relocation_keeps_one_player
    (map : grid) (maxRow maxCol : Z) (player : Player) (nextRow nextCol : Z) :
  shaped map maxRow maxCol →
  TILE_OPEN ≠ TILE_PLAYER →
  sole_player map (row player) (col player) →
  ∃ map' player' status,
    doPlayerMove map maxRow maxCol player nextRow nextCol = Ret (map', player', status) ∧
    (status ≠ STATUS_STAY → sole_player map' (row player') (col player')).
Proof.
  intros Hshape Hop Hsole. unfold doPlayerMove.
  destruct (decide (nextRow < 0 ∨ nextRow >= maxRow)) as [|Hr];
    [exists map, player, STATUS_STAY; split; [reflexivity | contradiction]|].
  destruct (decide (nextCol < 0 ∨ nextCol >= maxCol)) as [|Hc];
    [exists map, player, STATUS_STAY; split; [reflexivity | contradiction]|].
  destruct (load_inside map maxRow maxCol nextRow nextCol Hshape) as [c1 Hc1];
    [unfold inside; lia|].
  assert (Hhere : load map (row player) (col player) = Ret TILE_PLAYER)
    by (apply Hsole; auto).
  assert (Hmoves : ∀ t status,
            ∃ map' player' status',
              relocate map player nextRow nextCol t status = Ret (map', player', status') ∧
              (status' ≠ STATUS_STAY → sole_player map' (row player') (col player'))).
  { intros t status.
    destruct (relocate_spec map player nextRow nextCol t status _ _ Hhere Hc1)
      as (map' & Hrun & Hload).
    exists map', (mkPlayer nextRow nextCol t), status. split; [exact Hrun|].
    intros _. cbn. eapply relocate_sole_player; eauto. }
  rewrite Hc1, bind_Ret.
  destruct (decide (c1 = TILE_PILLAR ∨ c1 = TILE_MONSTER));
    [exists map, player, STATUS_STAY; split; [reflexivity | contradiction]|].
  destruct (decide (c1 = TILE_TREASURE)); [apply Hmoves|].
  destruct (decide (c1 = TILE_AMULET)); [apply Hmoves|].
  destruct (decide (c1 = TILE_DOOR)); [apply Hmoves|].
  destruct (decide (c1 = TILE_EXIT)); [|apply Hmoves].
  destruct (decide (treasure player >= 1)); [apply Hmoves|].
  exists map, player, STATUS_STAY. split; [reflexivity | contradiction].
Qed.

End MoveClaims.

(** C6 on a 2 by 2 map: a pillar, a monster and a row of -1 as candidates. *)
Lemma blocked_move_stays_witness :
  let map := [["o"; "#"]; ["M"; "-"]]%char in
  let player := mkPlayer 0 0 2 in
  doPlayerMove map 2 2 player 0 1 = Ret (map, player, STATUS_STAY) ∧
  doPlayerMove map 2 2 player 1 0 = Ret (map, player, STATUS_STAY) ∧
  doPlayerMove map 2 2 player (-1) 0 = Ret (map, player, STATUS_STAY).
Proof.
  cbv zeta. split; [|split].
  - apply blocked_move_stays. right. split; [unfold inside; lia | left; reflexivity].
  - apply blocked_move_stays. right. split; [unfold inside; lia | right; reflexivity].
  - apply blocked_move_stays. left. unfold inside. lia.
Defined.

(** C7 on the row [o E]: with no treasure the player stays, with one the
    player escapes. *)
Lemma exit_needs_treasure_witness :
  let map := [["o"; "E"]]%char in
  doPlayerMove map 1 2 (mkPlayer 0 0 0) 0 1 = Ret (map, mkPlayer 0 0 0, STATUS_STAY) ∧
  ∃ map',
    doPlayerMove map 1 2 (mkPlayer 0 0 1) 0 1 = Ret (map', mkPlayer 0 1 1, STATUS_ESCAPE) ∧
    load map' 0 1 = Ret TILE_PLAYER ∧ load map' 0 0 = Ret TILE_OPEN.
Proof.
  cbv zeta. split.
  - apply (exit_needs_treasure [["o"; "E"]]%char 1 2 (mkPlayer 0 0 0) 0 1);
      try discriminate; try reflexivity; try (unfold inside; cbn; lia).
    vm_compute; auto.
  - destruct (exit_needs_treasure [["o"; "E"]]%char 1 2 (mkPlayer 0 0 1) 0 1)
      as [_ Hescape]; try discriminate; try reflexivity; try (unfold inside; cbn; lia).
    { vm_compute; auto. }
    destruct (Hescape ltac:(cbn; lia)) as (map' & Hrun & Hnew & Hold & _).
    exists map'. split; [exact Hrun|]. split; [exact Hnew|].
    apply Hold. discriminate.
Defined.

(** C5 on a 2 by 2 map: the player steps onto a treasure and the marker
    follows. *)
Lemma relocation_keeps_one_player_witness :
  let map := [["o"; "T"]; ["-"; "-"]]%char in
  let player := mkPlayer 0 0 0 in
  shaped map 2 2 ∧ TILE_OPEN ≠ TILE_PLAYER ∧
  sole_player map (row player) (col player) ∧
  ∃ map',
    doPlayerMove map 2 2 player 0 1 = Ret (map', mkPlayer 0 1 1, STATUS_TREASURE) ∧
    sole_player map' 0 1.
Proof.
  cbv zeta.
  assert (Hs : shaped [["o"; "T"]; ["-"; "-"]]%char 2 2) by (vm_compute; auto).
  assert (Hop : TILE_OPEN ≠ TILE_PLAYER) by discriminate.
  assert (Hsole : sole_player [["o"; "T"]; ["-"; "-"]]%char 0 0).
  { intros i j. split.
    - intros Hl. pose proof (load_Ret_inside _ 2 2 i j _ Hs Hl) as [Hi Hj].
      assert ((i = 0 ∨ i = 1) ∧ (j = 0 ∨ j = 1)) as [[-> | ->] [-> | ->]] by lia;
        first [split; reflexivity | discriminate Hl].
    - intros [-> ->]. reflexivity. }
  split; [exact Hs|]. split; [exact Hop|]. split; [exact Hsole|].
  destruct (relocation_keeps_one_player _ 2 2 (mkPlayer 0 0 0) 0 1 Hs Hop Hsole)
    as (map' & player' & status & Hrun & Hone).
  assert (Hval : doPlayerMove [["o"; "T"]; ["-"; "-"]]%char 2 2 (mkPlayer 0 0 0) 0 1 =
            Ret ([["-"; "o"]; ["-"; "-"]]%char, mkPlayer 0 1 1, STATUS_TREASURE))
    by reflexivity.
  rewrite Hval in Hrun. injection Hrun as <- <- <-.
  eexists. split; [reflexivity|]. apply Hone. discriminate.
Defined.

(** ** [createMap] and [resizeMap] *)

Section GridClaims.
Context `{LogicHeader}.
Variable junk : ascii.

(** C4.  [createMap] has no check of its dimensions and no [nullptr] to
    return: with 2 rows and 0 columns it returns two rows of no cells, with
    0 rows an empty row table, and with a negative dimension that reaches
    [new] it leaves by the exception of [new]; for no dimensions at all is
    the returned pointer null. *)
Theorem createMap_nonpositive_dimensions :
  createMap junk 2 0 = Ret (Some [[]; []]) ∧
  createMap junk 0 3 = Ret (Some []) ∧
  createMap junk (-1) 3 = Throw ∧
  createMap junk 3 (-1) = Throw ∧
  ∀ rows cols, createMap junk rows cols ≠ Ret None.
Proof.
  split; [reflexivity|]. split; [reflexivity|]. split; [reflexivity|].
  split; [reflexivity|].
  intros rows cols Hnull. unfold createMap in Hnull.
  apply bind_inv in Hnull as (m0 & _ & Hnull).
  apply bind_inv in Hnull as (m1 & _ & Hnull).
  apply bind_inv in Hnull as (m2 & _ & Hnull).
  discriminate Hnull.
Qed.

Lemma deleteMap_returns (map : grid) (rows cols : Z) :
  shaped map rows cols → deleteMap map rows = Ret tt.
Proof.
  intros [Hlen _]. unfold deleteMap.
  destruct (for_up_rule (λ _ (_ : unit), True) 0 rows
              (λ j (_ : unit),
                 if decide (0 ≤ j ∧ (Z.to_nat j < length map)%nat) then Ret tt else Undef)
              tt ltac:(lia) I) as ([] & Hrun & _); [|exact Hrun].
  intros j [] Hj _. exists tt. rewrite decide_True by lia. auto.
Qed.

(** The search loop of [resizeMap] ends with the coordinates of the one
    cell that holds ['o']. *)
Lemma resizeMap_finds_player (map : grid) (rows cols r c : Z) :
  shaped map rows cols →
  (∀ i j, load map i j = Ret "o"%char ↔ i = r ∧ j = c) →
  for_up 0 rows (λ i,
      for_up 0 cols (λ j (cur : Z * Z),
          ch ← load map i j;
          if decide (ch = "o"%char) then Ret (i, j) else Ret cur)) (0, 0) = Ret (r, c).
Proof.
  intros Hshape Hsole.
  assert (Hin : inside rows cols r c).
  { eapply load_Ret_inside; [exact Hshape | apply Hsole; auto]. }
  destruct Hin as [Hr Hc].
  destruct (for_up2_rule
    (λ i j (cur : Z * Z),
       (r < i ∨ (r = i ∧ c < j) → cur = (r, c)) ∧
       (¬ (r < i ∨ (r = i ∧ c < j)) → cur = (0, 0)))
    rows cols
    (λ i j (cur : Z * Z),
       ch ← load map i j; if decide (ch = "o"%char) then Ret (i, j) else Ret cur)
    (0, 0) ltac:(lia) ltac:(lia)) as (cur & Hrun & Hfound & _).
  - split; [lia | reflexivity].
  - intros i j cur Hi Hj [Hyes Hno].
    destruct (load_inside map rows cols i j Hshape) as [ch Hch]; [split; lia|].
    rewrite Hch, bind_Ret.
    destruct (decide (ch = "o"%char)) as [->|Hne].
    + apply Hsole in Hch as [-> ->]. exists (r, c).
      split; [reflexivity|]. split; [reflexivity | lia].
    + exists cur. split; [reflexivity|].
      assert (¬ (i = r ∧ j = c)) as Hdiff
        by (intros [-> ->]; apply Hne; assert (load map r c = Ret "o"%char) as Ho
              by (apply Hsole; auto); congruence).
      split; [intros Hb; apply Hyes; lia | intros Hb; apply Hno; lia].
  - intros i cur Hi [Hyes Hno].
    split; [intros Hb; apply Hyes; lia | intros Hb; apply Hno; lia].
  - rewrite Hrun. f_equal. apply Hfound. lia.
Qed.

(** The tiling loop of [resizeMap] copies [src] into every cell. *)
Lemma resizeMap_tiles (src dst : grid) (rows cols : Z) :
  0 < rows → 0 < cols →
  shaped src rows cols → shaped dst (2 * rows) (2 * cols) →
  ∃ dst',
    for_up 0 (2 * rows) (λ i,
        for_up 0 (2 * cols) (λ j (resize : grid),
            ch ← load src (Z.rem i rows) (Z.rem j cols);
            store resize i j ch)) dst = Ret dst' ∧
    shaped dst' (2 * rows) (2 * cols) ∧
    ∀ i j, inside (2 * rows) (2 * cols) i j →
           load dst' i j = load src (i mod rows) (j mod cols).
Proof.
  intros Hrows Hcols Hsrc Hdst.
  destruct (for_up2_rule
    (λ i j (resize : grid),
       shaped resize (2 * rows) (2 * cols) ∧
       ∀ i' j', inside (2 * rows) (2 * cols) i' j' → i' < i ∨ (i' = i ∧ j' < j) →
                load resize i' j' = load src (i' mod rows) (j' mod cols))
    (2 * rows) (2 * cols)
    (λ i j (resize : grid),
       ch ← load src (Z.rem i rows) (Z.rem j cols); store resize i j ch)
    dst ltac:(lia) ltac:(lia)) as (dst' & Hrun & Hshape & Hcells).
  - split; [exact Hdst | intros i' j' [? ?] ?; lia].
  - intros i j resize Hi Hj [Hshape Hcells].
    rewrite !Z.rem_mod_nonneg by lia.
    destruct (load_inside src rows cols (i mod rows) (j mod cols) Hsrc) as [ch Hch].
    { split; apply Z.mod_pos_bound; lia. }
    rewrite Hch, bind_Ret.
    destruct (store_inside resize (2 * rows) (2 * cols) i j ch Hshape) as [resize' Hst];
      [split; lia|].
    exists resize'. split; [exact Hst|]. split; [eapply store_shaped; eauto|].
    intros i' j' Hin Hlt. rewrite (load_store _ _ _ _ _ _ _ Hst).
    destruct (decide (i' = i ∧ j' = j)) as [[-> ->]|Hne]; [symmetry; exact Hch|].
    apply Hcells; [exact Hin | lia].
  - intros i resize Hi [Hshape Hcells]. split; [exact Hshape|].
    intros i' j' Hin Hlt. apply Hcells; [exact Hin|]. destruct Hin as [_ ?]. lia.
  - exists dst'. split; [exact Hrun|]. split; [exact Hshape|].
    intros i j Hin. apply Hcells; [exact Hin|]. destruct Hin as [? _]. lia.
Qed.

End GridClaims.

Section ResizeClaim.
Context `{LogicHeader}.
Variable junk : ascii.

(** C2.  For a [rows] by [cols] map with exactly one player marker, at
    [(r, c)], [resizeMap] returns a map of [2 * rows] rows and [2 * cols]
    columns together with these two numbers; the cell [(r, c)] of the new
    map holds the player marker, and every other cell [(i, j)] holds what
    the old map held at [(i mod rows, j mod cols)], with [TILE_OPEN] in
    place of the old marker.  So the new map has exactly one player marker,
    at the coordinates it had.  The header's [TILE_PLAYER] is the ['o'] that
    [resizeMap] is written with. *)
Theorem resizeMap_doubles_and_keeps_player
    (map : grid) (rows cols r c : Z) :
  TILE_PLAYER = "o"%char →
  TILE_OPEN ≠ TILE_PLAYER →
  shaped map rows cols →
  sole_player map r c →
  ∃ new,
    resizeMap junk map rows cols = Ret (new, 2 * rows, 2 * cols) ∧
    shaped new (2 * rows) (2 * cols) ∧
    (∀ i j, inside (2 * rows) (2 * cols) i j →
       load new i j =
         if decide (i = r ∧ j = c) then Ret TILE_PLAYER
         else if decide (i mod rows = r ∧ j mod cols = c) then Ret TILE_OPEN
         else load map (i mod rows) (j mod cols)) ∧
    sole_player new r c.
Proof.
  intros Ho Hop Hshape Hsole.
  assert (Hsole' : ∀ i j, load map i j = Ret "o"%char ↔ i = r ∧ j = c)
    by (rewrite <- Ho; exact Hsole).
  assert (Hin : inside rows cols r c).
  { eapply load_Ret_inside; [exact Hshape | apply Hsole; auto]. }
  pose proof Hin as [Hr Hc].
  unfold resizeMap. cbv zeta.
  rewrite (new_array_nonneg (2 * rows)), bind_Ret by lia.
  destruct (alloc_rows_shaped junk (2 * rows) (2 * cols) ltac:(lia) ltac:(lia))
    as (fresh & -> & Hfresh).
  rewrite bind_Ret.
  rewrite (resizeMap_finds_player map rows cols r c Hshape Hsole'), bind_Ret.
  destruct (store_inside map rows cols r c TILE_OPEN Hshape Hin) as [map1 Hmap1].
  rewrite Hmap1, bind_Ret.
  pose proof (store_shaped _ _ _ _ _ _ _ Hshape Hmap1) as Hshape1.
  destruct (resizeMap_tiles map1 fresh rows cols ltac:(lia) ltac:(lia) Hshape1 Hfresh)
    as (tiled & -> & Htiled & Hcells).
  rewrite bind_Ret.
  destruct (store_inside tiled (2 * rows) (2 * cols) r c "o"%char Htiled) as [new Hnew];
    [unfold inside; lia|].
  rewrite Hnew, bind_Ret, (deleteMap_returns map1 rows cols Hshape1), bind_Ret.
  exists new. split; [reflexivity|].
  split; [eapply store_shaped; eauto|].
  assert (Hload : ∀ i j, inside (2 * rows) (2 * cols) i j →
            load new i j =
              if decide (i = r ∧ j = c) then Ret TILE_PLAYER
              else if decide (i mod rows = r ∧ j mod cols = c) then Ret TILE_OPEN
              else load map (i mod rows) (j mod cols)).
  { intros i j Hij. rewrite (load_store _ _ _ _ _ _ _ Hnew), Ho.
    destruct (decide (i = r ∧ j = c)); [reflexivity|].
    rewrite (Hcells i j Hij). apply (load_store _ _ _ _ _ _ _ Hmap1). }
  split; [exact Hload|].
  intros i j. split.
  - intros Hp.
    pose proof (load_Ret_inside new (2 * rows) (2 * cols) i j _
                  ltac:(eapply store_shaped; eauto) Hp) as Hij.
    rewrite (Hload i j Hij) in Hp.
    destruct (decide (i = r ∧ j = c)) as [|Hne]; [assumption|].
    destruct (decide (i mod rows = r ∧ j mod cols = c)) as [|Hne'].
    + injection Hp as Heq. contradiction.
    + apply Hsole in Hp. contradiction.
  - intros [-> ->]. rewrite Hload by (unfold inside; lia).
    rewrite decide_True by auto. reflexivity.
Qed.

End ResizeClaim.

(** C2 on a 2 by 3 map with the player at (0, 1): the copies to the right
    and below hold an open cell where the marker was. *)
Lemma resizeMap_doubles_and_keeps_player_witness :
  let map := [["M"; "o"; "M"]; ["T"; "-"; "#"]]%char in
  TILE_PLAYER = "o"%char ∧ TILE_OPEN ≠ TILE_PLAYER ∧ shaped map 2 3 ∧
  sole_player map 0 1 ∧
  ∃ new,
    resizeMap "?" map 2 3 = Ret (new, 4, 6) ∧ shaped new 4 6 ∧
    load new 0 1 = Ret TILE_PLAYER ∧ load new 0 4 = Ret TILE_OPEN ∧
    load new 2 1 = Ret TILE_OPEN ∧ load new 3 5 = Ret TILE_PILLAR ∧
    sole_player new 0 1.
Proof.
  cbv zeta.
  assert (Ho : TILE_PLAYER = "o"%char) by reflexivity.
  assert (Hop : TILE_OPEN ≠ TILE_PLAYER) by discriminate.
  assert (Hs : shaped [["M"; "o"; "M"]; ["T"; "-"; "#"]]%char 2 3) by (vm_compute; auto).
  assert (Hsole : sole_player [["M"; "o"; "M"]; ["T"; "-"; "#"]]%char 0 1).
  { intros i j. split.
    - intros Hl. pose proof (load_Ret_inside _ 2 3 i j _ Hs Hl) as [Hi Hj].
      assert ((i = 0 ∨ i = 1) ∧ (j = 0 ∨ j = 1 ∨ j = 2))
        as [[-> | ->] [-> | [-> | ->]]] by lia;
        first [split; reflexivity | discriminate Hl].
    - intros [-> ->]. reflexivity. }
  split; [exact Ho|]. split; [exact Hop|]. split; [exact Hs|]. split; [exact Hsole|].
  destruct (resizeMap_doubles_and_keeps_player "?" _ 2 3 0 1 Ho Hop Hs Hsole)
    as (new & Hrun & Hshape & Hcells & Hone).
  exists new. split; [exact Hrun|]. split; [exact Hshape|].
  split; [exact (Hcells 0 1 ltac:(unfold inside; lia))|].
  split; [exact (Hcells 0 4 ltac:(unfold inside; lia))|].
  split; [exact (Hcells 2 1 ltac:(unfold inside; lia))|].
  split; [exact (Hcells 3 5 ltac:(unfold inside; lia))|].
  exact Hone.
Defined.

(** ** Streams *)

(** An extraction that succeeds does not depend on the value the operand
    held. *)
Lemma get_int_fresh (s s' : ifstream) (old old' v : Z) :
  get_int s old = (v, s') → failbit s' = false → get_int s old' = (v, s').
Proof.
  unfold get_int. destruct (failbit s) eqn:Hf.
  - intros [= <- <-] Hok. congruence.
  - destruct (skipws (unread s)) as [|c0 l0].
    + intros [= <- <-] Hok. discriminate Hok.
    + intros Hget _. exact Hget.
Qed.

Lemma get_int_failed (s : ifstream) (old : Z) :
  failbit s = true → get_int s old = (old, s).
Proof. intros Hbad. unfold get_int. rewrite Hbad. reflexivity. Qed.

(** A source that declares its four numbers delivers them whatever the
    variables read into held before. *)
Lemma declared_reads (content : list ascii) (rows cols prow pcol : Z) (rest : ifstream) :
  declared content = Some (rows, cols, prow, pcol, rest) →
  failbit rest = false ∧
  ∀ a b c d, ∃ s1 s2 s3,
    get_int (mkStream content false) a = (rows, s1) ∧
    get_int s1 b = (cols, s2) ∧
    get_int s2 c = (prow, s3) ∧
    get_int s3 d = (pcol, rest).
Proof.
  unfold declared.
  destruct (get_int (mkStream content false) 0) as [v1 s1] eqn:H1.
  destruct (get_int s1 0) as [v2 s2] eqn:H2.
  destruct (get_int s2 0) as [v3 s3] eqn:H3.
  destruct (get_int s3 0) as [v4 s4] eqn:H4.
  destruct (failbit s4) eqn:Hf4; [discriminate|].
  intros [= -> -> -> -> ->].
  assert (Hf3 : failbit s3 = false).
  { destruct (failbit s3) eqn:Hf; [|reflexivity].
    rewrite get_int_failed in H4 by exact Hf. injection H4 as _ <-. congruence. }
  assert (Hf2 : failbit s2 = false).
  { destruct (failbit s2) eqn:Hf; [|reflexivity].
    rewrite get_int_failed in H3 by exact Hf. injection H3 as _ <-. congruence. }
  assert (Hf1 : failbit s1 = false).
  { destruct (failbit s1) eqn:Hf; [|reflexivity].
    rewrite get_int_failed in H2 by exact Hf. injection H2 as _ <-. congruence. }
  split; [exact Hf4|].
  intros a b c d. exists s1, s2, s3.
  rewrite (get_int_fresh _ _ 0 a _ H1 Hf1), (get_int_fresh _ _ 0 b _ H2 Hf2),
    (get_int_fresh _ _ 0 c _ H3 Hf3), (get_int_fresh _ _ 0 d _ H4 Hf4).
  auto.
Qed.

Lemma tokens_skipws (l : list ascii) : tokens (skipws l) = tokens l.
Proof.
  induction l as [|c l IH]; [reflexivity|]. cbn [skipws].
  destruct (isspace c) eqn:Hc; [|reflexivity].
  rewrite IH. unfold tokens. rewrite filter_cons_False; [reflexivity|].
  rewrite Hc. discriminate.
Qed.

Lemma skipws_head (l : list ascii) (c : ascii) (rest : list ascii) :
  skipws l = c :: rest → isspace c = false.
Proof.
  induction l as [|a l IH]; [discriminate|]. cbn [skipws].
  destruct (isspace a) eqn:Ha; [exact IH|]. intros [= -> _]. exact Ha.
Qed.

(** [ifs >> c] delivers the next pending token, or leaves [c] alone when
    none is left. *)
Lemma get_char_pending (s : ifstream) (old : ascii) :
  ∃ s', get_char s old = (default old (head (pending s)), s') ∧
        pending s' = tail (pending s).
Proof.
  unfold get_char, pending. destruct (failbit s) eqn:Hf.
  - exists s. rewrite Hf. auto.
  - rewrite <- (tokens_skipws (unread s)).
    destruct (skipws (unread s)) as [|c rest] eqn:Hskip.
    + exists (mkStream [] true). split; reflexivity.
    + exists (mkStream rest false). cbn [failbit unread head tail].
      unfold tokens. rewrite filter_cons_True by (eapply skipws_head; eauto).
      split; reflexivity.
Qed.

(** ** [loadLevel] *)

Lemma tail_drop_succ {A : Type} (l : list A) (k : nat) :
  tail (drop k l) = drop (Datatypes.S k) l.
Proof.
  replace (Datatypes.S k) with (k + 1)%nat by lia. rewrite <- drop_drop.
  destruct (drop k l); reflexivity.
Qed.

Section LoadLevel.
Context `{LogicHeader}.
Variable junk : ascii.

(** The reading loops of [loadLevel], started on a map of open cells: each
    cell takes the next token, or stays open when the tokens have run out,
    and the cell at the player's coordinates takes the player marker. *)
Lemma loadLevel_reads_cells (s0 : ifstream) (g0 : grid) (rows cols : Z) (player : Player) :
  0 ≤ rows → 0 ≤ cols →
  shaped g0 rows cols →
  (∀ i j, inside rows cols i j → load g0 i j = Ret TILE_OPEN) →
  ∃ s g,
    for_up 0 rows (λ i,
        for_up 0 cols (λ j '(ifs, diffMap),
            old ← load diffMap i j;
            let '(c, ifs) := get_char ifs old in
            diffMap ← store diffMap i j c;
            diffMap ←
              (if decide (i = row player ∧ j = col player)
               then store diffMap i j TILE_PLAYER
               else Ret diffMap);
            Ret (ifs, diffMap))) (s0, g0) = Ret (s, g) ∧
    shaped g rows cols ∧
    ∀ i j, inside rows cols i j →
      load g i j =
        Ret (if decide (i = row player ∧ j = col player) then TILE_PLAYER
             else token_at (pending s0) cols i j TILE_OPEN).
Proof.
  intros Hrows Hcols Hshape0 Hopen0.
  match goal with
  | |- ∃ _ _, for_up 0 rows (λ i, for_up 0 cols (@?B i)) _ = _ ∧ _ => pose (body := B)
  end.
  destruct (for_up2_rule
    (λ i j (st : ifstream * grid),
       shaped st.2 rows cols ∧
       pending st.1 = drop (Z.to_nat (i * cols + j)) (pending s0) ∧
       (∀ i' j', inside rows cols i' j' → i' < i ∨ (i' = i ∧ j' < j) →
          load st.2 i' j' =
            Ret (if decide (i' = row player ∧ j' = col player) then TILE_PLAYER
                 else token_at (pending s0) cols i' j' TILE_OPEN)) ∧
       (∀ i' j', inside rows cols i' j' → ¬ (i' < i ∨ (i' = i ∧ j' < j)) →
          load st.2 i' j' = Ret TILE_OPEN))
    rows cols body (s0, g0) Hrows Hcols) as ([s g] & Hrun & Hshape & _ & Hdone & _).
  - cbn. split; [exact Hshape0|]. split; [reflexivity|].
    split; [intros i' j' [? ?] ?; lia | intros i' j' Hin _; apply Hopen0; exact Hin].
  - intros i j [s g] Hi Hj (Hshape & Hpend & Hdone & Htodo). cbn [fst snd] in *.
    assert (Hk : 0 ≤ i * cols + j) by nia.
    unfold body.
    rewrite (Htodo i j ltac:(unfold inside; lia) ltac:(lia)), bind_Ret.
    destruct (get_char_pending s TILE_OPEN) as (s' & -> & Hpend').
    assert (Htok : default TILE_OPEN (head (pending s)) =
                   token_at (pending s0) cols i j TILE_OPEN).
    { unfold token_at. rewrite Hpend, head_lookup, lookup_drop. do 2 f_equal. lia. }
    rewrite Htok.
    destruct (store_inside g rows cols i j (token_at (pending s0) cols i j TILE_OPEN) Hshape)
      as [g1 Hg1]; [unfold inside; lia|].
    rewrite Hg1, bind_Ret.
    pose proof (store_shaped _ _ _ _ _ _ _ Hshape Hg1) as Hshape1.
    assert (Hnext : pending s' = drop (Z.to_nat (i * cols + (j + 1))) (pending s0)).
    { rewrite Hpend', Hpend, tail_drop_succ. f_equal. lia. }
    destruct (decide (i = row player ∧ j = col player)) as [Hplayer|Hplayer].
    + destruct (store_inside g1 rows cols i j TILE_PLAYER Hshape1) as [g2 Hg2];
        [unfold inside; lia|].
      rewrite Hg2, bind_Ret. exists (s', g2). split; [reflexivity|]. cbn [fst snd].
      split; [eapply store_shaped; eauto|]. split; [exact Hnext|].
      split.
      * intros i' j' Hin Hlt.
        rewrite (load_store _ _ _ _ _ _ _ Hg2), (load_store _ _ _ _ _ _ _ Hg1).
        destruct (decide (i' = i ∧ j' = j)) as [[-> ->]|Hne].
        -- rewrite decide_True by exact Hplayer. reflexivity.
        -- apply Hdone; [exact Hin | lia].
      * intros i' j' Hin Hge.
        rewrite (load_store _ _ _ _ _ _ _ Hg2), (load_store _ _ _ _ _ _ _ Hg1).
        rewrite !decide_False by lia. apply Htodo; [exact Hin | lia].
    + rewrite bind_Ret. exists (s', g1). split; [reflexivity|]. cbn [fst snd].
      split; [exact Hshape1|]. split; [exact Hnext|].
      split.
      * intros i' j' Hin Hlt. rewrite (load_store _ _ _ _ _ _ _ Hg1).
        destruct (decide (i' = i ∧ j' = j)) as [[-> ->]|Hne].
        -- rewrite decide_False by exact Hplayer. reflexivity.
        -- apply Hdone; [exact Hin | lia].
      * intros i' j' Hin Hge. rewrite (load_store _ _ _ _ _ _ _ Hg1).
        rewrite decide_False by lia. apply Htodo; [exact Hin | lia].
  - intros i [s g] Hi (Hshape & Hpend & Hdone & Htodo). cbn [fst snd] in *.
    split; [exact Hshape|].
    split; [rewrite Hpend; f_equal; lia|].
    split.
    + intros i' j' Hin Hlt. apply Hdone; [exact Hin|]. destruct Hin as [_ ?]. lia.
    + intros i' j' Hin Hge. apply Htodo; [exact Hin|]. destruct Hin as [_ ?]. lia.
  - exists s, g. split; [exact Hrun|]. cbn [fst snd] in *. split; [exact Hshape|].
    intros i j Hin. apply Hdone; [exact Hin|]. destruct Hin as [? _]. lia.
Qed.

(** [loadLevel] on a file that opens and declares its four numbers, the
    dimensions not negative. *)
Lemma loadLevel_reads (fs : filesystem) (fileName : string)
    (maxRow maxCol : Z) (player : Player) (content : list ascii)
    (rows cols prow pcol : Z) (rest : ifstream) :
  fs fileName = Some content →
  declared content = Some (rows, cols, prow, pcol, rest) →
  0 ≤ rows → 0 ≤ cols →
  ∃ g,
    loadLevel junk fs fileName maxRow maxCol player =
      Ret (Some g, rows, cols, mkPlayer prow pcol (treasure player)) ∧
    shaped g rows cols ∧
    ∀ i j, inside rows cols i j →
      load g i j =
        Ret (if decide (i = prow ∧ j = pcol) then TILE_PLAYER
             else token_at (tokens (unread rest)) cols i j TILE_OPEN).
Proof.
  intros Hopen Hdecl Hrows Hcols.
  destruct (declared_reads _ _ _ _ _ _ Hdecl) as [Hok Hreads].
  destruct (Hreads maxRow maxCol (row player) (col player))
    as (s1 & s2 & s3 & H1 & H2 & H3 & H4).
  unfold loadLevel. rewrite Hopen, H1, H2, H3, H4. cbv beta iota zeta.
  destruct (createMap_open junk rows cols Hrows Hcols) as (g0 & -> & Hshape0 & Hopen0).
  rewrite bind_Ret.
  destruct (loadLevel_reads_cells rest g0 rows cols
              (mkPlayer prow pcol (treasure player)) Hrows Hcols Hshape0 Hopen0)
    as (s & g & Hrun & Hshape & Hcells).
  rewrite Hrun, bind_Ret. cbn [row col] in Hcells.
  exists g. split; [reflexivity|]. split; [exact Hshape|].
  intros i j Hin. rewrite (Hcells i j Hin). unfold pending. rewrite Hok. reflexivity.
Qed.

End LoadLevel.

Section LoadClaims.
Context `{LogicHeader}.
Variable junk : ascii.

(** C3, as amended.  For a file that opens and declares dimensions and
    player coordinates inside them, [loadLevel] returns a map of the
    declared shape with the declared dimensions, and a player whose row and
    column are the declared coordinates and whose treasure count is the one
    the player object came in with: [loadLevel] never writes it.  The cell
    at the declared coordinates holds the player marker whatever token was
    read there; every other cell holds its token, [TILE_OPEN] when the
    tokens have run out. *)
Theorem loadLevel_places_player (fs : filesystem) (fileName : string)
    (maxRow maxCol : Z) (player : Player) (content : list ascii)
    (rows cols prow pcol : Z) (rest : ifstream) :
  fs fileName = Some content →
  declared content = Some (rows, cols, prow, pcol, rest) →
  inside rows cols prow pcol →
  ∃ g,
    loadLevel junk fs fileName maxRow maxCol player =
      Ret (Some g, rows, cols, mkPlayer prow pcol (treasure player)) ∧
    shaped g rows cols ∧
    load g prow pcol = Ret TILE_PLAYER ∧
    ∀ i j, inside rows cols i j → ¬ (i = prow ∧ j = pcol) →
      load g i j = Ret (token_at (tokens (unread rest)) cols i j TILE_OPEN).
Proof.
  intros Hopen Hdecl Hin.
  destruct (loadLevel_reads junk fs fileName maxRow maxCol player content
              rows cols prow pcol rest Hopen Hdecl) as (g & Hrun & Hshape & Hcells);
    [unfold inside in Hin; lia | unfold inside in Hin; lia |].
  exists g. split; [exact Hrun|]. split; [exact Hshape|]. split.
  - rewrite (Hcells prow pcol Hin), decide_True by auto. reflexivity.
  - intros i j Hij Hne. rewrite (Hcells i j Hij), decide_False by exact Hne. reflexivity.
Qed.

(** C10, as amended.  For a file that opens and declares dimensions that
    are not negative and player coordinates outside them, [loadLevel]
    still returns a map, not [nullptr]: a map of the declared shape in
    which every cell holds its token ([TILE_OPEN] when the tokens have run
    out), so no cell is forced to the player marker, and the player's row
    and column hold the declared coordinates as they are. *)
Theorem loadLevel_accepts_player_outside (fs : filesystem) (fileName : string)
    (maxRow maxCol : Z) (player : Player) (content : list ascii)
    (rows cols prow pcol : Z) (rest : ifstream) :
  fs fileName = Some content →
  declared content = Some (rows, cols, prow, pcol, rest) →
  0 ≤ rows → 0 ≤ cols →
  ¬ inside rows cols prow pcol →
  ∃ g,
    loadLevel junk fs fileName maxRow maxCol player =
      Ret (Some g, rows, cols, mkPlayer prow pcol (treasure player)) ∧
    shaped g rows cols ∧
    ∀ i j, inside rows cols i j →
      load g i j = Ret (token_at (tokens (unread rest)) cols i j TILE_OPEN).
Proof.
  intros Hopen Hdecl Hrows Hcols Hout.
  destruct (loadLevel_reads junk fs fileName maxRow maxCol player content
              rows cols prow pcol rest Hopen Hdecl Hrows Hcols) as (g & Hrun & Hshape & Hcells).
  exists g. split; [exact Hrun|]. split; [exact Hshape|].
  intros i j Hij. rewrite (Hcells i j Hij).
  rewrite decide_False; [reflexivity|].
  intros [-> ->]. exact (Hout Hij).
Qed.

End LoadClaims.

(** C3: the claim as stated fails.  The level of the specification's first
    scenario is well formed, with nine tokens for its nine cells; loaded
    into a player object that holds 5 treasures it returns a player that
    still holds 5, not 0. *)
Lemma loadLevel_keeps_treasure_count :
  ¬ (∀ (junk : ascii) (fs : filesystem) (fileName : string) (maxRow maxCol : Z)
       (player player' : Player) (content : list ascii)
       (rows cols prow pcol : Z) (rest : ifstream) (g : grid),
       fs fileName = Some content →
       declared content = Some (rows, cols, prow, pcol, rest) →
       inside rows cols prow pcol →
       Z.of_nat (length (tokens (unread rest))) = rows * cols →
       loadLevel junk fs fileName maxRow maxCol player = Ret (Some g, rows, cols, player') →
       treasure player' = 0).
Proof.
  intros Hclaim.
  specialize (Hclaim "?"%char (only_file level_3x3) "level.txt"%string 0 0
                (mkPlayer 0 0 5) (mkPlayer 1 1 5) level_3x3 3 3 1 1
                (mkStream (list_ascii_of_string " 
 - - - 
 - P - 
 - - T") false)
                [["-"; "-"; "-"]; ["-"; "o"; "-"]; ["-"; "-"; "T"]]%char
                eq_refl eq_refl ltac:(unfold inside; lia) eq_refl eq_refl).
  discriminate Hclaim.
Qed.

(** C3, as amended, on the 3 by 3 level: the player is placed at (1, 1) over
    the token [P] and keeps 5 treasures. *)
Lemma loadLevel_places_player_witness :
  ∃ rest,
    declared level_3x3 = Some (3, 3, 1, 1, rest) ∧ inside 3 3 1 1 ∧
    ∃ g,
      loadLevel "?" (only_file level_3x3) "level.txt" 0 0 (mkPlayer 0 0 5) =
        Ret (Some g, 3, 3, mkPlayer 1 1 5) ∧
      shaped g 3 3 ∧ load g 1 1 = Ret TILE_PLAYER ∧ load g 2 2 = Ret TILE_TREASURE.
Proof.
  eexists. split; [reflexivity|].
  assert (Hin : inside 3 3 1 1) by (unfold inside; lia).
  split; [exact Hin|].
  destruct (loadLevel_places_player "?" (only_file level_3x3) "level.txt" 0 0
              (mkPlayer 0 0 5) level_3x3 3 3 1 1 _ eq_refl eq_refl Hin)
    as (g & Hrun & Hshape & Hplayer & Hcells).
  exists g. split; [exact Hrun|]. split; [exact Hshape|]. split; [exact Hplayer|].
  rewrite (Hcells 2 2) by (unfold inside; lia). reflexivity.
Defined.

(** C10: the claim as stated fails.  A file that opens and declares -1
    rows, 3 columns and the player at (5, 5) has the player outside; the
    allocation of -1 rows in [createMap] throws, and [loadLevel] returns
    no map at all. *)
Lemma loadLevel_negative_rows_throws :
  ¬ (∀ (junk : ascii) (fs : filesystem) (fileName : string) (maxRow maxCol : Z)
       (player : Player) (content : list ascii)
       (rows cols prow pcol : Z) (rest : ifstream),
       fs fileName = Some content →
       declared content = Some (rows, cols, prow, pcol, rest) →
       ¬ inside rows cols prow pcol →
       ∃ g, loadLevel junk fs fileName maxRow maxCol player =
              Ret (Some g, rows, cols, mkPlayer prow pcol (treasure player))).
Proof.
  intros Hclaim.
  destruct (Hclaim "?"%char (only_file (list_ascii_of_string "-1 3 5 5")) "level.txt"%string
              0 0 (mkPlayer 0 0 0) (list_ascii_of_string "-1 3 5 5") (-1) 3 5 5
              (mkStream [] false) eq_refl eq_refl ltac:(unfold inside; lia)) as [g Hrun].
  discriminate Hrun.
Qed.

(** C10, as amended, on a 2 by 2 level that declares the player at (5, 1):
    the four cells hold their four tokens. *)
Lemma loadLevel_accepts_player_outside_witness :
  let content := list_ascii_of_string "2 2 5 1 a b c d" in
  ∃ rest,
    declared content = Some (2, 2, 5, 1, rest) ∧ ¬ inside 2 2 5 1 ∧
    ∃ g,
      loadLevel "?" (only_file content) "level.txt" 0 0 (mkPlayer 0 0 0) =
        Ret (Some g, 2, 2, mkPlayer 5 1 0) ∧
      load g 0 0 = Ret "a"%char ∧ load g 0 1 = Ret "b"%char ∧
      load g 1 0 = Ret "c"%char ∧ load g 1 1 = Ret "d"%char.
Proof.
  cbv zeta. eexists. split; [reflexivity|].
  assert (Hout : ¬ inside 2 2 5 1) by (unfold inside; lia).
  split; [exact Hout|].
  destruct (loadLevel_accepts_player_outside "?"
              (only_file (list_ascii_of_string "2 2 5 1 a b c d")) "level.txt" 0 0
              (mkPlayer 0 0 0) (list_ascii_of_string "2 2 5 1 a b c d") 2 2 5 1 _
              eq_refl eq_refl ltac:(lia) ltac:(lia) Hout)
    as (g & Hrun & _ & Hcells).
  exists g. split; [exact Hrun|].
  rewrite !Hcells by (unfold inside; lia). repeat split; reflexivity.
Defined.

(** ** The scenarios of the specification, on the reference characters *)

(** Load the 3 by 3 level, move down, then right: [STATUS_MOVE], then
    [STATUS_TREASURE], the player at (2, 2) with one treasure. *)
Example scenario_load_and_move :
  ('(map, maxRow, maxCol, player) ← loadLevel "?" (only_file level_3x3) "level.txt" 0 0
                                      (mkPlayer 0 0 0);
   match map with
   | None => Ret None
   | Some map =>
       let '(nextRow, nextCol) := getDirection MOVE_DOWN (row player) (col player) in
       '(map, player, first) ← doPlayerMove map maxRow maxCol player nextRow nextCol;
       let '(nextRow, nextCol) := getDirection MOVE_RIGHT (row player) (col player) in
       '(map, player, second) ← doPlayerMove map maxRow maxCol player nextRow nextCol;
       Ret (Some (first, second, player))
   end) = Ret (Some (STATUS_MOVE, STATUS_TREASURE, mkPlayer 2 2 1)).
Proof. reflexivity. Qed.

(** A monster two cells from the player comes one cell nearer; no capture. *)
Example scenario_monster_approaches :
  doMonsterAttack [["M"; "-"; "o"]]%char 1 3 (mkPlayer 0 2 0) =
  Ret ([["-"; "M"; "o"]]%char, false).
Proof. reflexivity. Qed.

(** A monster next to the player takes the player's cell; capture. *)
Example scenario_monster_captures :
  doMonsterAttack [["M"; "o"]]%char 1 2 (mkPlayer 0 1 0) =
  Ret ([["-"; "M"]]%char, true).
Proof. reflexivity. Qed.

(** * Further properties of the code *)

(** ** Maps as values *)

Lemma load_nat (m : grid) (k l : nat) :
  load m (Z.of_nat k) (Z.of_nat l) =
  match m !! k with
  | Some r => match r !! l with Some c => Ret c | None => Undef end
  | None => Undef
  end.
Proof. unfold load. rewrite decide_True by lia. rewrite !Nat2Z.id. reflexivity. Qed.

(** Two maps of one shape with the same cells are the same map. *)
Lemma grid_ext (m m' : grid) (rows cols : Z) :
  shaped m rows cols → shaped m' rows cols →
  (∀ i j, inside rows cols i j → load m i j = load m' i j) →
  m = m'.
Proof.
  intros [Hlen Hrows] [Hlen' Hrows'] Hcells.
  rewrite Forall_forall in Hrows. rewrite Forall_forall in Hrows'.
  apply list_eq_same_length with (length m); [lia | reflexivity |].
  intros k r r' Hk Hr Hr'.
  pose proof (Hrows r (list_elem_of_lookup_2 _ _ _ Hr)) as Hc.
  pose proof (Hrows' r' (list_elem_of_lookup_2 _ _ _ Hr')) as Hc'.
  apply list_eq_same_length with (length r); [lia | reflexivity |].
  intros l c c' Hl Hcl Hcl'.
  pose proof (Hcells (Z.of_nat k) (Z.of_nat l) ltac:(unfold inside; lia)) as Heq.
  rewrite !load_nat, Hr, Hr', Hcl, Hcl' in Heq. congruence.
Qed.

Lemma replicate_shaped (rows cols : Z) (c : ascii) :
  0 ≤ rows → 0 ≤ cols →
  shaped (replicate (Z.to_nat rows) (replicate (Z.to_nat cols) c)) rows cols.
Proof.
  intros Hr Hc. split; [rewrite length_replicate; lia|].
  apply Forall_forall. intros r Hin. apply elem_of_replicate in Hin as [-> _].
  rewrite length_replicate. lia.
Qed.

Lemma replicate_load (rows cols i j : Z) (c : ascii) :
  inside rows cols i j →
  load (replicate (Z.to_nat rows) (replicate (Z.to_nat cols) c)) i j = Ret c.
Proof.
  intros [Hi Hj]. unfold load. rewrite decide_True by lia.
  rewrite lookup_replicate_2 by lia. rewrite lookup_replicate_2 by lia. reflexivity.
Qed.

(** A counting loop that returns has run its body, with a result, at
    every index. *)
Lemma for_up_unit_inv (lo hi : Z) (body : Z → unit → exec unit) :
  for_up lo hi body tt = Ret tt → ∀ i, lo ≤ i < hi → body i tt = Ret tt.
Proof.
  unfold for_up, for_up_break.
  remember (Z.to_nat (hi - lo)) as n eqn:Hn.
  revert lo Hn. induction n as [|n IH]; intros lo Hn Hrun i Hi; [lia|].
  cbn [iter] in Hrun.
  change (plain body lo tt) with (body lo tt ≫= λ s', Ret (Next s')) in Hrun.
  destruct (body lo tt) as [[]| |] eqn:Hb; try discriminate Hrun.
  rewrite !bind_Ret in Hrun.
  destruct (decide (i = lo)) as [->|Hne]; [exact Hb|].
  apply (IH (lo + 1)); [lia | exact Hrun | lia].
Qed.

Section MoreGrid.
Context `{LogicHeader}.
Variable junk : ascii.

Lemma createMap_not_null (rows cols : Z) : createMap junk rows cols ≠ Ret None.
Proof.
  intros Hnull. unfold createMap in Hnull.
  apply bind_inv in Hnull as (m0 & _ & Hnull).
  apply bind_inv in Hnull as (m1 & _ & Hnull).
  apply bind_inv in Hnull as (m2 & _ & Hnull).
  discriminate Hnull.
Qed.

(** X1.  With dimensions that are not negative [createMap] returns exactly
    the map of [maxRow] rows of [maxCol] open cells, whatever the fresh
    storage held. *)
Theorem createMap_is_all_open (rows cols : Z) :
  0 ≤ rows → 0 ≤ cols →
  createMap junk rows cols =
    Ret (Some (replicate (Z.to_nat rows) (replicate (Z.to_nat cols) TILE_OPEN))).
Proof.
  intros Hr Hc.
  destruct (createMap_open junk rows cols Hr Hc) as (m & -> & Hshape & Hopen).
  do 2 f_equal.
  apply (grid_ext _ _ rows cols Hshape (replicate_shaped rows cols TILE_OPEN Hr Hc)).
  intros i j Hin. rewrite (Hopen i j Hin), replicate_load by exact Hin. reflexivity.
Qed.

(** X2.  [deleteMap] stays inside the row table exactly when [maxRow] is
    at most the number of rows allocated; a larger [maxRow] makes it read
    a row pointer past the end. *)
Theorem deleteMap_within_allocation (map : grid) (maxRow : Z) :
  deleteMap map maxRow = Ret tt ↔ maxRow ≤ Z.of_nat (length map).
Proof.
  unfold deleteMap. split.
  - intros Hrun.
    destruct (decide (maxRow ≤ Z.of_nat (length map))) as [|Hgt]; [assumption|].
    pose proof (for_up_unit_inv 0 maxRow _ Hrun (Z.of_nat (length map)) ltac:(lia)) as Hb.
    cbv beta in Hb. rewrite decide_False in Hb by lia. discriminate Hb.
  - intros Hle.
    destruct (decide (0 ≤ maxRow)) as [Hpos|Hneg].
    + destruct (for_up_rule (λ _ (_ : unit), True) 0 maxRow
                  (λ j (_ : unit),
                     if decide (0 ≤ j ∧ (Z.to_nat j < length map)%nat) then Ret tt else Undef)
                  tt Hpos I) as ([] & Hrun & _); [|exact Hrun].
      intros j [] Hj _. exists tt. rewrite decide_True by lia. auto.
    + unfold for_up, for_up_break. replace (Z.to_nat (maxRow - 0)) with O by lia. reflexivity.
Qed.

End MoreGrid.

Lemma createMap_is_all_open_witness :
  createMap "?" 2 3 = Ret (Some [["-"; "-"; "-"]; ["-"; "-"; "-"]]%char).
Proof. exact (createMap_is_all_open "?" 2 3 ltac:(lia) ltac:(lia)). Defined.

(** ** More on [loadLevel] *)

Lemma skipws_blank (l : list ascii) :
  Forall (λ c, isspace c = true) l → skipws l = [].
Proof.
  induction 1 as [|c l Hc _ IH]; [reflexivity|]. cbn [skipws]. rewrite Hc. exact IH.
Qed.

Section MoreLoad.
Context `{LogicHeader}.
Variable junk : ascii.

(** X3.  [loadLevel] returns [nullptr] in one case only, the file that
    cannot be opened, and then [maxRow], [maxCol] and the player are as
    they came in.  For a file that opens the test of [createMap]'s result
    against [nullptr] never fires. *)
Theorem loadLevel_null_only_when_unopened (fs : filesystem) (fileName : string)
    (maxRow maxCol maxRow' maxCol' : Z) (player player' : Player) :
  loadLevel junk fs fileName maxRow maxCol player = Ret (None, maxRow', maxCol', player') ↔
  fs fileName = None ∧ maxRow' = maxRow ∧ maxCol' = maxCol ∧ player' = player.
Proof.
  unfold loadLevel. destruct (fs fileName) as [content|].
  - split; [intros Hrun; exfalso | intros [Hno _]; discriminate Hno].
    destruct (get_int (mkStream content false) maxRow) as [r s1].
    destruct (get_int s1 maxCol) as [c s2].
    destruct (get_int s2 (row player)) as [pr s3].
    destruct (get_int s3 (col player)) as [pc s4].
    apply bind_inv in Hrun as ([g|] & Hcreate & Hrun).
    + apply bind_inv in Hrun as ([s g'] & _ & Hrun). discriminate Hrun.
    + exact (createMap_not_null junk r c Hcreate).
  - split; [intros [= <- <- <-]; auto | intros (_ & -> & -> & ->); reflexivity].
Qed.

(** X4.  A file that opens and holds nothing but white space (an empty
    file too) is no error, and nothing is read from it: every extraction
    fails before it stores a value, so [maxRow], [maxCol] and the player
    are the ones the caller passed.  With these dimensions not negative
    [loadLevel] returns a map of that shape, not [nullptr]: [createMap]'s
    open cells, and the player marker at the coordinates the player object
    came in with when they lie inside. *)
Theorem loadLevel_blank_file (fs : filesystem) (fileName : string)
    (maxRow maxCol : Z) (player : Player) (content : list ascii) :
  fs fileName = Some content →
  Forall (λ c, isspace c = true) content →
  0 ≤ maxRow → 0 ≤ maxCol →
  ∃ g,
    loadLevel junk fs fileName maxRow maxCol player = Ret (Some g, maxRow, maxCol, player) ∧
    shaped g maxRow maxCol ∧
    ∀ i j, inside maxRow maxCol i j →
      load g i j =
        Ret (if decide (i = row player ∧ j = col player) then TILE_PLAYER else TILE_OPEN).
Proof.
  intros Hopen Hblank Hrows Hcols. unfold loadLevel. rewrite Hopen.
  assert (Hfirst : get_int (mkStream content false) maxRow = (maxRow, mkStream [] true)).
  { unfold get_int. cbn [failbit unread]. rewrite (skipws_blank content Hblank). reflexivity. }
  rewrite Hfirst. rewrite !get_int_failed by reflexivity. cbv beta iota zeta.
  destruct (createMap_open junk maxRow maxCol Hrows Hcols) as (g0 & -> & Hshape0 & Hopen0).
  rewrite bind_Ret.
  destruct (loadLevel_reads_cells (mkStream [] true) g0 maxRow maxCol
              (mkPlayer (row player) (col player) (treasure player))
              Hrows Hcols Hshape0 Hopen0) as (s & g & Hrun & Hshape & Hcells).
  rewrite Hrun, bind_Ret. cbn [row col] in Hcells.
  exists g. split; [destruct player; reflexivity|]. split; [exact Hshape|].
  intros i j Hin. rewrite (Hcells i j Hin). reflexivity.
Qed.

End MoreLoad.

(** X4 on a file of two blanks, read into the dimensions 7 and 9 and a
    player at (1, 2): a 7 by 9 map of open cells with the marker at (1, 2). *)
Lemma loadLevel_blank_file_witness :
  ∃ g,
    loadLevel "?" (only_file (list_ascii_of_string "  ")) "level.txt" 7 9 (mkPlayer 1 2 3) =
      Ret (Some g, 7, 9, mkPlayer 1 2 3) ∧
    shaped g 7 9 ∧ load g 1 2 = Ret TILE_PLAYER ∧ load g 6 8 = Ret TILE_OPEN.
Proof.
  destruct (loadLevel_blank_file "?" (only_file (list_ascii_of_string "  ")) "level.txt" 7 9
              (mkPlayer 1 2 3) (list_ascii_of_string "  ") eq_refl
              ltac:(repeat constructor) ltac:(lia) ltac:(lia))
    as (g & Hrun & Hshape & Hcells).
  exists g. split; [exact Hrun|]. split; [exact Hshape|].
  split; [exact (Hcells 1 2 ltac:(unfold inside; lia))|].
  exact (Hcells 6 8 ltac:(unfold inside; lia)).
Defined.

(** ** [getDirection] *)

Section Direction.
Context `{LogicHeader}.

Lemma getDirection_step_bound (input : ascii) (nextRow nextCol : Z) :
  Z.abs ((getDirection input nextRow nextCol).1 - nextRow) +
  Z.abs ((getDirection input nextRow nextCol).2 - nextCol) ≤ 1.
Proof.
  unfold getDirection. repeat case_decide; cbn [fst snd]; lia.
Qed.

(** X5.  Whatever the key, [getDirection] moves the candidate by one cell
    at most, along one axis: the changes of row and column add up to 0
    or 1. *)
Theorem getDirection_one_step (input : ascii) (nextRow nextCol : Z) :
  Z.abs ((getDirection input nextRow nextCol).1 - nextRow) +
  Z.abs ((getDirection input nextRow nextCol).2 - nextCol) ≤ 1.
Proof. apply getDirection_step_bound. Qed.

(** X6.  With four different keys, a key and its opposite cancel: right
    then left, left then right, up then down and down then up give back
    the candidate they started from.  A character that is none of the
    four keys leaves the candidate where it is. *)
Theorem getDirection_opposites_cancel (nextRow nextCol : Z) :
  NoDup [MOVE_RIGHT; MOVE_LEFT; MOVE_UP; MOVE_DOWN] →
  let twice a b :=
    getDirection b (getDirection a nextRow nextCol).1 (getDirection a nextRow nextCol).2 in
  twice MOVE_RIGHT MOVE_LEFT = (nextRow, nextCol) ∧
  twice MOVE_LEFT MOVE_RIGHT = (nextRow, nextCol) ∧
  twice MOVE_UP MOVE_DOWN = (nextRow, nextCol) ∧
  twice MOVE_DOWN MOVE_UP = (nextRow, nextCol) ∧
  ∀ input, input ∉ [MOVE_RIGHT; MOVE_LEFT; MOVE_UP; MOVE_DOWN] →
           getDirection input nextRow nextCol = (nextRow, nextCol).
Proof.
  intros Hkeys. cbv zeta.
  apply NoDup_cons in Hkeys as [Hr Hkeys]. apply NoDup_cons in Hkeys as [Hl Hkeys].
  apply NoDup_cons in Hkeys as [Hu _].
  apply not_elem_of_cons in Hr as [Hrl Hr]. apply not_elem_of_cons in Hr as [Hru Hr].
  apply not_elem_of_cons in Hr as [Hrd _].
  apply not_elem_of_cons in Hl as [Hlu Hl]. apply not_elem_of_cons in Hl as [Hld _].
  apply not_elem_of_cons in Hu as [Hud _].
  unfold getDirection.
  repeat split.
  - rewrite (decide_True (P := MOVE_RIGHT = MOVE_RIGHT)) by reflexivity. cbn [fst snd].
    rewrite (decide_False (P := MOVE_LEFT = MOVE_RIGHT)) by congruence.
    rewrite (decide_True (P := MOVE_LEFT = MOVE_LEFT)) by reflexivity. f_equal. lia.
  - rewrite (decide_False (P := MOVE_LEFT = MOVE_RIGHT)) by congruence.
    rewrite (decide_True (P := MOVE_LEFT = MOVE_LEFT)) by reflexivity. cbn [fst snd].
    rewrite (decide_True (P := MOVE_RIGHT = MOVE_RIGHT)) by reflexivity. f_equal. lia.
  - rewrite (decide_False (P := MOVE_UP = MOVE_RIGHT)) by congruence.
    rewrite (decide_False (P := MOVE_UP = MOVE_LEFT)) by congruence.
    rewrite (decide_True (P := MOVE_UP = MOVE_UP)) by reflexivity. cbn [fst snd].
    rewrite (decide_False (P := MOVE_DOWN = MOVE_RIGHT)) by congruence.
    rewrite (decide_False (P := MOVE_DOWN = MOVE_LEFT)) by congruence.
    rewrite (decide_False (P := MOVE_DOWN = MOVE_UP)) by congruence.
    rewrite (decide_True (P := MOVE_DOWN = MOVE_DOWN)) by reflexivity. f_equal. lia.
  - rewrite (decide_False (P := MOVE_DOWN = MOVE_RIGHT)) by congruence.
    rewrite (decide_False (P := MOVE_DOWN = MOVE_LEFT)) by congruence.
    rewrite (decide_False (P := MOVE_DOWN = MOVE_UP)) by congruence.
    rewrite (decide_True (P := MOVE_DOWN = MOVE_DOWN)) by reflexivity. cbn [fst snd].
    rewrite (decide_False (P := MOVE_UP = MOVE_RIGHT)) by congruence.
    rewrite (decide_False (P := MOVE_UP = MOVE_LEFT)) by congruence.
    rewrite (decide_True (P := MOVE_UP = MOVE_UP)) by reflexivity. f_equal. lia.
  - intros input Hnone.
    apply not_elem_of_cons in Hnone as [? Hnone]. apply not_elem_of_cons in Hnone as [? Hnone].
    apply not_elem_of_cons in Hnone as [? Hnone]. apply not_elem_of_cons in Hnone as [? _].
    rewrite !decide_False by assumption. reflexivity.
Qed.

End Direction.

Lemma getDirection_opposites_cancel_witness :
  getDirection "a" (getDirection "d" 4 7).1 (getDirection "d" 4 7).2 = (4, 7) ∧
  getDirection "x" 4 7 = (4, 7).
Proof.
  destruct (getDirection_opposites_cancel 4 7 ltac:(compute_done))
    as (Hrl & _ & _ & _ & Hother).
  split; [exact Hrl|]. apply Hother. compute_done.
Defined.

(** ** More on [doPlayerMove] *)

Section MoreMove.
Context `{LogicHeader}.

Lemma relocate_inv (map map' : grid) (player player' : Player)
    (nextRow nextCol t : Z) (status status' : Status) :
  relocate map player nextRow nextCol t status = Ret (map', player', status') →
  player' = mkPlayer nextRow nextCol t ∧ status' = status ∧
  ∃ m1, store map (row player) (col player) TILE_OPEN = Ret m1 ∧
        store m1 nextRow nextCol TILE_PLAYER = Ret map'.
Proof.
  unfold relocate. intros Hrun.
  apply bind_inv in Hrun as (m1 & Hm1 & Hrun).
  apply bind_inv in Hrun as (m2 & Hm2 & Hrun).
  injection Hrun as <- <- <-. eauto.
Qed.

(** What a call of [doPlayerMove] that returns has done: nothing, with
    [STATUS_STAY], or the two writes of a relocation onto a candidate
    inside the grid, the treasure count incremented exactly when the status
    is [STATUS_TREASURE]. *)
Lemma doPlayerMove_inv (map map' : grid) (maxRow maxCol : Z) (player player' : Player)
    (nextRow nextCol : Z) (status : Status) :
  doPlayerMove map maxRow maxCol player nextRow nextCol = Ret (map', player', status) →
  (status = STATUS_STAY ∧ map' = map ∧ player' = player) ∨
  (status ≠ STATUS_STAY ∧ inside maxRow maxCol nextRow nextCol ∧
   row player' = nextRow ∧ col player' = nextCol ∧
   treasure player' =
     match status with
     | STATUS_TREASURE => wrap (treasure player + 1)
     | _ => treasure player
     end ∧
   ∃ m1, store map (row player) (col player) TILE_OPEN = Ret m1 ∧
         store m1 nextRow nextCol TILE_PLAYER = Ret map').
Proof.
  unfold doPlayerMove.
  destruct (decide (nextRow < 0 ∨ nextRow >= maxRow)) as [|Hr];
    [intros [= <- <- <-]; left; auto|].
  destruct (decide (nextCol < 0 ∨ nextCol >= maxCol)) as [|Hc];
    [intros [= <- <- <-]; left; auto|].
  assert (Hin : inside maxRow maxCol nextRow nextCol) by (unfold inside; lia).
  intros Hrun. apply bind_inv in Hrun as (c & _ & Hrun).
  assert (Hmoved : ∀ t st, st ≠ STATUS_STAY →
            t = match st with
                | STATUS_TREASURE => wrap (treasure player + 1)
                | _ => treasure player
                end →
            relocate map player nextRow nextCol t st = Ret (map', player', status) →
            status ≠ STATUS_STAY ∧ inside maxRow maxCol nextRow nextCol ∧
            row player' = nextRow ∧ col player' = nextCol ∧
            treasure player' =
              match status with
              | STATUS_TREASURE => wrap (treasure player + 1)
              | _ => treasure player
              end ∧
            ∃ m1, store map (row player) (col player) TILE_OPEN = Ret m1 ∧
                  store m1 nextRow nextCol TILE_PLAYER = Ret map').
  { intros t st Hst Ht Hrel. apply relocate_inv in Hrel as (-> & -> & Hstores).
    cbn [row col treasure]. auto 10. }
  destruct (decide (c = TILE_PILLAR ∨ c = TILE_MONSTER));
    [injection Hrun as <- <- <-; left; auto|].
  destruct (decide (c = TILE_TREASURE));
    [right; apply (Hmoved _ STATUS_TREASURE ltac:(discriminate) eq_refl Hrun)|].
  destruct (decide (c = TILE_AMULET));
    [right; apply (Hmoved _ STATUS_AMULET ltac:(discriminate) eq_refl Hrun)|].
  destruct (decide (c = TILE_DOOR));
    [right; apply (Hmoved _ STATUS_LEAVE ltac:(discriminate) eq_refl Hrun)|].
  destruct (decide (c = TILE_EXIT));
    [|right; apply (Hmoved _ STATUS_MOVE ltac:(discriminate) eq_refl Hrun)].
  destruct (decide (treasure player >= 1));
    [right; apply (Hmoved _ STATUS_ESCAPE ltac:(discriminate) eq_refl Hrun)|].
  injection Hrun as <- <- <-. left. auto.
Qed.

(** X7.  [doPlayerMove] changes the treasure count in one case only, the
    status [STATUS_TREASURE].  For a count that is an [int], the count
    after such a call is the count before plus 1 as long as the count
    before is below [INT_MAX]; at [INT_MAX] the increment overflows and the
    count the machine leaves is [INT_MIN], so here, and only here, the
    count goes down.  With every other status the count is as before, and
    the count is an [int] after the call in every case. *)
Theorem doPlayerMove_counts_treasure (map map' : grid) (maxRow maxCol : Z)
    (player player' : Player) (nextRow nextCol : Z) (status : Status) :
  INT_MIN ≤ treasure player ≤ INT_MAX →
  doPlayerMove map maxRow maxCol player nextRow nextCol = Ret (map', player', status) →
  treasure player' =
    match status with
    | STATUS_TREASURE =>
        if decide (treasure player = INT_MAX) then INT_MIN else treasure player + 1
    | _ => treasure player
    end ∧
  INT_MIN ≤ treasure player' ≤ INT_MAX.
Proof.
  intros Hint Hrun.
  assert (Hwrap : wrap (treasure player + 1) =
            if decide (treasure player = INT_MAX) then INT_MIN else treasure player + 1).
  { unfold wrap, INT_MIN, INT_MAX in *.
    destruct (decide (treasure player = 2147483647)) as [->|Hne]; [reflexivity|].
    rewrite Z.mod_small by lia. lia. }
  assert (Hrange : INT_MIN ≤ wrap (treasure player + 1) ≤ INT_MAX).
  { rewrite Hwrap. unfold INT_MIN, INT_MAX in *. case_decide; lia. }
  apply doPlayerMove_inv in Hrun as [(-> & _ & ->)|(_ & _ & _ & _ & Ht & _)].
  - split; [reflexivity | exact Hint].
  - rewrite Ht. destruct status; try (split; [reflexivity | exact Hint]).
    split; [exact Hwrap | exact Hrange].
Qed.

(** X8.  A call of [doPlayerMove] keeps the shape of the map and writes
    two cells at most, the one the player stood on and the candidate;
    with [STATUS_STAY] map and player are the ones given, with any other
    status the player stands on the candidate, which lies inside the
    grid.  So a player inside the grid is inside it after the call. *)
Theorem doPlayerMove_frame (map map' : grid) (maxRow maxCol : Z)
    (player player' : Player) (nextRow nextCol : Z) (status : Status) :
  shaped map maxRow maxCol →
  doPlayerMove map maxRow maxCol player nextRow nextCol = Ret (map', player', status) →
  shaped map' maxRow maxCol ∧
  (∀ i j, ¬ (i = row player ∧ j = col player) → ¬ (i = nextRow ∧ j = nextCol) →
          load map' i j = load map i j) ∧
  (status = STATUS_STAY → map' = map ∧ player' = player) ∧
  (status ≠ STATUS_STAY →
   row player' = nextRow ∧ col player' = nextCol ∧ inside maxRow maxCol nextRow nextCol) ∧
  (inside maxRow maxCol (row player) (col player) →
   inside maxRow maxCol (row player') (col player')).
Proof.
  intros Hshape Hrun.
  apply doPlayerMove_inv in Hrun
    as [(-> & -> & ->)|(Hst & Hin & Hr & Hc & _ & m1 & Hm1 & Hm2)].
  - split; [exact Hshape|]. split; [reflexivity|]. split; [auto|].
    split; [contradiction | auto].
  - split; [eapply store_shaped; [eapply store_shaped|]; eauto|].
    split.
    { intros i j Hp Hn.
      rewrite (load_store_ne _ _ _ _ _ _ _ Hm2), (load_store_ne _ _ _ _ _ _ _ Hm1) by assumption.
      reflexivity. }
    split; [contradiction|]. split; [auto|].
    intros _. rewrite Hr, Hc. exact Hin.
Qed.

(** X9.  A move whose candidate is the player's own cell, as after a
    character that is no key, counts as a move: when that cell holds the
    player marker and the marker differs from the six tiles with a rule of
    their own, [doPlayerMove] returns [STATUS_MOVE] with the map and the
    player it was given. *)
Theorem doPlayerMove_in_place (map : grid) (maxRow maxCol : Z) (player : Player) :
  shaped map maxRow maxCol →
  load map (row player) (col player) = Ret TILE_PLAYER →
  TILE_PLAYER ∉ [TILE_PILLAR; TILE_MONSTER; TILE_TREASURE; TILE_AMULET; TILE_DOOR; TILE_EXIT] →
  doPlayerMove map maxRow maxCol player (row player) (col player) =
    Ret (map, player, STATUS_MOVE).
Proof.
  intros Hshape Hhere Hdiff.
  apply not_elem_of_cons in Hdiff as [Hp Hdiff]. apply not_elem_of_cons in Hdiff as [Hm Hdiff].
  apply not_elem_of_cons in Hdiff as [Ht Hdiff]. apply not_elem_of_cons in Hdiff as [Ha Hdiff].
  apply not_elem_of_cons in Hdiff as [Hd Hdiff]. apply not_elem_of_cons in Hdiff as [He _].
  pose proof (load_Ret_inside map maxRow maxCol _ _ _ Hshape Hhere) as Hin.
  unfold doPlayerMove. unfold inside in Hin.
  rewrite !decide_False by lia. rewrite Hhere, bind_Ret.
  rewrite (decide_False (P := TILE_PLAYER = TILE_PILLAR ∨ TILE_PLAYER = TILE_MONSTER)) by tauto.
  rewrite !decide_False by assumption.
  destruct (relocate_spec map player (row player) (col player) (treasure player) STATUS_MOVE
              _ _ Hhere Hhere) as (map' & Hrun & Hload).
  rewrite Hrun.
  assert (Hshape' : shaped map' maxRow maxCol).
  { apply relocate_inv in Hrun as (_ & _ & m1 & Hm1 & Hm2).
    eapply store_shaped; [eapply store_shaped|]; eauto. }
  assert (map' = map) as ->.
  { apply (grid_ext _ _ maxRow maxCol Hshape' Hshape). intros i j _. rewrite Hload.
    destruct (decide (i = row player ∧ j = col player)) as [[-> ->]|]; [symmetry; exact Hhere|].
    reflexivity. }
  destruct player. reflexivity.
Qed.

(** X10.  A turn, [getDirection] on the player's position and then
    [doPlayerMove] on the candidate it gives, takes a player inside the
    grid to a cell inside the grid at most one step away, along one axis. *)
Theorem turn_moves_one_step_inside (map map' : grid) (maxRow maxCol : Z)
    (player player' : Player) (input : ascii) (status : Status) :
  inside maxRow maxCol (row player) (col player) →
  doPlayerMove map maxRow maxCol player
    (getDirection input (row player) (col player)).1
    (getDirection input (row player) (col player)).2 = Ret (map', player', status) →
  inside maxRow maxCol (row player') (col player') ∧
  Z.abs (row player' - row player) + Z.abs (col player' - col player) ≤ 1.
Proof.
  intros Hin Hrun.
  pose proof (getDirection_step_bound input (row player) (col player)) as Hstep.
  apply doPlayerMove_inv in Hrun as [(_ & _ & ->)|(_ & Hin' & Hr & Hc & _)].
  - split; [exact Hin | lia].
  - rewrite Hr, Hc. split; [exact Hin' | exact Hstep].
Qed.

End MoreMove.

(** ** More on [resizeMap] *)

Lemma for_up_empty {S : Type} (lo hi : Z) (body : Z → S → exec S) (s : S) :
  hi ≤ lo → for_up lo hi body s = Ret s.
Proof.
  intros Hle. unfold for_up, for_up_break.
  replace (Z.to_nat (hi - lo)) with O by lia. reflexivity.
Qed.

(** The search loop of [resizeMap] on any map: it ends on the last cell, in
    reading order, that holds ['o'], and on [(0, 0)] when there is none. *)
Lemma resizeMap_search (map : grid) (rows cols : Z) :
  0 ≤ rows → 0 ≤ cols → shaped map rows cols →
  ∃ r c,
    for_up 0 rows (λ i,
        for_up 0 cols (λ j (cur : Z * Z),
            ch ← load map i j;
            if decide (ch = "o"%char) then Ret (i, j) else Ret cur)) (0, 0) = Ret (r, c) ∧
    (((∀ i j, load map i j ≠ Ret "o"%char) ∧ r = 0 ∧ c = 0) ∨
     (load map r c = Ret "o"%char ∧
      ∀ i j, load map i j = Ret "o"%char → i < r ∨ (i = r ∧ j ≤ c))).
Proof.
  intros Hrows Hcols Hshape.
  destruct (for_up2_rule
    (λ i j (cur : Z * Z),
       ((∀ i' j', inside rows cols i' j' → i' < i ∨ (i' = i ∧ j' < j) →
                  load map i' j' ≠ Ret "o"%char) ∧ cur = (0, 0)) ∨
       (load map cur.1 cur.2 = Ret "o"%char ∧
        ∀ i' j', inside rows cols i' j' → i' < i ∨ (i' = i ∧ j' < j) →
                 load map i' j' = Ret "o"%char →
                 i' < cur.1 ∨ (i' = cur.1 ∧ j' ≤ cur.2)))
    rows cols
    (λ i j (cur : Z * Z),
       ch ← load map i j; if decide (ch = "o"%char) then Ret (i, j) else Ret cur)
    (0, 0) Hrows Hcols) as ([r c] & Hrun & Hend).
  - left. split; [intros i' j' [? ?] ?; lia | reflexivity].
  - intros i j cur Hi Hj Hinv.
    destruct (load_inside map rows cols i j Hshape) as [ch Hch]; [split; lia|].
    rewrite Hch, bind_Ret.
    destruct (decide (ch = "o"%char)) as [->|Hne].
    + exists (i, j). split; [reflexivity|]. right. cbn [fst snd].
      split; [exact Hch|]. intros i' j' _ Hbefore _. lia.
    + exists cur. split; [reflexivity|].
      assert (Hcell : ∀ i' j', i' < i ∨ (i' = i ∧ j' < j + 1) →
                load map i' j' = Ret "o"%char → i' < i ∨ (i' = i ∧ j' < j)).
      { intros i' j' Hb Ho.
        destruct (decide (i' = i ∧ j' = j)) as [[-> ->]|]; [|lia].
        rewrite Hch in Ho. injection Ho as Ho. contradiction. }
      destruct Hinv as [[Hnone ->]|[Hcur Hlast]].
      * left. split; [|reflexivity]. intros i' j' Hin Hb Ho.
        exact (Hnone i' j' Hin (Hcell i' j' Hb Ho) Ho).
      * right. split; [exact Hcur|]. intros i' j' Hin Hb Ho.
        exact (Hlast i' j' Hin (Hcell i' j' Hb Ho) Ho).
  - intros i cur Hi [[Hnone ->]|[Hcur Hlast]].
    + left. split; [|reflexivity]. intros i' j' Hin Hb.
      apply Hnone; [exact Hin|]. destruct Hin as [_ ?]. lia.
    + right. split; [exact Hcur|]. intros i' j' Hin Hb.
      apply Hlast; [exact Hin|]. destruct Hin as [_ ?]. lia.
  - exists r, c. split; [exact Hrun|]. cbn [fst snd] in Hend.
    destruct Hend as [[Hnone Heq]|[Hcur Hlast]].
    + left. injection Heq as -> ->. split; [|auto]. intros i j Ho.
      pose proof (load_Ret_inside map rows cols i j _ Hshape Ho) as Hin.
      apply (Hnone i j Hin); [|exact Ho]. destruct Hin as [? _]. lia.
    + right. split; [exact Hcur|]. intros i j Ho.
      pose proof (load_Ret_inside map rows cols i j _ Hshape Ho) as Hin.
      apply (Hlast i j Hin); [|exact Ho]. destruct Hin as [? _]. lia.
Qed.

Section MoreResize.
Context `{LogicHeader}.
Variable junk : ascii.

(** [resizeMap] on a map with cells, by the cell [(r, c)] its search ends
    on. *)
Lemma resizeMap_from_search (map : grid) (rows cols r c : Z) :
  shaped map rows cols → inside rows cols r c →
  for_up 0 rows (λ i,
      for_up 0 cols (λ j (cur : Z * Z),
          ch ← load map i j;
          if decide (ch = "o"%char) then Ret (i, j) else Ret cur)) (0, 0) = Ret (r, c) →
  ∃ new,
    resizeMap junk map rows cols = Ret (new, 2 * rows, 2 * cols) ∧
    shaped new (2 * rows) (2 * cols) ∧
    ∀ i j, inside (2 * rows) (2 * cols) i j →
      load new i j =
        if decide (i = r ∧ j = c) then Ret "o"%char
        else if decide (i mod rows = r ∧ j mod cols = c) then Ret TILE_OPEN
        else load map (i mod rows) (j mod cols).
Proof.
  intros Hshape Hin Hsearch. pose proof Hin as [Hr Hc].
  unfold resizeMap. cbv zeta.
  rewrite (new_array_nonneg (2 * rows)), bind_Ret by lia.
  destruct (alloc_rows_shaped junk (2 * rows) (2 * cols) ltac:(lia) ltac:(lia))
    as (fresh & -> & Hfresh).
  rewrite bind_Ret, Hsearch, bind_Ret.
  destruct (store_inside map rows cols r c TILE_OPEN Hshape Hin) as [map1 Hmap1].
  rewrite Hmap1, bind_Ret.
  pose proof (store_shaped _ _ _ _ _ _ _ Hshape Hmap1) as Hshape1.
  destruct (resizeMap_tiles map1 fresh rows cols ltac:(lia) ltac:(lia) Hshape1 Hfresh)
    as (tiled & -> & Htiled & Hcells).
  rewrite bind_Ret.
  destruct (store_inside tiled (2 * rows) (2 * cols) r c "o"%char Htiled) as [new Hnew];
    [unfold inside; lia|].
  rewrite Hnew, bind_Ret, (deleteMap_returns map1 rows cols Hshape1), bind_Ret.
  exists new. split; [reflexivity|].
  split; [eapply store_shaped; eauto|].
  intros i j Hij. rewrite (load_store _ _ _ _ _ _ _ Hnew).
  destruct (decide (i = r ∧ j = c)); [reflexivity|].
  rewrite (Hcells i j Hij). apply (load_store _ _ _ _ _ _ _ Hmap1).
Qed.

(** X11.  [resizeMap] does not check that a player marker is there: on a
    map with cells none of which holds ['o'] it still writes ['o'], at
    [(0, 0)] of the new map, and the tile the old map held at [(0, 0)] is
    replaced by [TILE_OPEN] in the three other copies. *)
Theorem resizeMap_without_marker (map : grid) (rows cols : Z) :
  shaped map rows cols → 0 < rows → 0 < cols →
  (∀ i j, load map i j ≠ Ret "o"%char) →
  ∃ new,
    resizeMap junk map rows cols = Ret (new, 2 * rows, 2 * cols) ∧
    shaped new (2 * rows) (2 * cols) ∧
    load new 0 0 = Ret "o"%char ∧
    ∀ i j, inside (2 * rows) (2 * cols) i j → ¬ (i = 0 ∧ j = 0) →
      load new i j =
        if decide (i mod rows = 0 ∧ j mod cols = 0) then Ret TILE_OPEN
        else load map (i mod rows) (j mod cols).
Proof.
  intros Hshape Hrows Hcols Hnone.
  destruct (resizeMap_search map rows cols ltac:(lia) ltac:(lia) Hshape)
    as (r & c & Hsearch & [(_ & -> & ->)|[Ho _]]); [|destruct (Hnone r c Ho)].
  destruct (resizeMap_from_search map rows cols 0 0 Hshape ltac:(unfold inside; lia) Hsearch)
    as (new & Hrun & Hshape' & Hcells).
  exists new. split; [exact Hrun|]. split; [exact Hshape'|]. split.
  - rewrite Hcells by (unfold inside; lia). rewrite decide_True by auto. reflexivity.
  - intros i j Hij Hne. rewrite (Hcells i j Hij), decide_False by exact Hne. reflexivity.
Qed.

(** X12.  On a map that holds ['o'] somewhere, [resizeMap] extends the
    map: every cell of the old map has its old content in the new one.
    The marker it keeps in place is the last one in reading order; the
    cells at that position in the three other copies hold [TILE_OPEN], and
    every other cell of the copies, an earlier ['o'] too, is copied as it
    is. *)
Theorem resizeMap_extends (map : grid) (rows cols : Z) (i0 j0 : Z) :
  shaped map rows cols →
  load map i0 j0 = Ret "o"%char →
  ∃ new r c,
    resizeMap junk map rows cols = Ret (new, 2 * rows, 2 * cols) ∧
    shaped new (2 * rows) (2 * cols) ∧
    load map r c = Ret "o"%char ∧
    (∀ i j, load map i j = Ret "o"%char → i < r ∨ (i = r ∧ j ≤ c)) ∧
    (∀ i j, inside rows cols i j → load new i j = load map i j) ∧
    (∀ i j, inside (2 * rows) (2 * cols) i j → ¬ inside rows cols i j →
       load new i j =
         if decide (i mod rows = r ∧ j mod cols = c) then Ret TILE_OPEN
         else load map (i mod rows) (j mod cols)).
Proof.
  intros Hshape Hmark.
  pose proof (load_Ret_inside map rows cols i0 j0 _ Hshape Hmark) as [Hi0 Hj0].
  destruct (resizeMap_search map rows cols ltac:(lia) ltac:(lia) Hshape)
    as (r & c & Hsearch & [(Hnone & _)|[Ho Hlast]]); [destruct (Hnone i0 j0 Hmark)|].
  pose proof (load_Ret_inside map rows cols r c _ Hshape Ho) as Hin.
  destruct (resizeMap_from_search map rows cols r c Hshape Hin Hsearch)
    as (new & Hrun & Hshape' & Hcells).
  exists new, r, c. split; [exact Hrun|]. split; [exact Hshape'|].
  split; [exact Ho|]. split; [exact Hlast|]. split.
  - intros i j [Hi Hj]. rewrite Hcells by (unfold inside; lia).
    rewrite !Z.mod_small by lia.
    destruct (decide (i = r ∧ j = c)) as [[-> ->]|]; [symmetry; exact Ho | reflexivity].
  - intros i j Hij Hout. rewrite (Hcells i j Hij).
    rewrite decide_False; [reflexivity|]. intros [-> ->]. exact (Hout Hin).
Qed.

(** X13.  [resizeMap] on a map without cells, no rows or no columns, is
    undefined behaviour: its search finds nothing and it writes
    [map[0][0]], a cell that is not there. *)
Theorem resizeMap_no_cells_undefined (map : grid) (rows cols : Z) :
  shaped map rows cols → rows = 0 ∨ cols = 0 →
  resizeMap junk map rows cols = Undef.
Proof.
  intros Hshape Hnone.
  assert (Hrows : 0 ≤ rows) by (destruct Hshape as [<- _]; lia).
  assert (Hwrite : store map 0 0 TILE_OPEN = Undef).
  { destruct (store map 0 0 TILE_OPEN) as [m'| |] eqn:Hst; [|unfold store in Hst|reflexivity].
    - assert (∃ ch, load m' 0 0 = Ret ch) as [ch Hch]
        by (rewrite (load_store_eq _ _ _ _ _ Hst); eauto).
      pose proof (load_Ret_inside m' rows cols 0 0 _
                    (store_shaped _ _ _ _ _ _ _ Hshape Hst) Hch) as [? ?]. lia.
    - repeat case_match; discriminate Hst. }
  unfold resizeMap. cbv zeta.
  rewrite (new_array_nonneg (2 * rows)), bind_Ret by lia.
  destruct (decide (rows = 0)) as [->|Hpos].
  - rewrite !(for_up_empty 0 (2 * 0)) by lia.
    rewrite bind_Ret. cbv beta. rewrite bind_Ret. cbv beta iota.
    rewrite Hwrite. reflexivity.
  - assert (cols = 0) as -> by lia.
    destruct (alloc_rows_shaped junk (2 * rows) (2 * 0) ltac:(lia) ltac:(lia))
      as (fresh & -> & _).
    rewrite bind_Ret.
    destruct (resizeMap_search map rows 0 ltac:(lia) ltac:(lia) Hshape)
      as (r & c & -> & [(_ & -> & ->)|[Ho _]]).
    + rewrite bind_Ret, Hwrite. reflexivity.
    + pose proof (load_Ret_inside map rows 0 r c _ Hshape Ho) as [_ ?]. lia.
Qed.

End MoreResize.

(** ** More on [doMonsterAttack] *)

Section ScanPillars.
Context `{LogicHeader}.
Variable pos : Z → Z * Z.
Variable n : nat.
Variables rows cols : Z.
Variable m0 : grid.
Hypothesis pos_inj : ∀ d e, 0 ≤ d ≤ Z.of_nat n → 0 ≤ e ≤ Z.of_nat n → pos d = pos e → d = e.
Hypothesis pos_inside : ∀ d, 0 ≤ d ≤ Z.of_nat n → inside rows cols (pos d).1 (pos d).2.
Hypothesis m0_shaped : shaped m0 rows cols.
Hypothesis monster_not_pillar : TILE_MONSTER ≠ TILE_PILLAR.
Hypothesis open_not_pillar : TILE_OPEN ≠ TILE_PILLAR.
Hypothesis start_not_pillar : peek m0 (pos 0) ≠ Ret TILE_PILLAR.

(** A scan that starts next to a cell that is no pillar leaves the pillars
    where they are and makes none. *)
Lemma scan_keeps_pillars (m : grid) :
  scan pos n m0 = Ret m →
  ∀ i j, load m i j = Ret TILE_PILLAR ↔ load m0 i j = Ret TILE_PILLAR.
Proof.
  intros Hrun.
  destruct (iter_rule
    (λ k m, scan_inv pos rows cols m0 (Z.of_nat k) m ∧
            ∀ i j, load m i j = Ret TILE_PILLAR ↔ load m0 i j = Ret TILE_PILLAR)
    (λ m, ∀ i j, load m i j = Ret TILE_PILLAR ↔ load m0 i j = Ret TILE_PILLAR)
    n 1 1 (λ d, monster_step (pos d) (pos (d - 1))) m0) as (m' & Hrun' & Hpil).
  - split; [apply scan_inv_start; exact m0_shaped | reflexivity].
  - intros k mk Hk [Hinv Hsame].
    replace (1 + Z.of_nat k * 1) with (Z.of_nat k + 1) by lia.
    replace (Z.of_nat k + 1 - 1) with (Z.of_nat k) by lia.
    pose proof (scan_inv_ahead pos n rows cols m0 pos_inj _ (Z.of_nat k + 1) mk Hinv
                  ltac:(lia) ltac:(lia)) as Hahead.
    assert (Hshape : shaped mk rows cols) by apply Hinv.
    destruct (load_inside mk rows cols _ _ Hshape (pos_inside (Z.of_nat k + 1) ltac:(lia)))
      as [c Hc].
    fold (peek mk (pos (Z.of_nat k + 1))) in Hc.
    destruct (decide (c = TILE_PILLAR)) as [->|Hcp].
    + exists (Break mk). split; [apply monster_step_pillar; exact Hc | exact Hsame].
    + destruct (decide (c = TILE_MONSTER)) as [->|Hcm].
      * destruct (load_inside mk rows cols _ _ Hshape (pos_inside (Z.of_nat k) ltac:(lia)))
          as [s Hs].
        fold (peek mk (pos (Z.of_nat k))) in Hs.
        destruct (monster_step_monster _ _ mk s Hc monster_not_pillar Hs)
          as (m1 & m2 & Hm1 & Hm2 & Hstep).
        exists (Next m2). split; [exact Hstep|].
        rewrite Nat2Z.inj_succ. unfold Z.succ.
        split.
        { apply (scan_inv_move pos n rows cols m0 pos_inj _ mk m1 m2 s); try assumption;
            [lia|]. rewrite <- Hahead. exact Hc. }
        assert (Hs_np : s ≠ TILE_PILLAR).
        { intros ->. unfold peek in Hs. apply Hsame in Hs.
          destruct (decide (k = O)) as [->|Hk0]; [exact (start_not_pillar Hs)|].
          destruct Hinv as (_ & _ & Hnopil & _).
          exact (Hnopil (Z.of_nat k) ltac:(lia) Hs). }
        assert (Hk_np : load m0 (pos (Z.of_nat k)).1 (pos (Z.of_nat k)).2 ≠ Ret TILE_PILLAR).
        { intros Hp. apply Hsame in Hp. unfold peek in Hs. rewrite Hs in Hp.
          injection Hp as Hp. exact (Hs_np Hp). }
        assert (Hk1_np : load m0 (pos (Z.of_nat k + 1)).1 (pos (Z.of_nat k + 1)).2
                         ≠ Ret TILE_PILLAR).
        { fold (peek m0 (pos (Z.of_nat k + 1))). rewrite <- Hahead, Hc.
          intros [= Heq]. exact (monster_not_pillar Heq). }
        intros i j.
        rewrite (load_store _ _ _ _ _ _ _ Hm2), (load_store _ _ _ _ _ _ _ Hm1).
        destruct (decide (i = (pos (Z.of_nat k + 1)).1 ∧ j = (pos (Z.of_nat k + 1)).2))
          as [[-> ->]|Hne1].
        { split; [|intros Hp; destruct (Hk1_np Hp)].
          destruct (decide (s = TILE_PLAYER)); intros [= Heq]; contradiction. }
        destruct (decide (i = (pos (Z.of_nat k)).1 ∧ j = (pos (Z.of_nat k)).2))
          as [[-> ->]|Hne0].
        { split; [intros [= Heq]; contradiction | intros Hp; destruct (Hk_np Hp)]. }
        apply Hsame.
      * exists (Next mk). split; [eapply monster_step_other; eauto|].
        rewrite Nat2Z.inj_succ. unfold Z.succ. split; [|exact Hsame].
        apply (scan_inv_skip pos n rows cols m0 pos_inj); [lia | exact Hinv | |];
          rewrite <- Hahead, Hc; congruence.
  - intros mk [_ Hsame]. exact Hsame.
  - unfold scan in Hrun. rewrite Hrun in Hrun'. injection Hrun' as ->. exact Hpil.
Qed.

End ScanPillars.

Lemma load_not_Throw (m : grid) (i j : Z) : load m i j ≠ Throw.
Proof. unfold load. repeat case_match; discriminate. Qed.

Lemma store_not_Throw (m : grid) (i j : Z) (c : ascii) : store m i j c ≠ Throw.
Proof. unfold store. repeat case_match; discriminate. Qed.

Lemma load_outside (m : grid) (rows cols i j : Z) :
  shaped m rows cols → ¬ inside rows cols i j → load m i j = Undef.
Proof.
  intros Hshape Hout. destruct (load m i j) as [c| |] eqn:Hl; [| |reflexivity].
  - destruct (Hout (load_Ret_inside m rows cols i j c Hshape Hl)).
  - destruct (load_not_Throw m i j Hl).
Qed.

Lemma store_outside (m : grid) (rows cols i j : Z) (c : ascii) :
  shaped m rows cols → ¬ inside rows cols i j → store m i j c = Undef.
Proof.
  intros Hshape Hout. destruct (store m i j c) as [m'| |] eqn:Hs; [| |reflexivity].
  - exfalso. apply Hout.
    apply (load_Ret_inside m' rows cols i j c (store_shaped _ _ _ _ _ _ _ Hshape Hs)).
    exact (load_store_eq _ _ _ _ _ Hs).
  - destruct (store_not_Throw m i j c Hs).
Qed.

(** What a loop's body keeps, the loop keeps. *)
Lemma iter_keeps {S : Type} (P : S → Prop) (n : nat) (i step : Z)
    (body : Z → S → exec (ctl S)) (s0 s' : S) :
  (∀ i s c, P s → body i s = Ret c → P (match c with Next t | Break t => t end)) →
  P s0 → iter n i step body s0 = Ret s' → P s'.
Proof.
  intros Hbody. revert i s0. induction n as [|n IH]; intros i s0 H0 Hrun.
  - injection Hrun as <-. exact H0.
  - cbn [iter] in Hrun. apply bind_inv in Hrun as (c & Hc & Hrun).
    pose proof (Hbody i s0 c H0 Hc) as Hp. destruct c as [t|t].
    + exact (IH _ _ Hp Hrun).
    + injection Hrun as <-. exact Hp.
Qed.

Lemma iter_not_Throw {S : Type} (n : nat) (i step : Z)
    (body : Z → S → exec (ctl S)) (s0 : S) :
  (∀ i s, body i s ≠ Throw) → iter n i step body s0 ≠ Throw.
Proof.
  intros Hbody. revert i s0. induction n as [|n IH]; intros i s0; [discriminate|].
  cbn [iter]. destruct (body i s0) as [[t|t]| |] eqn:Hb; cbn; try discriminate.
  - apply IH.
  - destruct (Hbody i s0 Hb).
Qed.

Section StepFacts.
Context `{LogicHeader}.

Lemma monster_step_not_Throw (here toward : Z * Z) (m : grid) :
  monster_step here toward m ≠ Throw.
Proof.
  unfold monster_step.
  destruct (load m here.1 here.2) as [c| |] eqn:Hc; cbn;
    [|destruct (load_not_Throw _ _ _ Hc)|discriminate].
  destruct (decide (c = TILE_PILLAR)); [discriminate|].
  destruct (decide (c = TILE_MONSTER)); [|discriminate].
  destruct (load m toward.1 toward.2) as [s| |] eqn:Hs; cbn;
    [|destruct (load_not_Throw _ _ _ Hs)|discriminate].
  destruct (store m toward.1 toward.2 c) as [m1| |] eqn:Hm1; cbn;
    [|destruct (store_not_Throw _ _ _ _ Hm1)|discriminate].
  destruct (store m1 here.1 here.2 _) as [m2| |] eqn:Hm2; cbn;
    [discriminate|destruct (store_not_Throw _ _ _ _ Hm2)|discriminate].
Qed.

Lemma monster_step_shaped (here toward : Z * Z) (m : grid) (rows cols : Z) (c : ctl grid) :
  shaped m rows cols → monster_step here toward m = Ret c →
  shaped (match c with Next t | Break t => t end) rows cols.
Proof.
  intros Hshape. unfold monster_step. intros Hrun.
  apply bind_inv in Hrun as (ch & _ & Hrun).
  destruct (decide (ch = TILE_PILLAR)); [injection Hrun as <-; exact Hshape|].
  destruct (decide (ch = TILE_MONSTER)); [|injection Hrun as <-; exact Hshape].
  apply bind_inv in Hrun as (s & _ & Hrun).
  apply bind_inv in Hrun as (mm & _ & Hrun).
  apply bind_inv in Hrun as (m1 & Hm1 & Hrun).
  apply bind_inv in Hrun as (m2 & Hm2 & Hrun).
  injection Hrun as <-.
  eapply store_shaped; [eapply store_shaped|]; eauto.
Qed.

(** X14.  With the player outside the grid, as [loadLevel] leaves it for
    a file that declares such coordinates, [doMonsterAttack] is undefined
    behaviour: whatever the scans do, the last test reads the player's
    cell, which is not in the map. *)
Theorem doMonsterAttack_player_outside (map : grid) (maxRow maxCol : Z) (player : Player) :
  shaped map maxRow maxCol →
  ¬ inside maxRow maxCol (row player) (col player) →
  doMonsterAttack map maxRow maxCol player = Undef.
Proof.
  intros Hshape Hout. unfold doMonsterAttack, for_down_break, for_up_break.
  assert (Hloop : ∀ cnt i step (body : Z → grid → exec (ctl grid)) (m : grid)
                    (k : grid → exec (grid * bool)),
            (∀ i m, body i m ≠ Throw) →
            (∀ i m c, shaped m maxRow maxCol → body i m = Ret c →
                      shaped (match c with Next t | Break t => t end) maxRow maxCol) →
            shaped m maxRow maxCol →
            (∀ m', shaped m' maxRow maxCol → k m' = Undef) →
            (iter cnt i step body m ≫= k) = Undef).
  { intros cnt i step body m k Hnt Hsh Hm Hk.
    destruct (iter cnt i step body m) as [m'| |] eqn:Hit; cbn; [| |reflexivity].
    - apply Hk. exact (iter_keeps _ cnt i step body m m' Hsh Hm Hit).
    - destruct (iter_not_Throw cnt i step body m Hnt Hit). }
  apply Hloop; [intros; apply monster_step_not_Throw
               | intros ? ? ?; apply monster_step_shaped | exact Hshape |].
  intros m1 Hm1.
  apply Hloop; [intros; apply monster_step_not_Throw
               | intros ? ? ?; apply monster_step_shaped | exact Hm1 |].
  intros m2 Hm2.
  apply Hloop; [intros; apply monster_step_not_Throw
               | intros ? ? ?; apply monster_step_shaped | exact Hm2 |].
  intros m3 Hm3.
  apply Hloop; [intros; apply monster_step_not_Throw
               | intros ? ? ?; apply monster_step_shaped | exact Hm3 |].
  intros m4 Hm4.
  rewrite (load_outside m4 maxRow maxCol _ _ Hm4 Hout). reflexivity.
Qed.

(** X15.  With the player outside the grid no move succeeds: when the
    candidate lies inside the grid and [doPlayerMove] does not answer
    [STATUS_STAY] (the candidate holds no pillar and no monster, and is
    not an exit the player lacks the treasure for), the relocation writes
    the player's old cell, which is not in the map. *)
Theorem doPlayerMove_player_outside (map : grid) (maxRow maxCol : Z) (player : Player)
    (nextRow nextCol : Z) (c : ascii) :
  shaped map maxRow maxCol →
  ¬ inside maxRow maxCol (row player) (col player) →
  inside maxRow maxCol nextRow nextCol →
  load map nextRow nextCol = Ret c →
  c ≠ TILE_PILLAR → c ≠ TILE_MONSTER →
  (c = TILE_EXIT → 1 ≤ treasure player) →
  doPlayerMove map maxRow maxCol player nextRow nextCol = Undef.
Proof.
  intros Hshape Hout Hin Hc Hp Hm Hexit.
  assert (Hrel : ∀ t st, relocate map player nextRow nextCol t st = Undef).
  { intros t st. unfold relocate.
    rewrite (store_outside map maxRow maxCol _ _ _ Hshape Hout). reflexivity. }
  unfold doPlayerMove. unfold inside in Hin. rewrite !decide_False by lia.
  rewrite Hc, bind_Ret. rewrite decide_False by tauto.
  destruct (decide (c = TILE_TREASURE)); [apply Hrel|].
  destruct (decide (c = TILE_AMULET)); [apply Hrel|].
  destruct (decide (c = TILE_DOOR)); [apply Hrel|].
  destruct (decide (c = TILE_EXIT)) as [He|]; [|apply Hrel].
  rewrite decide_True by (specialize (Hexit He); lia).
  apply Hrel.
Qed.

End StepFacts.

Section MoreAttack.
Context `{LogicHeader}.
Variables maxRow maxCol : Z.
Variable player : Player.
Hypothesis player_inside : inside maxRow maxCol (row player) (col player).
Hypothesis monster_not_pillar : TILE_MONSTER ≠ TILE_PILLAR.

Lemma scan_ray_keeps_pillars (r : Ray) (m m1 : grid) :
  TILE_OPEN ≠ TILE_PILLAR →
  shaped m maxRow maxCol →
  load m (row player) (col player) ≠ Ret TILE_PILLAR →
  scan_ray maxRow maxCol player r m = Ret m1 →
  ∀ i j, load m1 i j = Ret TILE_PILLAR ↔ load m i j = Ret TILE_PILLAR.
Proof.
  intros Hop Hshape Hcell Hrun.
  pose proof (ray_length_nonneg maxRow maxCol player r player_inside) as Hlen.
  apply (scan_keeps_pillars (ray_cell player r)
           (Z.to_nat (ray_length maxRow maxCol player r)) maxRow maxCol m);
    try assumption.
  - intros d e _ _. apply ray_cell_inj.
  - intros d Hd. apply ray_cell_inside; [exact player_inside | lia].
  - rewrite ray_cell_zero. exact Hcell.
Qed.

Lemma scan_rays_keep_pillars (rs : list Ray) (m m' : grid) :
  TILE_OPEN ≠ TILE_PILLAR →
  shaped m maxRow maxCol →
  load m (row player) (col player) ≠ Ret TILE_PILLAR →
  scan_rays maxRow maxCol player rs m = Ret m' →
  ∀ i j, load m' i j = Ret TILE_PILLAR ↔ load m i j = Ret TILE_PILLAR.
Proof.
  intros Hop. revert m. induction rs as [|r rs IH]; intros m Hshape Hcell Hrun.
  - injection Hrun as <-. reflexivity.
  - cbn [scan_rays] in Hrun. apply bind_inv in Hrun as (m1 & Hm1 & Hrun).
    pose proof (scan_ray_keeps_pillars r m m1 Hop Hshape Hcell Hm1) as Hsame.
    destruct (ray_scan maxRow maxCol player player_inside monster_not_pillar r m Hshape)
      as (m1' & Hm1' & Hshape1 & _).
    rewrite Hm1 in Hm1'. injection Hm1' as <-.
    intros i j. rewrite (IH m1 Hshape1 ltac:(rewrite Hsame; exact Hcell) Hrun i j).
    apply Hsame.
Qed.

(** X16.  [doMonsterAttack] writes in the player's row and column only:
    the map keeps its shape and every cell off both is as it was, so a
    monster that is not in line with the player does not move. *)
Theorem doMonsterAttack_row_and_column_only (map : grid) :
  shaped map maxRow maxCol →
  ∃ map' b,
    doMonsterAttack map maxRow maxCol player = Ret (map', b) ∧
    shaped map' maxRow maxCol ∧
    ∀ i j, i ≠ row player → j ≠ col player → load map' i j = load map i j.
Proof.
  intros Hshape.
  destruct (attack_returns maxRow maxCol player player_inside monster_not_pillar map Hshape)
    as (map' & b & Hrun & Hscans & Hshape' & _).
  exists map', b. split; [exact Hrun|]. split; [exact Hshape'|].
  destruct (scan_rays_frame maxRow maxCol player player_inside monster_not_pillar
              all_rays map Hshape) as (m2 & Hm2 & _ & _ & Hoff & _).
  rewrite Hscans in Hm2. injection Hm2 as <-.
  intros i j Hi Hj. apply Hoff.
  intros r d _ Heq. destruct r; cbn in Heq; injection Heq; intros; congruence.
Qed.

(** X17.  [doMonsterAttack] returns true exactly when a monster stands on
    one of the four cells next to the player, or stood on the player's
    cell already: a monster farther away, whatever its line of sight,
    does not capture in this call. *)
Theorem capture_iff_monster_adjacent (map : grid) :
  shaped map maxRow maxCol →
  ∃ map' b,
    doMonsterAttack map maxRow maxCol player = Ret (map', b) ∧
    (b = true ↔
     load map (row player) (col player) = Ret TILE_MONSTER ∨
     ∃ r, peek map (ray_cell player r 1) = Ret TILE_MONSTER).
Proof.
  intros Hshape.
  destruct (attack_returns maxRow maxCol player player_inside monster_not_pillar map Hshape)
    as (map' & b & Hrun & Hscans & Hshape' & Hflag).
  exists map', b. split; [exact Hrun|]. rewrite Hflag. split.
  - intros Hcaught.
    destruct (decide (Exists (λ r, peek map (ray_cell player r 1) = Ret TILE_MONSTER) all_rays))
      as [Hex|Hnone].
    + right. apply Exists_exists in Hex as (r & _ & Hr). eauto.
    + left. rewrite <- Hcaught. symmetry.
      apply (scan_rays_keep_player_cell maxRow maxCol player player_inside monster_not_pillar
               all_rays map map' (all_rays_NoDup)); try assumption.
      intros r Hr Hm. apply Hnone. apply Exists_exists. eauto.
  - intros [Hon|[r Hr]].
    + destruct (scan_rays_frame maxRow maxCol player player_inside monster_not_pillar
                  all_rays map Hshape) as (m2 & Hm2 & _ & _ & _ & Hzero & _).
      rewrite Hscans in Hm2. injection Hm2 as <-.
      destruct Hzero as [->|Hz]; [exact Hon | exact Hz].
    + pose proof (attack_move maxRow maxCol player player_inside monster_not_pillar
                    map map' Hshape Hscans r 1 ltac:(lia) Hr ltac:(intros; lia)) as Hdest.
      replace (1 - 1) with 0 in Hdest by lia. rewrite ray_cell_zero in Hdest. exact Hdest.
Qed.

(** X18.  When the player's cell is no pillar, [doMonsterAttack] leaves
    the pillars where they are and makes none: a cell holds a pillar
    after the call exactly when it held one before.  The lines of sight
    are the same for the next call. *)
Theorem doMonsterAttack_keeps_pillars (map : grid) :
  TILE_OPEN ≠ TILE_PILLAR →
  shaped map maxRow maxCol →
  load map (row player) (col player) ≠ Ret TILE_PILLAR →
  ∃ map' b,
    doMonsterAttack map maxRow maxCol player = Ret (map', b) ∧
    ∀ i j, load map' i j = Ret TILE_PILLAR ↔ load map i j = Ret TILE_PILLAR.
Proof.
  intros Hop Hshape Hcell.
  destruct (attack_returns maxRow maxCol player player_inside monster_not_pillar map Hshape)
    as (map' & b & Hrun & Hscans & _ & _).
  exists map', b. split; [exact Hrun|].
  exact (scan_rays_keep_pillars all_rays map map' Hop Hshape Hcell Hscans).
Qed.

(** X19.  On a map whose only player marker is on the player's cell, a
    call of [doMonsterAttack] that returns false leaves it so, the marker
    on the player's cell and nowhere else; after a call that returns true
    no cell holds the marker: the monster has replaced it. *)
Theorem doMonsterAttack_player_marker (map : grid) :
  TILE_MONSTER ≠ TILE_PLAYER → TILE_OPEN ≠ TILE_PLAYER →
  shaped map maxRow maxCol →
  sole_player map (row player) (col player) →
  ∃ map' b,
    doMonsterAttack map maxRow maxCol player = Ret (map', b) ∧
    (b = false → sole_player map' (row player) (col player)) ∧
    (b = true → ∀ i j, load map' i j ≠ Ret TILE_PLAYER).
Proof.
  intros Hmp Hop Hshape Hsole.
  destruct (attack_returns maxRow maxCol player player_inside monster_not_pillar map Hshape)
    as (map' & b & Hrun & Hscans & _ & Hflag).
  destruct (scan_rays_frame maxRow maxCol player player_inside monster_not_pillar
              all_rays map Hshape) as (m2 & Hm2 & _ & _ & _ & Hzero & Hpl).
  rewrite Hscans in Hm2. injection Hm2 as <-.
  specialize (Hpl Hmp Hop).
  assert (Hhere : load map (row player) (col player) = Ret TILE_PLAYER)
    by (apply Hsole; auto).
  exists map', b. split; [exact Hrun|]. split.
  - intros ->. intros i j. split.
    + intros Hp. apply Hsole. apply Hpl. exact Hp.
    + intros [-> ->]. destruct Hzero as [->|Hz]; [exact Hhere|].
      apply Hflag in Hz. discriminate Hz.
  - intros -> i j Hp.
    pose proof (proj1 (Hsole i j) (Hpl i j Hp)) as [-> ->].
    rewrite (proj1 Hflag eq_refl) in Hp. injection Hp as Heq. exact (Hmp Heq).
Qed.

End MoreAttack.

Section March.
Context `{LogicHeader}.
Variables maxRow maxCol : Z.
Variable player : Player.
Hypothesis player_inside : inside maxRow maxCol (row player) (col player).
Hypothesis monster_not_pillar : TILE_MONSTER ≠ TILE_PILLAR.
Hypothesis open_not_pillar : TILE_OPEN ≠ TILE_PILLAR.

Lemma attacks_reach (r : Ray) (n : nat) (map : grid) :
  shaped map maxRow maxCol →
  load map (row player) (col player) ≠ Ret TILE_PILLAR →
  peek map (ray_cell player r (Z.of_nat n + 1)) = Ret TILE_MONSTER →
  (∀ e, 1 ≤ e < Z.of_nat n + 1 → peek map (ray_cell player r e) ≠ Ret TILE_PILLAR) →
  ∃ before after,
    attacks n map maxRow maxCol player = Ret before ∧
    doMonsterAttack before maxRow maxCol player = Ret (after, true).
Proof.
  revert map. induction n as [|n IH]; intros map Hshape Hcell Hm Hclear.
  - destruct (attack_returns maxRow maxCol player player_inside monster_not_pillar map Hshape)
      as (map' & b & Hrun & Hscans & _ & Hflag).
    exists map, map'. split; [reflexivity|].
    pose proof (attack_move maxRow maxCol player player_inside monster_not_pillar
                  map map' Hshape Hscans r 1 ltac:(lia) Hm ltac:(intros; lia)) as Hdest.
    replace (1 - 1) with 0 in Hdest by lia. rewrite ray_cell_zero in Hdest.
    apply Hflag in Hdest. rewrite Hdest in Hrun. exact Hrun.
  - destruct (attack_returns maxRow maxCol player player_inside monster_not_pillar map Hshape)
      as (map1 & b & Hrun & Hscans & Hshape1 & _).
    pose proof (scan_rays_keep_pillars maxRow maxCol player player_inside monster_not_pillar
                  all_rays map map1 open_not_pillar Hshape Hcell Hscans) as Hsame.
    pose proof (attack_move maxRow maxCol player player_inside monster_not_pillar
                  map map1 Hshape Hscans r (Z.of_nat (Datatypes.S n) + 1) ltac:(lia) Hm Hclear)
      as Hdest.
    replace (Z.of_nat (Datatypes.S n) + 1 - 1) with (Z.of_nat n + 1) in Hdest by lia.
    destruct (IH map1 Hshape1) as (before & after & Hmany & Hlast).
    + rewrite Hsame. exact Hcell.
    + exact Hdest.
    + intros e He. unfold peek. rewrite Hsame. apply Hclear. lia.
    + exists before, after. split; [|exact Hlast].
      cbn [attacks]. rewrite Hrun, bind_Ret. exact Hmany.
Qed.

(** X20.  A monster in sight arrives: with a monster at distance [d] on a
    ray, no pillar between it and the player, and the player standing
    still on a cell that is no pillar, [d - 1] calls of [doMonsterAttack]
    return and the call after them returns true. *)
Theorem monster_in_sight_arrives (map : grid) (r : Ray) (d : Z) :
  shaped map maxRow maxCol →
  load map (row player) (col player) ≠ Ret TILE_PILLAR →
  1 ≤ d →
  peek map (ray_cell player r d) = Ret TILE_MONSTER →
  (∀ e, 1 ≤ e < d → peek map (ray_cell player r e) ≠ Ret TILE_PILLAR) →
  ∃ before after,
    attacks (Z.to_nat (d - 1)) map maxRow maxCol player = Ret before ∧
    doMonsterAttack before maxRow maxCol player = Ret (after, true).
Proof.
  intros Hshape Hcell Hd Hm Hclear.
  apply (attacks_reach r (Z.to_nat (d - 1)) map Hshape Hcell).
  - replace (Z.of_nat (Z.to_nat (d - 1)) + 1) with d by lia. exact Hm.
  - intros e He. apply Hclear. lia.
Qed.

End March.

Section Layout.
Context `{LogicHeader}.
Variable junk : ascii.

(** X21.  What [loadLevel] makes of a file depends on its four numbers
    and its first [rows * cols] tile tokens only: two files that open,
    declare the same numbers (dimensions not negative) and agree on these
    tokens load to the same result, whatever their white space and
    whatever follows the last token read. *)
Theorem loadLevel_reads_tokens_only (fs fs' : filesystem) (fileName fileName' : string)
    (maxRow maxCol : Z) (player : Player) (content content' : list ascii)
    (rows cols prow pcol : Z) (rest rest' : ifstream) :
  fs fileName = Some content →
  fs' fileName' = Some content' →
  declared content = Some (rows, cols, prow, pcol, rest) →
  declared content' = Some (rows, cols, prow, pcol, rest') →
  0 ≤ rows → 0 ≤ cols →
  take (Z.to_nat (rows * cols)) (tokens (unread rest)) =
    take (Z.to_nat (rows * cols)) (tokens (unread rest')) →
  loadLevel junk fs fileName maxRow maxCol player =
  loadLevel junk fs' fileName' maxRow maxCol player.
Proof.
  intros Hopen Hopen' Hdecl Hdecl' Hrows Hcols Htoks.
  destruct (loadLevel_reads junk fs fileName maxRow maxCol player content
              rows cols prow pcol rest Hopen Hdecl Hrows Hcols) as (g & -> & Hshape & Hcells).
  destruct (loadLevel_reads junk fs' fileName' maxRow maxCol player content'
              rows cols prow pcol rest' Hopen' Hdecl' Hrows Hcols) as (g' & -> & Hshape' & Hcells').
  do 5 f_equal.
  apply (grid_ext g g' rows cols Hshape Hshape').
  intros i j Hin. rewrite (Hcells i j Hin), (Hcells' i j Hin).
  destruct (decide (i = prow ∧ j = pcol)); [reflexivity|].
  f_equal. unfold token_at. f_equal.
  assert (Hk : (Z.to_nat (i * cols + j) < Z.to_nat (rows * cols))%nat)
    by (unfold inside in Hin; nia).
  rewrite <- (lookup_take_lt (tokens (unread rest)) _ _ Hk).
  rewrite <- (lookup_take_lt (tokens (unread rest')) _ _ Hk).
  rewrite Htoks. reflexivity.
Qed.

End Layout.

(** ** Instances of the further properties, on the reference characters *)

(** X7 on the row [o T]: a player with 4 treasures steps onto a fifth,
    and a player with [INT_MAX] treasures is left with [INT_MIN]. *)
Lemma doPlayerMove_counts_treasure_witness :
  (∃ map' player',
     doPlayerMove [["o"; "T"]]%char 1 2 (mkPlayer 0 0 4) 0 1 =
       Ret (map', player', STATUS_TREASURE) ∧
     treasure player' = 5) ∧
  (∃ map' player',
     doPlayerMove [["o"; "T"]]%char 1 2 (mkPlayer 0 0 INT_MAX) 0 1 =
       Ret (map', player', STATUS_TREASURE) ∧
     treasure player' = INT_MIN).
Proof.
  split.
  - assert (Hrun : doPlayerMove [["o"; "T"]]%char 1 2 (mkPlayer 0 0 4) 0 1 =
              Ret ([["-"; "o"]]%char, mkPlayer 0 1 5, STATUS_TREASURE)) by reflexivity.
    exists [["-"; "o"]]%char, (mkPlayer 0 1 5). split; [exact Hrun|].
    exact (proj1 (doPlayerMove_counts_treasure _ _ _ _ (mkPlayer 0 0 4) _ _ _ _
                    ltac:(cbn; unfold INT_MIN, INT_MAX; lia) Hrun)).
  - assert (Hrun : doPlayerMove [["o"; "T"]]%char 1 2 (mkPlayer 0 0 INT_MAX) 0 1 =
              Ret ([["-"; "o"]]%char, mkPlayer 0 1 INT_MIN, STATUS_TREASURE)) by reflexivity.
    exists [["-"; "o"]]%char, (mkPlayer 0 1 INT_MIN). split; [exact Hrun|].
    exact (proj1 (doPlayerMove_counts_treasure _ _ _ _ (mkPlayer 0 0 INT_MAX) _ _ _ _
                    ltac:(cbn; unfold INT_MIN, INT_MAX; lia) Hrun)).
Defined.

(** X8 on a 2 by 2 map: the step to the right writes the first row only. *)
Lemma doPlayerMove_frame_witness :
  let map := [["o"; "-"]; ["T"; "#"]]%char in
  shaped map 2 2 ∧
  ∃ map' player' status,
    doPlayerMove map 2 2 (mkPlayer 0 0 0) 0 1 = Ret (map', player', status) ∧
    shaped map' 2 2 ∧ load map' 1 0 = Ret TILE_TREASURE ∧ load map' 1 1 = Ret TILE_PILLAR ∧
    inside 2 2 (row player') (col player').
Proof.
  cbv zeta.
  assert (Hs : shaped [["o"; "-"]; ["T"; "#"]]%char 2 2) by (vm_compute; auto).
  split; [exact Hs|].
  assert (Hrun : doPlayerMove [["o"; "-"]; ["T"; "#"]]%char 2 2 (mkPlayer 0 0 0) 0 1 =
            Ret ([["-"; "o"]; ["T"; "#"]]%char, mkPlayer 0 1 0, STATUS_MOVE)) by reflexivity.
  exists [["-"; "o"]; ["T"; "#"]]%char, (mkPlayer 0 1 0), STATUS_MOVE.
  split; [exact Hrun|].
  destruct (doPlayerMove_frame _ _ _ _ _ _ _ _ _ Hs Hrun) as (Hshape & Hcells & _ & _ & Hin).
  split; [exact Hshape|].
  split; [exact (Hcells 1 0 ltac:(cbn; lia) ltac:(lia))|].
  split; [exact (Hcells 1 1 ltac:(cbn; lia) ltac:(lia))|].
  apply Hin. unfold inside. cbn. lia.
Defined.

(** X9 on the row [o -]: a move to the player's own cell. *)
Lemma doPlayerMove_in_place_witness :
  doPlayerMove [["o"; "-"]]%char 1 2 (mkPlayer 0 0 3) 0 0 =
  Ret ([["o"; "-"]]%char, mkPlayer 0 0 3, STATUS_MOVE).
Proof.
  apply (doPlayerMove_in_place [["o"; "-"]]%char 1 2 (mkPlayer 0 0 3));
    [vm_compute; auto | reflexivity | compute_done].
Defined.

(** X10 on the row [o -] with the key for a step to the right. *)
Lemma turn_moves_one_step_inside_witness :
  ∃ map' player' status,
    doPlayerMove [["o"; "-"]]%char 1 2 (mkPlayer 0 0 0)
      (getDirection MOVE_RIGHT 0 0).1 (getDirection MOVE_RIGHT 0 0).2 =
      Ret (map', player', status) ∧
    inside 1 2 (row player') (col player') ∧
    Z.abs (row player' - 0) + Z.abs (col player' - 0) ≤ 1.
Proof.
  assert (Hrun : doPlayerMove [["o"; "-"]]%char 1 2 (mkPlayer 0 0 0)
                   (getDirection MOVE_RIGHT 0 0).1 (getDirection MOVE_RIGHT 0 0).2 =
            Ret ([["-"; "o"]]%char, mkPlayer 0 1 0, STATUS_MOVE)) by reflexivity.
  exists [["-"; "o"]]%char, (mkPlayer 0 1 0), STATUS_MOVE. split; [exact Hrun|].
  exact (turn_moves_one_step_inside [["o"; "-"]]%char _ 1 2 (mkPlayer 0 0 0) _ MOVE_RIGHT _
           ltac:(unfold inside; cbn; lia) Hrun).
Defined.

(** X11 on a 2 by 2 map without a marker: one appears at [(0, 0)], and
    the monster of the old [(0, 0)] is gone from every copy. *)
Lemma resizeMap_without_marker_witness :
  let map := [["M"; "-"]; ["T"; "#"]]%char in
  shaped map 2 2 ∧ (∀ i j, load map i j ≠ Ret "o"%char) ∧
  ∃ new,
    resizeMap "?" map 2 2 = Ret (new, 4, 4) ∧
    load new 0 0 = Ret "o"%char ∧ load new 0 2 = Ret TILE_OPEN ∧
    load new 2 2 = Ret TILE_OPEN ∧ load new 3 3 = Ret TILE_PILLAR.
Proof.
  cbv zeta.
  assert (Hs : shaped [["M"; "-"]; ["T"; "#"]]%char 2 2) by (vm_compute; auto).
  assert (Hnone : ∀ i j, load [["M"; "-"]; ["T"; "#"]]%char i j ≠ Ret "o"%char).
  { intros i j Hl. pose proof (load_Ret_inside _ 2 2 i j _ Hs Hl) as [Hi Hj].
    assert ((i = 0 ∨ i = 1) ∧ (j = 0 ∨ j = 1)) as [[-> | ->] [-> | ->]] by lia;
      discriminate Hl. }
  split; [exact Hs|]. split; [exact Hnone|].
  destruct (resizeMap_without_marker "?" _ 2 2 Hs ltac:(lia) ltac:(lia) Hnone)
    as (new & Hrun & _ & Horigin & Hcells).
  exists new. split; [exact Hrun|]. split; [exact Horigin|].
  split; [exact (Hcells 0 2 ltac:(unfold inside; lia) ltac:(lia))|].
  split; [exact (Hcells 2 2 ltac:(unfold inside; lia) ltac:(lia))|].
  exact (Hcells 3 3 ltac:(unfold inside; lia) ltac:(lia)).
Defined.

(** X12 on a 2 by 2 map with two markers: the old cells are kept, the
    last marker is the one opened in the copies, and the first marker is
    copied with the rest. *)
Lemma resizeMap_extends_witness :
  let map := [["o"; "-"]; ["T"; "o"]]%char in
  shaped map 2 2 ∧ load map 0 0 = Ret "o"%char ∧
  ∃ new,
    resizeMap "?" map 2 2 = Ret (new, 4, 4) ∧
    load new 0 0 = Ret "o"%char ∧ load new 1 1 = Ret "o"%char ∧
    load new 1 0 = Ret TILE_TREASURE ∧
    load new 1 3 = Ret TILE_OPEN ∧ load new 0 2 = Ret "o"%char.
Proof.
  cbv zeta.
  assert (Hs : shaped [["o"; "-"]; ["T"; "o"]]%char 2 2) by (vm_compute; auto).
  split; [exact Hs|]. split; [reflexivity|].
  destruct (resizeMap_extends "?" _ 2 2 0 0 Hs eq_refl)
    as (new & r & c & Hrun & _ & Hmark & Hlast & Hold & Hcopies).
  pose proof (load_Ret_inside _ 2 2 r c _ Hs Hmark) as [Hr Hc].
  pose proof (Hlast 1 1 eq_refl) as Hle.
  assert (r = 1 ∧ c = 1) as [-> ->] by lia.
  exists new. split; [exact Hrun|].
  split; [exact (Hold 0 0 ltac:(unfold inside; lia))|].
  split; [exact (Hold 1 1 ltac:(unfold inside; lia))|].
  split; [exact (Hold 1 0 ltac:(unfold inside; lia))|].
  split; [exact (Hcopies 1 3 ltac:(unfold inside; lia) ltac:(unfold inside; lia))|].
  exact (Hcopies 0 2 ltac:(unfold inside; lia) ltac:(unfold inside; lia)).
Defined.

(** X13 on a map of no rows and on a map of two rows without cells. *)
Lemma resizeMap_no_cells_undefined_witness :
  resizeMap "?" [] 0 3 = Undef ∧ resizeMap "?" [[]; []] 2 0 = Undef.
Proof.
  split.
  - apply (resizeMap_no_cells_undefined "?" [] 0 3); [vm_compute; auto | left; reflexivity].
  - apply (resizeMap_no_cells_undefined "?" [[]; []] 2 0);
      [vm_compute; auto | right; reflexivity].
Defined.

(** X14 on the row [M -] with the player declared in row 5. *)
Lemma doMonsterAttack_player_outside_witness :
  doMonsterAttack [["M"; "-"]]%char 1 2 (mkPlayer 5 1 0) = Undef.
Proof.
  apply doMonsterAttack_player_outside; [vm_compute; auto | unfold inside; cbn; lia].
Defined.

(** X15 on the row [- T] with the player declared in row 5. *)
Lemma doPlayerMove_player_outside_witness :
  doPlayerMove [["-"; "T"]]%char 1 2 (mkPlayer 5 1 0) 0 1 = Undef.
Proof.
  apply (doPlayerMove_player_outside _ 1 2 (mkPlayer 5 1 0) 0 1 "T"%char);
    [vm_compute; auto | unfold inside; cbn; lia | unfold inside; lia | reflexivity
    | discriminate | discriminate | discriminate].
Defined.

(** X16 on a 2 by 3 map: the monster in the corner is off the player's
    row and column and stays. *)
Lemma doMonsterAttack_row_and_column_only_witness :
  let map := [["M"; "-"; "-"]; ["-"; "o"; "M"]]%char in
  let player := mkPlayer 1 1 0 in
  inside 2 3 (row player) (col player) ∧ TILE_MONSTER ≠ TILE_PILLAR ∧ shaped map 2 3 ∧
  ∃ map' b,
    doMonsterAttack map 2 3 player = Ret (map', b) ∧
    shaped map' 2 3 ∧ load map' 0 0 = Ret TILE_MONSTER.
Proof.
  cbv zeta.
  assert (Hi : inside 2 3 (row (mkPlayer 1 1 0)) (col (mkPlayer 1 1 0)))
    by (unfold inside; cbn; lia).
  assert (Hne : TILE_MONSTER ≠ TILE_PILLAR) by discriminate.
  assert (Hs : shaped [["M"; "-"; "-"]; ["-"; "o"; "M"]]%char 2 3) by (vm_compute; auto).
  split; [exact Hi|]. split; [exact Hne|]. split; [exact Hs|].
  destruct (doMonsterAttack_row_and_column_only 2 3 (mkPlayer 1 1 0) Hi Hne _ Hs)
    as (map' & b & Hrun & Hshape & Hoff).
  exists map', b. split; [exact Hrun|]. split; [exact Hshape|].
  exact (Hoff 0 0 ltac:(cbn; lia) ltac:(cbn; lia)).
Defined.

(** X17 on the row [M o]: the monster is next to the player. *)
Lemma capture_iff_monster_adjacent_witness :
  let map := [["M"; "o"]]%char in
  let player := mkPlayer 0 1 0 in
  inside 1 2 (row player) (col player) ∧ TILE_MONSTER ≠ TILE_PILLAR ∧ shaped map 1 2 ∧
  ∃ map', doMonsterAttack map 1 2 player = Ret (map', true).
Proof.
  cbv zeta.
  assert (Hi : inside 1 2 (row (mkPlayer 0 1 0)) (col (mkPlayer 0 1 0)))
    by (unfold inside; cbn; lia).
  assert (Hne : TILE_MONSTER ≠ TILE_PILLAR) by discriminate.
  assert (Hs : shaped [["M"; "o"]]%char 1 2) by (vm_compute; auto).
  split; [exact Hi|]. split; [exact Hne|]. split; [exact Hs|].
  destruct (capture_iff_monster_adjacent 1 2 (mkPlayer 0 1 0) Hi Hne _ Hs)
    as (map' & b & Hrun & Hiff).
  exists map'. rewrite (proj2 Hiff) in Hrun; [exact Hrun|].
  right. exists ColumnDown. reflexivity.
Defined.

(** X18 on the row [M # - o]. *)
Lemma doMonsterAttack_keeps_pillars_witness :
  let map := [["M"; "#"; "-"; "o"]]%char in
  let player := mkPlayer 0 3 0 in
  inside 1 4 (row player) (col player) ∧ TILE_MONSTER ≠ TILE_PILLAR ∧
  TILE_OPEN ≠ TILE_PILLAR ∧ shaped map 1 4 ∧
  load map (row player) (col player) ≠ Ret TILE_PILLAR ∧
  ∃ map' b,
    doMonsterAttack map 1 4 player = Ret (map', b) ∧
    load map' 0 1 = Ret TILE_PILLAR ∧ load map' 0 2 ≠ Ret TILE_PILLAR.
Proof.
  cbv zeta.
  assert (Hi : inside 1 4 (row (mkPlayer 0 3 0)) (col (mkPlayer 0 3 0)))
    by (unfold inside; cbn; lia).
  assert (Hne : TILE_MONSTER ≠ TILE_PILLAR) by discriminate.
  assert (Hop : TILE_OPEN ≠ TILE_PILLAR) by discriminate.
  assert (Hs : shaped [["M"; "#"; "-"; "o"]]%char 1 4) by (vm_compute; auto).
  assert (Hcell : load [["M"; "#"; "-"; "o"]]%char (row (mkPlayer 0 3 0)) (col (mkPlayer 0 3 0))
                  ≠ Ret TILE_PILLAR) by discriminate.
  split; [exact Hi|]. split; [exact Hne|]. split; [exact Hop|]. split; [exact Hs|].
  split; [exact Hcell|].
  destruct (doMonsterAttack_keeps_pillars 1 4 (mkPlayer 0 3 0) Hi Hne _ Hop Hs Hcell)
    as (map' & b & Hrun & Hsame).
  exists map', b. split; [exact Hrun|]. split.
  - apply Hsame. reflexivity.
  - intros Hp. apply Hsame in Hp. discriminate Hp.
Defined.

(** X19 on the row [M - o]: no capture, and the marker stays alone. *)
Lemma doMonsterAttack_player_marker_witness :
  let map := [["M"; "-"; "o"]]%char in
  let player := mkPlayer 0 2 0 in
  inside 1 3 (row player) (col player) ∧ TILE_MONSTER ≠ TILE_PILLAR ∧
  TILE_MONSTER ≠ TILE_PLAYER ∧ TILE_OPEN ≠ TILE_PLAYER ∧ shaped map 1 3 ∧
  sole_player map (row player) (col player) ∧
  ∃ map', doMonsterAttack map 1 3 player = Ret (map', false) ∧ sole_player map' 0 2.
Proof.
  cbv zeta.
  assert (Hi : inside 1 3 (row (mkPlayer 0 2 0)) (col (mkPlayer 0 2 0)))
    by (unfold inside; cbn; lia).
  assert (Hne : TILE_MONSTER ≠ TILE_PILLAR) by discriminate.
  assert (Hmp : TILE_MONSTER ≠ TILE_PLAYER) by discriminate.
  assert (Hop : TILE_OPEN ≠ TILE_PLAYER) by discriminate.
  assert (Hs : shaped [["M"; "-"; "o"]]%char 1 3) by (vm_compute; auto).
  assert (Hsole : sole_player [["M"; "-"; "o"]]%char 0 2).
  { intros i j. split.
    - intros Hl. pose proof (load_Ret_inside _ 1 3 i j _ Hs Hl) as [Hi' Hj'].
      assert (i = 0 ∧ (j = 0 ∨ j = 1 ∨ j = 2)) as [-> [-> | [-> | ->]]] by lia;
        first [split; reflexivity | discriminate Hl].
    - intros [-> ->]. reflexivity. }
  split; [exact Hi|]. split; [exact Hne|]. split; [exact Hmp|]. split; [exact Hop|].
  split; [exact Hs|]. split; [exact Hsole|].
  destruct (doMonsterAttack_player_marker 1 3 (mkPlayer 0 2 0) Hi Hne _ Hmp Hop Hs Hsole)
    as (map' & b & Hrun & Hfree & _).
  assert (Hval : doMonsterAttack [["M"; "-"; "o"]]%char 1 3 (mkPlayer 0 2 0) =
            Ret ([["-"; "M"; "o"]]%char, false)) by reflexivity.
  rewrite Hval in Hrun. injection Hrun as <- <-.
  eexists. split; [reflexivity|]. apply Hfree. reflexivity.
Defined.

(** X20 on the row [M - - o]: the third call captures. *)
Lemma monster_in_sight_arrives_witness :
  let map := [["M"; "-"; "-"; "o"]]%char in
  let player := mkPlayer 0 3 0 in
  inside 1 4 (row player) (col player) ∧ TILE_MONSTER ≠ TILE_PILLAR ∧
  TILE_OPEN ≠ TILE_PILLAR ∧ shaped map 1 4 ∧
  ∃ before after,
    attacks 2 map 1 4 player = Ret before ∧
    doMonsterAttack before 1 4 player = Ret (after, true).
Proof.
  cbv zeta.
  assert (Hi : inside 1 4 (row (mkPlayer 0 3 0)) (col (mkPlayer 0 3 0)))
    by (unfold inside; cbn; lia).
  assert (Hne : TILE_MONSTER ≠ TILE_PILLAR) by discriminate.
  assert (Hop : TILE_OPEN ≠ TILE_PILLAR) by discriminate.
  assert (Hs : shaped [["M"; "-"; "-"; "o"]]%char 1 4) by (vm_compute; auto).
  split; [exact Hi|]. split; [exact Hne|]. split; [exact Hop|]. split; [exact Hs|].
  apply (monster_in_sight_arrives 1 4 (mkPlayer 0 3 0) Hi Hne Hop _ ColumnDown 3 Hs);
    [discriminate | lia | reflexivity |].
  intros e He. assert (e = 1 ∨ e = 2) as [-> | ->] by lia; discriminate.
Defined.

(** X21 on two files of one level: one line against three lines with a
    trailing comment. *)
Lemma loadLevel_reads_tokens_only_witness :
  loadLevel "?" (only_file (list_ascii_of_string "2 2 0 0 a b c d")) "one.txt" 0 0
    (mkPlayer 0 0 0) =
  loadLevel "?" (only_file (list_ascii_of_string "2 2 0 0
a b
c d   end of level")) "two.txt" 0 0 (mkPlayer 0 0 0).
Proof.
  eapply (loadLevel_reads_tokens_only "?" _ _ _ _ 0 0 (mkPlayer 0 0 0) _ _ 2 2 0 0);
    [reflexivity | reflexivity | reflexivity | reflexivity | lia | lia | reflexivity].
Defined.
